(** * PoseGenerator: a shallow embedding of [tools/src/poseGenerator.cpp]

    The generator draws bounded random perturbations ("poses") for video
    frames.  The embedding follows the C++ source function by function:

    - machine numbers: [double] and [float] values are rationals; the
      arithmetic of the uniform draw is rounded to IEEE binary64 operation
      by operation, the implicit [double -> float] conversion at a [float]
      return is written out as IEEE binary32 round-to-nearest-even, and
      [uint32_t] values are naturals with the truncation of [size_t] to 32
      bits written out;
    - the random engine [m_generator] is threaded explicitly; the C++
      exceptions are outcomes that keep the engine state reached when they
      were thrown; the two unbounded [while] loops take a redraw budget;
      a step on which the language places no requirement is an outcome of
      its own;
    - [std::map] is a [gmap] with the insert-if-absent behaviour of
      [std::map::insert]. *)

From Stdlib Require Import ZArith NArith QArith Qround Qabs Qpower Lia Lqa.
From Stdlib Require Import DecimalString DecimalPos.
From stdpp Require Import base option list strings gmap fin_maps.

#[local] Open Scope Q_scope.

(** ** Machine numbers *)

Definition double := Q.
Definition float := Q.

(** [x < y] on doubles, as a boolean. *)
Definition Qltb (x y : Q) : bool := negb (Qle_bool y x).

(** [floor (log2 x)] for a positive rational [x]. *)
Definition Qlog2 (x : Q) : Z :=
  let k := (Z.log2 (Qnum x) - Z.log2 (Zpos (Qden x)))%Z in
  if Qle_bool (2 ^ k) x then k else (k - 1)%Z.

(** Nearest integer, ties to the even one. *)
Definition round_half_even (q : Q) : Z :=
  let f := Qfloor q in
  match Qcompare (q - inject_Z f) (1 # 2) with
  | Lt => f
  | Gt => (f + 1)%Z
  | Eq => if Z.even f then f else (f + 1)%Z
  end.

(** Spacing of the binary32 grid around [x]: 24 significant bits, with
    the exponent clamped below at the subnormal range. *)
Definition binary32_ulp (x : Q) : Q :=
  2 ^ (Z.max (Qlog2 (Qabs x)) (-126) - 23).

(** The implicit conversion of a [double] to [float] (round to nearest,
    ties to even).  A value that rounds beyond [FLT_MAX] converts to an
    infinity, which this number type does not have: such values are
    outside this model.  A value of magnitude at most [FLT_MAX] converts
    to a finite [float] ([double_to_float_finite]), and that is the case
    of every value drawn under a hard limit of at most [FLT_MAX]. *)
Definition double_to_float (x : double) : float :=
  if Qeq_bool x 0 then 0
  else let u := binary32_ulp x in inject_Z (round_half_even (x / u)) * u.

(** [FLT_MAX], the largest finite binary32 number: (2 - 2^-23) * 2^127. *)
Definition FLT_MAX : Q := inject_Z (2 ^ 128 - 2 ^ 104).

(** A number that binary32 represents exactly: it lies on the binary32
    grid and within the finite range. *)
Definition binary32_representable (x : Q) : Prop :=
  double_to_float x == x /\ Qabs x <= FLT_MAX.

(** Spacing of the binary64 grid around [x]: 53 significant bits, with
    the exponent clamped below at the subnormal range. *)
Definition binary64_ulp (x : Q) : Q :=
  2 ^ (Z.max (Qlog2 (Qabs x)) (-1022) - 52).

(** The [double] that an operation on doubles returns when its exact
    result is [x] (round to nearest, ties to even).  Results beyond the
    finite binary64 range are outside this model; the operations below
    stay within it for hard limits up to [FLT_MAX]. *)
Definition round_double (x : Q) : double :=
  if Qeq_bool x 0 then 0
  else let u := binary64_ulp x in inject_Z (round_half_even (x / u)) * u.

(** A number that binary64 represents exactly. *)
Definition binary64_representable (x : Q) : Prop := round_double x == x.

(** [uint32_t v = n]: reduction modulo 2^32. *)
Definition to_uint32 (n : N) : N := (n mod 2 ^ 32)%N.

(** ** Exceptions and the engine-state monad *)

(** One constructor per [throw] site, named after the error taxonomy;
    the message that each carries is [what], further down.  [OutOfRange]
    is [std::out_of_range] of [vector::at]; [TraceLoadError] is whatever
    the trace constructor throws on a file it cannot load. *)
Inductive Error :=
  | InvalidRule_numeric (field : string)
  | InvalidRule_label (field value : string)
  | UnknownDistribution (name : string)
  | NoMatchingRule (index : N)
  | FrameCountMismatch (traceFrames useFrames : N)
  | InternalInconsistency
  | TraceLoadError
  | OutOfRange.

(** The C++ exception classes the throw sites use. *)
Inductive StdException := invalid_argument | runtime_error | out_of_range | foreign_exception.

Definition exception_class (e : Error) : StdException :=
  match e with
  | InvalidRule_numeric _ | InvalidRule_label _ _ => invalid_argument
  | UnknownDistribution _ | FrameCountMismatch _ _ => invalid_argument
  | NoMatchingRule _ | InternalInconsistency => runtime_error
  | OutOfRange => out_of_range
  | TraceLoadError => foreign_exception
  end.

(** [literal + offset], a [const char*] read as a C string: a string
    literal added to a number is the address of the literal moved on by
    that many characters, not a concatenation.  What is read is the rest
    of the literal as long as the address stays inside it (its
    terminating zero included); beyond that the behaviour is undefined. *)
Definition literal_plus (literal : string) (offset : N) : option string :=
  if (offset <=? N.of_nat (String.length literal))%N then
    Some (String.substring (N.to_nat offset)
            (String.length literal - N.to_nat offset) literal)
  else None.

(** Outcome of a member function run from engine state [G]: a value, an
    exception, an exhausted redraw budget (the run is still inside a
    [while] loop), or undefined behaviour (the run reached a step on
    which the C++ standard places no requirement; nothing is known of
    what follows).  The engine is mutated in place, so an exception keeps
    the state reached when it was thrown. *)
Inductive Res (G A : Type) :=
  | Ok (a : A) (g : G)
  | Throw (e : Error) (g : G)
  | OutOfFuel
  | Undefined.
Arguments Ok {G A} a g.
Arguments Throw {G A} e g.
Arguments OutOfFuel {G A}.
Arguments Undefined {G A}.

Definition M (G A : Type) := G -> Res G A.

Definition ret {G A} (a : A) : M G A := fun g => Ok a g.
Definition throw {G A} (e : Error) : M G A := fun g => Throw e g.
Definition undefined {G A} : M G A := fun _ => Undefined.
Definition bind {G A B} (m : M G A) (k : A -> M G B) : M G B :=
  fun g => match m g with
           | Ok a g' => k a g'
           | Throw e g' => Throw e g'
           | OutOfFuel => OutOfFuel
           | Undefined => Undefined
           end.

(** Whether a run returned normally. *)
Definition returns {G A} (r : Res G A) : bool :=
  match r with
  | Ok _ _ => true
  | _ => false
  end.

(** A run with a larger redraw budget agrees with [r] unless [r] ran out
    of budget. *)
Definition settles {G A} (r r' : Res G A) : Prop := r = OutOfFuel \/ r = r'.

Declare Scope pg_scope.
Delimit Scope pg_scope with pg.
Notation "'do' x <- m ; k" := (bind m (fun x => k))
  (at level 10, x name, m at level 100, k at level 200) : pg_scope.
#[local] Open Scope pg_scope.

(** ** The C++ <random> and <algorithm> facilities the generator uses *)

(** [std::mt19937_64] with its 64-bit outputs, [std::normal_distribution]
    as an object with its own state (implementations keep a spare variate
    between calls), and [std::shuffle].  The variates and the permutation
    that a shuffle applies are left to the instance. *)
Class StdRandom := {
  mt19937_64 : Type;
  mt19937_64_seed : N -> mt19937_64;
  mt19937_64_next : mt19937_64 -> N * mt19937_64;
  normal_distribution : Type;
  normal_distribution_ctor : double -> double -> normal_distribution;
  normal_distribution_call :
    normal_distribution -> mt19937_64 -> double * normal_distribution * mt19937_64;
  shuffle : forall {A : Type}, list A -> mt19937_64 -> list A * mt19937_64
}.

(** [std::generate_canonical<double, 53>] on the 64-bit engine output
    [w], as libstdc++ computes it: the output is converted to [double],
    which rounds it to 53 bits, and divided by 2^64, which is exact; a
    quotient that reaches 1 is replaced by the largest [double] below 1. *)
Definition canonical (w : N) : double :=
  let ret := round_double (inject_Z (Z.of_N (w mod 2 ^ 64))) / inject_Z (2 ^ 64) in
  if Qle_bool 1 ret then 1 - (1 # 2) ^ 53 else ret.

(** One engine call, scaled into [0, 1). *)
Definition generate_canonical `{StdRandom} (g : mt19937_64) : double * mt19937_64 :=
  let '(w, g') := mt19937_64_next g in (canonical w, g').

(** The value of [std::uniform_real_distribution<double>(a, b)] for the
    canonical number [u]: [u * (b - a) + a], three operations on doubles,
    each rounded on its own. *)
Definition uniform_double (a b u : double) : double :=
  round_double (round_double (u * round_double (b - a)) + a).

(** [std::uniform_real_distribution<double>(a, b)(g)]. *)
Definition uniform_real_distribution `{StdRandom} (a b : double) (g : mt19937_64)
  : double * mt19937_64 :=
  let '(u, g') := generate_canonical g in (uniform_double a b u, g').

(** ** Data model *)

Module randParams.
Record t := mk { distribution : string; max : double; stdDev : double }.
End randParams.

Module perturbParams.
Record t := mk {
  shift : randParams.t;
  rotation : randParams.t;
  forward : randParams.t;
  sensor_yaw : randParams.t;
  sensor_pitch : randParams.t;
  sensor_roll : randParams.t;
  flip : bool
}.
End perturbParams.

(** Modelled from the spec: [Augmenter::Pose] (declared in augmenter.hpp,
  which is not part of the sources): three scalar fields, three
  per-sensor maps keyed by sensor name, the flip flag and the source
  frame index. *)
Module Pose.
Record t := mk {
  shift : float;
  rotation : float;
  forward : float;
  sensor_yaw : gmap string float;
  sensor_pitch : gmap string float;
  sensor_roll : gmap string float;
  flip : bool;
  srcFrame : N
}.
End Pose.

(** [m.insert(std::pair(k, v))] on a [std::map]: an existing key keeps
    its value. *)
Definition map_insert {V} (k : string) (v : V) (m : gmap string V) : gmap string V :=
  match m !! k with
  | Some _ => m
  | None => <[k := v]> m
  end.

(** Modelled from the spec: [projMetaData::projMetaTrace] (declared in
    projmeta/projmetadata.hpp, which is not part of the sources): the
    label source, an opaque lookup with a frame count and a predicate
    match per frame. *)
Record projMetaTrace := {
  getNumDatapoints : N;
  doLabelsMatch : N -> gmap string string -> bool
}.

(** What the trace constructor finds under a file name; [None] when the
    file cannot be loaded. *)
Definition TraceFiles := string -> option projMetaTrace.

Section Sampler.
Context `{StdRandom}.

(** The rejection loop of [genGaussianRV]: redraw while the value lies
    outside [-max, max]. *)
Fixpoint genGaussianRV_loop (fuel : nat) (max : double)
    (distribution_norm : normal_distribution) (numGauss : double)
    : M mt19937_64 double :=
  fun g =>
    if Qltb numGauss (- max) || Qltb max numGauss then
      match fuel with
      | O => OutOfFuel
      | S fuel' =>
          let '(x, d', g') := normal_distribution_call distribution_norm g in
          genGaussianRV_loop fuel' max d' x g'
      end
    else Ok numGauss g.

(** The [double] that [genGaussianRV] holds when its loop exits. *)
Definition genGaussianRV_double (fuel : nat) (params : randParams.t)
    : M mt19937_64 double :=
  fun g =>
    let distribution_norm := normal_distribution_ctor 0 (randParams.stdDev params) in
    let '(numGauss, d', g') := normal_distribution_call distribution_norm g in
    genGaussianRV_loop fuel (randParams.max params) d' numGauss g'.

Definition genGaussianRV (fuel : nat) (params : randParams.t) : M mt19937_64 float :=
  do numGauss <- genGaussianRV_double fuel params;
  ret (double_to_float numGauss).

(** The [double] that [genUniformRV] draws. *)
Definition genUniformRV_double (params : randParams.t) : M mt19937_64 double :=
  fun g =>
    let '(numUnif, g') :=
      uniform_real_distribution (- randParams.max params) (randParams.max params) g in
    Ok numUnif g'.

Definition genUniformRV (params : randParams.t) : M mt19937_64 float :=
  do numUnif <- genUniformRV_double params;
  ret (double_to_float numUnif).

Definition getRandom (fuel : nat) (rParams : randParams.t) : M mt19937_64 float :=
  let d := randParams.distribution rParams in
  if String.eqb d "gaussian" || String.eqb d "normal" then
    genGaussianRV fuel rParams
  else if String.eqb d "uniform" then
    genUniformRV rParams
  else
    throw (UnknownDistribution d).

End Sampler.

(** ** The generator *)

(** Modelled from the spec: the label-string helpers of [projMetaData]
    (declared in projmeta/projmetadata.hpp, which is not part of the
    sources) that the constructor calls. *)
Class ProjMetaData := {
  stringMapFromSplitString : string -> gmap string string;
  isFieldNumeric : string -> bool;
  isLabelValid : string -> string -> bool
}.

Abbreviation Rule := (gmap string string * perturbParams.t)%type.

(** The object: the rule table, the sensor names and the engine (of
    type [G]). *)
Record PoseGenerator (G : Type) := {
  m_perturbRules : list Rule;
  m_sensorNames : list string;
  m_generator : G
}.
Arguments Build_PoseGenerator {G} _ _ _.
Arguments m_perturbRules {G} _.
Arguments m_sensorNames {G} _.
Arguments m_generator {G} _.

Section Generator.
Context `{StdRandom}.

(** The validation loop of the constructor over the conditions of one
    rule, which throws at the first condition that fails.  (The loop
    visits the [std::map] in key order; the order only decides which
    failing condition is reported.) *)
Fixpoint check_conditions `{ProjMetaData} (labelConditions : list (string * string))
    : option Error :=
  match labelConditions with
  | [] => None
  | condition :: rest =>
      if isFieldNumeric condition.1 then Some (InvalidRule_numeric condition.1)
      else if negb (isLabelValid condition.1 condition.2)
      then Some (InvalidRule_label condition.1 condition.2)
      else check_conditions rest
  end.

(** The loop of the constructor over [configRules], pushing onto
    [m_perturbRules]. *)
Fixpoint build_rules `{ProjMetaData} (configRules : list (string * perturbParams.t))
    (perturbRules : list Rule) : Error + list Rule :=
  match configRules with
  | [] => inr perturbRules
  | rule :: rest =>
      let labelConditions := stringMapFromSplitString rule.1 in
      match check_conditions (map_to_list labelConditions) with
      | Some e => inl e
      | None => build_rules rest (perturbRules ++ [(labelConditions, rule.2)])
      end
  end.

Definition PoseGenerator_new `{ProjMetaData}
    (configRules : list (string * perturbParams.t))
    (sensorNames : list string) (seed : N) : Error + PoseGenerator mt19937_64 :=
  match build_rules configRules [] with
  | inl e => inl e
  | inr rules =>
      inr {| m_perturbRules := rules;
             m_sensorNames := sensorNames;
             m_generator := mt19937_64_seed (to_uint32 seed) |}
  end.

(** [aPose.sensor_yaw.insert(std::pair(sensorName, amount))] and its two
    siblings. *)
Definition insert_sensor_yaw (sensorName : string) (amount : float) (aPose : Pose.t)
    : Pose.t :=
  {| Pose.shift := Pose.shift aPose;
     Pose.rotation := Pose.rotation aPose;
     Pose.forward := Pose.forward aPose;
     Pose.sensor_yaw := map_insert sensorName amount (Pose.sensor_yaw aPose);
     Pose.sensor_pitch := Pose.sensor_pitch aPose;
     Pose.sensor_roll := Pose.sensor_roll aPose;
     Pose.flip := Pose.flip aPose;
     Pose.srcFrame := Pose.srcFrame aPose |}.

Definition insert_sensor_pitch (sensorName : string) (amount : float) (aPose : Pose.t)
    : Pose.t :=
  {| Pose.shift := Pose.shift aPose;
     Pose.rotation := Pose.rotation aPose;
     Pose.forward := Pose.forward aPose;
     Pose.sensor_yaw := Pose.sensor_yaw aPose;
     Pose.sensor_pitch := map_insert sensorName amount (Pose.sensor_pitch aPose);
     Pose.sensor_roll := Pose.sensor_roll aPose;
     Pose.flip := Pose.flip aPose;
     Pose.srcFrame := Pose.srcFrame aPose |}.

Definition insert_sensor_roll (sensorName : string) (amount : float) (aPose : Pose.t)
    : Pose.t :=
  {| Pose.shift := Pose.shift aPose;
     Pose.rotation := Pose.rotation aPose;
     Pose.forward := Pose.forward aPose;
     Pose.sensor_yaw := Pose.sensor_yaw aPose;
     Pose.sensor_pitch := Pose.sensor_pitch aPose;
     Pose.sensor_roll := map_insert sensorName amount (Pose.sensor_roll aPose);
     Pose.flip := Pose.flip aPose;
     Pose.srcFrame := Pose.srcFrame aPose |}.

(** The loop of [generateOnePose] over the sensor names: a draw and a
    map insert for yaw, for pitch and for roll, per name. *)
Fixpoint sensor_loop (fuel : nat) (params : perturbParams.t)
    (sensorNames : list string) (aPose : Pose.t) : M mt19937_64 Pose.t :=
  match sensorNames with
  | [] => ret aPose
  | sensorName :: rest =>
      do amountSensor_yaw <- getRandom fuel (perturbParams.sensor_yaw params);
      let aPose := insert_sensor_yaw sensorName amountSensor_yaw aPose in
      do amountSensor_pitch <- getRandom fuel (perturbParams.sensor_pitch params);
      let aPose := insert_sensor_pitch sensorName amountSensor_pitch aPose in
      do amountSensor_roll <- getRandom fuel (perturbParams.sensor_roll params);
      let aPose := insert_sensor_roll sensorName amountSensor_roll aPose in
      sensor_loop fuel params rest aPose
  end.

Definition generateOnePose (sensorNames : list string) (fuel : nat)
    (params : perturbParams.t) : M mt19937_64 Pose.t :=
  do shift <- getRandom fuel (perturbParams.shift params);
  do rotation <- getRandom fuel (perturbParams.rotation params);
  do forward <- getRandom fuel (perturbParams.forward params);
  do aPose <- sensor_loop fuel params sensorNames
    {| Pose.shift := shift; Pose.rotation := rotation; Pose.forward := forward;
       Pose.sensor_yaw := ∅; Pose.sensor_pitch := ∅; Pose.sensor_roll := ∅;
       Pose.flip := false; Pose.srcFrame := 0%N |};
  ret {| Pose.shift := Pose.shift aPose;
         Pose.rotation := Pose.rotation aPose;
         Pose.forward := Pose.forward aPose;
         Pose.sensor_yaw := Pose.sensor_yaw aPose;
         Pose.sensor_pitch := Pose.sensor_pitch aPose;
         Pose.sensor_roll := Pose.sensor_roll aPose;
         Pose.flip := false;
         Pose.srcFrame := Pose.srcFrame aPose |}.

Definition flipPose (pose : Pose.t) : Pose.t :=
  {| Pose.shift := Pose.shift pose * -1;
     Pose.rotation := Pose.rotation pose * -1;
     Pose.forward := Pose.forward pose;
     Pose.sensor_yaw := Pose.sensor_yaw pose;
     Pose.sensor_pitch := Pose.sensor_pitch pose;
     Pose.sensor_roll := Pose.sensor_roll pose;
     Pose.flip := true;
     Pose.srcFrame := Pose.srcFrame pose |}.

Definition set_srcFrame (index : N) (pose : Pose.t) : Pose.t :=
  {| Pose.shift := Pose.shift pose;
     Pose.rotation := Pose.rotation pose;
     Pose.forward := Pose.forward pose;
     Pose.sensor_yaw := Pose.sensor_yaw pose;
     Pose.sensor_pitch := Pose.sensor_pitch pose;
     Pose.sensor_roll := Pose.sensor_roll pose;
     Pose.flip := Pose.flip pose;
     Pose.srcFrame := index |}.

(** The [for] loop of [generatePoses4oneFrame]: [n] iterations are left,
    [i] is the loop counter. *)
Fixpoint poses_loop (sensorNames : list string) (fuel : nat)
    (params : perturbParams.t) (index : N) (n : nat) (i : N)
    (vecPoses : list Pose.t) : M mt19937_64 (list Pose.t) :=
  match n with
  | O => ret vecPoses
  | S n' =>
      do onePose <- generateOnePose sensorNames fuel params;
      let onePose := set_srcFrame index onePose in
      if perturbParams.flip params && negb (i mod 2 =? 0)%N then
        poses_loop sensorNames fuel params index n' (i + 1)%N
          (vecPoses ++ [flipPose onePose])
      else
        poses_loop sensorNames fuel params index n' (i + 1)%N (vecPoses ++ [onePose])
  end.

(** [std::find_if] over the rule table with the predicate of
    [generatePoses4oneFrame]. *)
Definition first_rule (rules : list Rule) (index : N) (trace : projMetaTrace)
    : option Rule :=
  List.find (fun rule => doLabelsMatch trace index rule.1) rules.

(** [throw std::runtime_error("no perturbation rule found for frame " +
    index)]: the argument of the constructor is the literal's address
    moved on by [index] characters.  While that address stays inside the
    literal the exception is thrown (with a shortened message); for a
    larger index the constructor reads outside the literal, which is
    undefined behaviour. *)
Definition throw_no_rule_found {G A} (index : N) : M G A :=
  match literal_plus "no perturbation rule found for frame " index with
  | Some _ => throw (NoMatchingRule index)
  | None => undefined
  end.

Definition generatePoses4oneFrame (rules : list Rule) (sensorNames : list string)
    (fuel : nat) (useCount index : N) (trace : projMetaTrace)
    : M mt19937_64 (list Pose.t) :=
  if (useCount =? 0)%N then ret []
  else
    do vecPoses <-
      match first_rule rules index trace with
      | Some rule => poses_loop sensorNames fuel rule.2 index (N.to_nat useCount) 0%N []
      | None => ret []
      end;
    if (N.of_nat (length vecPoses) =? 0)%N then throw_no_rule_found index
    else ret vecPoses.

(** The [for] loop of [generatePoses4vecFrames]: [n] frames are left,
    [i] is the loop counter. *)
Fixpoint frames_loop (rules : list Rule) (sensorNames : list string) (fuel : nat)
    (vecUseCounts : list N) (trace : projMetaTrace) (n : nat) (i : N)
    (vecVecPoses : list (list Pose.t)) : M mt19937_64 (list (list Pose.t)) :=
  match n with
  | O => ret vecVecPoses
  | S n' =>
      match vecUseCounts !! N.to_nat i with
      | None => throw OutOfRange
      | Some useCount =>
          do Poses <- generatePoses4oneFrame rules sensorNames fuel useCount i trace;
          frames_loop rules sensorNames fuel vecUseCounts trace n' (i + 1)%N
            (vecVecPoses ++ [Poses])
      end
  end.

Definition generatePoses4vecFrames (files : TraceFiles) (rules : list Rule)
    (sensorNames : list string) (fuel : nat)
    (vecUseCounts : list N) (labelsFileName : string)
    : M mt19937_64 (list (list Pose.t)) :=
  let numFrames := to_uint32 (N.of_nat (length vecUseCounts)) in
  match files labelsFileName with
  | None => throw TraceLoadError
  | Some trace =>
      if negb (getNumDatapoints trace =? numFrames)%N then
        throw (FrameCountMismatch (getNumDatapoints trace) numFrames)
      else
        do vecVecPoses <-
          frames_loop rules sensorNames fuel vecUseCounts trace (N.to_nat numFrames) 0%N [];
        if negb (N.of_nat (length vecVecPoses) =? numFrames)%N then
          throw InternalInconsistency
        else ret vecVecPoses
  end.

(** The reshuffle loop of [generateShuffledPoses]; [at(0)] throws on an
    empty vector. *)
Fixpoint reshuffle_loop (fuel : nat) (flattenedPoses : list Pose.t)
    : M mt19937_64 (list Pose.t) :=
  fun g =>
    match flattenedPoses with
    | [] => Throw OutOfRange g
    | first :: _ =>
        if Pose.flip first then
          match fuel with
          | O => OutOfFuel
          | S fuel' =>
              let '(l, g') := shuffle flattenedPoses g in reshuffle_loop fuel' l g'
          end
        else Ok flattenedPoses g
    end.

Definition generateShuffledPoses (files : TraceFiles) (rules : list Rule)
    (sensorNames : list string) (fuel : nat)
    (vecUseCounts : list N) (labelsFileName : string)
    : M mt19937_64 (list Pose.t) :=
  do unshuffledPoses <-
    generatePoses4vecFrames files rules sensorNames fuel vecUseCounts labelsFileName;
  let flattenedPoses := concat unshuffledPoses in
  if (N.of_nat (length flattenedPoses) =? 0)%N then ret []
  else
    fun g =>
      let '(l, g') := shuffle flattenedPoses g in
      reshuffle_loop fuel l g'.

End Generator.

(** ** The draws behind a pose

    Functions that name what the loops above compute: the poses as they
    are synthesized, the flip step, and the draws of one pose in order.
    They are related to the loops in the second part. *)

Section Draws.
Context `{StdRandom}.

(** The poses as [generateOnePose] synthesizes them in the loop of
    [generatePoses4oneFrame], with [srcFrame] set and before the flip
    step. *)
Fixpoint synthesize (sensorNames : list string) (fuel : nat)
    (params : perturbParams.t) (index : N) (n : nat) : M mt19937_64 (list Pose.t) :=
  match n with
  | O => ret []
  | S n' =>
      do onePose <- generateOnePose sensorNames fuel params;
      do rest <- synthesize sensorNames fuel params index n';
      ret (set_srcFrame index onePose :: rest)
  end.

(** The flip step at loop counter [i]. *)
Definition emit (flip : bool) (i : N) (pose : Pose.t) : Pose.t :=
  if flip && negb (i mod 2 =? 0)%N then flipPose pose else pose.

Fixpoint emit_all (flip : bool) (i : N) (poses : list Pose.t) : list Pose.t :=
  match poses with
  | [] => []
  | pose :: rest => emit flip i pose :: emit_all flip (i + 1)%N rest
  end.

(** The three scalar draws of [generateOnePose], which come first. *)
Definition scalar_draws (fuel : nat) (params : perturbParams.t)
    : M mt19937_64 (float * float * float) :=
  do shift <- getRandom fuel (perturbParams.shift params);
  do rotation <- getRandom fuel (perturbParams.rotation params);
  do forward <- getRandom fuel (perturbParams.forward params);
  ret (shift, rotation, forward).

(** The three draws of one iteration of the sensor loop of
    [generateOnePose], per sensor name in order. *)
Fixpoint sensor_draws (fuel : nat) (params : perturbParams.t) (sensorNames : list string)
    : M mt19937_64 (list (string * (float * float * float))) :=
  match sensorNames with
  | [] => ret []
  | sensorName :: rest =>
      do amountSensor_yaw <- getRandom fuel (perturbParams.sensor_yaw params);
      do amountSensor_pitch <- getRandom fuel (perturbParams.sensor_pitch params);
      do amountSensor_roll <- getRandom fuel (perturbParams.sensor_roll params);
      do draws <- sensor_draws fuel params rest;
      ret ((sensorName, (amountSensor_yaw, amountSensor_pitch, amountSensor_roll)) :: draws)
  end.

(** The map inserts of the sensor loop of [generateOnePose], applied to
    the draws in order. *)
Fixpoint record_draws (draws : list (string * (float * float * float)))
    (aPose : Pose.t) : Pose.t :=
  match draws with
  | [] => aPose
  | (sensorName, (yaw, pitch, roll)) :: rest =>
      record_draws rest
        (insert_sensor_roll sensorName roll
           (insert_sensor_pitch sensorName pitch
              (insert_sensor_yaw sensorName yaw aPose)))
  end.

End Draws.

(** The value a sensor map holds for [name]: the draw recorded at the
    first position that carries the name. *)
Fixpoint first_draw {V} (name : string) (draws : list (string * V)) : option V :=
  match draws with
  | [] => None
  | (n, v) :: rest => if String.eqb n name then Some v else first_draw name rest
  end.

(** The draw recorded at the last position that carries the name. *)
Fixpoint last_draw {V} (name : string) (draws : list (string * V)) : option V :=
  match draws with
  | [] => None
  | (n, v) :: rest =>
      match last_draw name rest with
      | Some v' => Some v'
      | None => if String.eqb n name then Some v else None
      end
  end.

Definition keep (old new : option float) : option float :=
  match old with
  | Some x => Some x
  | None => new
  end.

(** ** Hard limits *)

(** A hard limit that is not negative and is a binary32 number. *)
Definition limit_representable (rParams : randParams.t) : Prop :=
  0 <= randParams.max rParams /\ binary32_representable (randParams.max rParams).

Definition limits_representable (params : perturbParams.t) : Prop :=
  limit_representable (perturbParams.shift params) /\
  limit_representable (perturbParams.rotation params) /\
  limit_representable (perturbParams.forward params) /\
  limit_representable (perturbParams.sensor_yaw params) /\
  limit_representable (perturbParams.sensor_pitch params) /\
  limit_representable (perturbParams.sensor_roll params).

(** Every numeric field of the pose is within the hard limit that the
    parameters give for the field. *)
Definition pose_within (params : perturbParams.t) (pose : Pose.t) : Prop :=
  Qabs (Pose.shift pose) <= randParams.max (perturbParams.shift params) /\
  Qabs (Pose.rotation pose) <= randParams.max (perturbParams.rotation params) /\
  Qabs (Pose.forward pose) <= randParams.max (perturbParams.forward params) /\
  (forall name v, Pose.sensor_yaw pose !! name = Some v ->
     Qabs v <= randParams.max (perturbParams.sensor_yaw params)) /\
  (forall name v, Pose.sensor_pitch pose !! name = Some v ->
     Qabs v <= randParams.max (perturbParams.sensor_pitch params)) /\
  (forall name v, Pose.sensor_roll pose !! name = Some v ->
     Qabs v <= randParams.max (perturbParams.sensor_roll params)).

(** ** Kinds of errors *)

Definition is_UnknownDistribution (e : Error) : Prop :=
  match e with UnknownDistribution _ => True | _ => False end.

Definition is_FrameCountMismatch (e : Error) : Prop :=
  match e with FrameCountMismatch _ _ => True | _ => False end.

(** ** Call sequences on a generator object *)

(** The public member functions with their arguments. *)
Inductive Call :=
  | call_generateShuffledPoses (vecUseCounts : list N) (labelsFileName : string)
  | call_generatePoses4vecFrames (vecUseCounts : list N) (labelsFileName : string)
  | call_generatePoses4oneFrame (useCount index : N) (trace : projMetaTrace)
  | call_generateOnePose (params : perturbParams.t).

(** What the caller observes of one call. *)
Inductive Output :=
  | out_poses (poses : list Pose.t)
  | out_frames (frames : list (list Pose.t))
  | out_pose (pose : Pose.t)
  | out_throw (e : Error)
  | out_hang
  | out_undefined.

Section Calls.
Context `{StdRandom}.

Definition with_generator (self : PoseGenerator mt19937_64) (g : mt19937_64)
    : PoseGenerator mt19937_64 :=
  {| m_perturbRules := m_perturbRules self;
     m_sensorNames := m_sensorNames self;
     m_generator := g |}.

(** Runs a member function on the object: the output, and the object
    afterwards unless the call never returns or its behaviour is
    undefined. *)
Definition observe {A} (self : PoseGenerator mt19937_64) (out : A -> Output)
    (m : M mt19937_64 A) : Output * option (PoseGenerator mt19937_64) :=
  match m (m_generator self) with
  | Ok a g => (out a, Some (with_generator self g))
  | Throw e g => (out_throw e, Some (with_generator self g))
  | OutOfFuel => (out_hang, None)
  | Undefined => (out_undefined, None)
  end.

Definition run_call (files : TraceFiles) (fuel : nat) (self : PoseGenerator mt19937_64)
    (c : Call) : Output * option (PoseGenerator mt19937_64) :=
  let rules := m_perturbRules self in
  let names := m_sensorNames self in
  match c with
  | call_generateShuffledPoses vecUseCounts labelsFileName =>
      observe self out_poses
        (generateShuffledPoses files rules names fuel vecUseCounts labelsFileName)
  | call_generatePoses4vecFrames vecUseCounts labelsFileName =>
      observe self out_frames
        (generatePoses4vecFrames files rules names fuel vecUseCounts labelsFileName)
  | call_generatePoses4oneFrame useCount index trace =>
      observe self out_poses (generatePoses4oneFrame rules names fuel useCount index trace)
  | call_generateOnePose params =>
      observe self out_pose (generateOnePose names fuel params)
  end.

(** A sequence of calls on one object; it ends at a call that never
    returns or whose behaviour is undefined. *)
Fixpoint run_calls (files : TraceFiles) (fuel : nat) (self : PoseGenerator mt19937_64)
    (calls : list Call) : list Output :=
  match calls with
  | [] => []
  | c :: rest =>
      match run_call files fuel self c with
      | (out, Some self') => out :: run_calls files fuel self' rest
      | (out, None) => [out]
      end
  end.

(** The member function that a call names, on the rule table and the
    sensor names of an object, as a function of the engine alone. *)
Definition member (files : TraceFiles) (fuel : nat) (rules : list Rule)
    (sensorNames : list string) (c : Call) : M mt19937_64 Output :=
  match c with
  | call_generateShuffledPoses vecUseCounts labelsFileName =>
      do poses <-
        generateShuffledPoses files rules sensorNames fuel vecUseCounts labelsFileName;
      ret (out_poses poses)
  | call_generatePoses4vecFrames vecUseCounts labelsFileName =>
      do frames <-
        generatePoses4vecFrames files rules sensorNames fuel vecUseCounts labelsFileName;
      ret (out_frames frames)
  | call_generatePoses4oneFrame useCount index trace =>
      do poses <- generatePoses4oneFrame rules sensorNames fuel useCount index trace;
      ret (out_poses poses)
  | call_generateOnePose params =>
      do pose <- generateOnePose sensorNames fuel params;
      ret (out_pose pose)
  end.

(** The outputs of a sequence of calls with the engine handed from call
    to call: [g] is the engine before the first call, and every later
    call starts from the engine that the call before it left, whether
    that call returned or threw. *)
Fixpoint outputs_from (files : TraceFiles) (fuel : nat) (rules : list Rule)
    (sensorNames : list string) (g : mt19937_64) (calls : list Call) : list Output :=
  match calls with
  | [] => []
  | c :: rest =>
      match member files fuel rules sensorNames c g with
      | Ok out g' => out :: outputs_from files fuel rules sensorNames g' rest
      | Throw e g' => out_throw e :: outputs_from files fuel rules sensorNames g' rest
      | OutOfFuel => [out_hang]
      | Undefined => [out_undefined]
      end
  end.

End Calls.

(** Two label sources that give the same answers. *)
Definition trace_equiv (t1 t2 : projMetaTrace) : Prop :=
  getNumDatapoints t1 = getNumDatapoints t2 /\
  forall index predicates, doLabelsMatch t1 index predicates = doLabelsMatch t2 index predicates.

Definition files_equiv (files1 files2 : TraceFiles) : Prop :=
  forall name,
    match files1 name, files2 name with
    | Some t1, Some t2 => trace_equiv t1 t2
    | None, None => True
    | _, _ => False
    end.

(** The same member function with the same arguments, up to label
    sources that give the same answers. *)
Definition call_equiv (c1 c2 : Call) : Prop :=
  match c1, c2 with
  | call_generatePoses4oneFrame useCount1 index1 t1,
    call_generatePoses4oneFrame useCount2 index2 t2 =>
      useCount1 = useCount2 /\ index1 = index2 /\ trace_equiv t1 t2
  | _, _ => c1 = c2
  end.

(** ** Stand-ins for the normal variate and the shuffle

    The instances below draw the normal variate as an affine image of
    one engine output, scaled by the standard deviation, and shuffle by
    rotating the vector by one engine output (reduced modulo the length).
    They stand in for [std::normal_distribution] and [std::shuffle],
    whose arithmetic is not modelled. *)
Module StandIn.

Definition variate (w : N) : Q :=
  (inject_Z (Z.of_N w) - inject_Z (2 ^ 63)) / inject_Z (2 ^ 60).

Definition normal_call {G} (next : G -> N * G) (d : Q * Q) (g : G) : Q * (Q * Q) * G :=
  let '(w, g') := next g in (d.1 + d.2 * variate w, d, g').

Definition rotate_shuffle {G} (next : G -> N * G) {A} (l : list A) (g : G) : list A * G :=
  let '(w, g') := next g in (rotate (N.to_nat (w mod N.of_nat (length l))) l, g').

End StandIn.

(** ** A scripted engine

    An engine for concrete runs that reads its 64-bit outputs from a
    tape (zeros once it is exhausted). *)
Module Scripted.

Definition next (g : list N) : N * list N :=
  match g with
  | [] => (0%N, [])
  | w :: t => (w, t)
  end.

Definition random (book : N -> list N) : StdRandom := {|
  mt19937_64 := list N;
  mt19937_64_seed := book;
  mt19937_64_next := next;
  normal_distribution := (Q * Q)%type;
  normal_distribution_ctor := fun mean stddev => (mean, stddev);
  normal_distribution_call := StandIn.normal_call next;
  shuffle := fun A => StandIn.rotate_shuffle next
|}.

End Scripted.

(** ** The engine itself

    [std::mt19937_64] as the C++ standard defines it: 312 words of state,
    seeded by the linear recurrence with multiplier 6364136223846793005,
    regenerated 312 words at a time, and tempered on output. *)
Module MT19937_64.
#[local] Open Scope N_scope.

Definition word (x : N) : N := x mod 2 ^ 64.

Definition matrix_a : N := 0xB5026F5AA96619E9.
Definition upper_mask : N := 0xFFFFFFFF80000000.
Definition lower_mask : N := 0x7FFFFFFF.

(** The state: the 312 words and the position of the next one. *)
Record state := { mt : list N; mti : nat }.

(** [mt[i] = 6364136223846793005 * (mt[i-1] ^ (mt[i-1] >> 62)) + i]. *)
Fixpoint seed_loop (n : nat) (i : N) (prev : N) : list N :=
  match n with
  | O => []
  | S n' =>
      let x := word (6364136223846793005 * N.lxor prev (N.shiftr prev 62) + i) in
      x :: seed_loop n' (i + 1) x
  end.

Definition seed (value : N) : state :=
  {| mt := word value :: seed_loop 311 1 (word value); mti := 312 |}.

Definition mix (a b : N) : N :=
  let y := N.lor (N.land a upper_mask) (N.land b lower_mask) in
  N.lxor (N.shiftr y 1) (if N.odd y then matrix_a else 0).

(** [x[k] = far[k] ^ mix(x[k], x[k+1])], for the words [x], their
    successors [succ] and the words [far] at distance 156. *)
Fixpoint twist_with (x succ far : list N) : list N :=
  match x, succ, far with
  | a :: x', b :: succ', c :: far' => N.lxor c (mix a b) :: twist_with x' succ' far'
  | _, _, _ => []
  end.

Definition twist (x : list N) : list N :=
  let low := twist_with (firstn 156 x) (skipn 1 x) (skipn 156 x) in
  let mid := twist_with (firstn 155 (skipn 156 x)) (skipn 157 x) low in
  let last := twist_with (skipn 311 x) low (skipn 155 low) in
  low ++ mid ++ last.

Definition temper (y : N) : N :=
  let y := N.lxor y (N.land (N.shiftr y 29) 0x5555555555555555) in
  let y := N.lxor y (N.land (word (N.shiftl y 17)) 0x71D67FFFEDA60000) in
  let y := N.lxor y (N.land (word (N.shiftl y 37)) 0xFFF7EEE000000000) in
  N.lxor y (N.shiftr y 43).

Definition next (g : state) : N * state :=
  let g := if Nat.leb 312 (mti g) then {| mt := twist (mt g); mti := 0 |} else g in
  (temper (nth (mti g) (mt g) 0), {| mt := mt g; mti := S (mti g) |}).

Fixpoint discard (n : nat) (g : state) : state :=
  match n with
  | O => g
  | S n' => discard n' (snd (next g))
  end.

Definition random : StdRandom := {|
  mt19937_64 := state;
  mt19937_64_seed := seed;
  mt19937_64_next := next;
  normal_distribution := (Q * Q)%type;
  normal_distribution_ctor := fun mean stddev => (mean, stddev);
  normal_distribution_call := StandIn.normal_call next;
  shuffle := fun A => StandIn.rotate_shuffle next
|}.

End MT19937_64.

(** ** The fixture of [test/TestPoseGenerator.cpp] over the scripted engine *)

Module Fixture.

(** The doubles that the literals [0.8] and [0.34] denote: the nearest
    to 4/5 and to 17/50. *)
Definition literal_0_8 : double := 3602879701896397 # 4503599627370496.
Definition literal_0_34 : double := 6124895493223875 # 18014398509481984.

Definition perturbParams1 : perturbParams.t := {|
  perturbParams.shift := randParams.mk "gaussian" (1 # 2) literal_0_34;
  perturbParams.rotation := randParams.mk "gaussian" 4 1;
  perturbParams.forward := randParams.mk "gaussian" literal_0_8 (1 # 2);
  perturbParams.sensor_yaw := randParams.mk "gaussian" 5 3;
  perturbParams.sensor_pitch := randParams.mk "gaussian" 6 3;
  perturbParams.sensor_roll := randParams.mk "gaussian" 0 0;
  perturbParams.flip := true
|}.

Definition perturbParams2 : perturbParams.t := {|
  perturbParams.shift := randParams.mk "gaussian" (1 # 2) literal_0_34;
  perturbParams.rotation := randParams.mk "uniform" 8 1;
  perturbParams.forward := randParams.mk "uniform" literal_0_8 (1 # 2);
  perturbParams.sensor_yaw := randParams.mk "uniform" 5 3;
  perturbParams.sensor_pitch := randParams.mk "gaussian" 6 3;
  perturbParams.sensor_roll := randParams.mk "gaussian" 2 (3 # 2);
  perturbParams.flip := false
|}.

Definition string1 : string := "road_type=highway user_label=stable".
Definition string2 : string := "road_type=local user_label=stable".

Definition configRules : list (string * perturbParams.t) :=
  [(string1, perturbParams1); (string2, perturbParams2)].

Definition testSensorNames : list string := ["center"; "pilot"; "pilotPinhole"].

(** A one-sensor rig, for short runs. *)
Definition oneSensor : list string := ["c"].

(** A label parser that knows the two rule strings of the fixture. *)
Definition parser : ProjMetaData := {|
  stringMapFromSplitString := fun s =>
    if String.eqb s string1 then {[ "road_type" := "highway"; "user_label" := "stable" ]}
    else if String.eqb s string2 then {[ "road_type" := "local"; "user_label" := "stable" ]}
    else ∅;
  isFieldNumeric := fun field => String.eqb field "speed";
  isLabelValid := fun field value =>
    String.eqb field "road_type" || String.eqb field "user_label"
|}.

Definition highway : gmap string string :=
  {[ "road_type" := "highway"; "user_label" := "stable" ]}.
Definition local : gmap string string :=
  {[ "road_type" := "local"; "user_label" := "stable" ]}.

(** A trace of three frames: two highway frames, then a local one. *)
Definition trace : projMetaTrace := {|
  getNumDatapoints := 3;
  doLabelsMatch := fun index predicates =>
    match predicates !! "road_type" with
    | Some road =>
        if (index <? 2)%N then String.eqb road "highway" else String.eqb road "local"
    | None => true
    end
|}.

Definition files : TraceFiles :=
  fun name => if String.eqb name "labels.csv" then Some trace else None.

(** A rig that lists one sensor twice, and parameters that draw every
    field uniformly from [-1, 1]. *)
Definition twiceSensor : list string := ["c"; "c"].

Definition uniformParams : perturbParams.t :=
  let u := randParams.mk "uniform" 1 1 in
  perturbParams.mk u u u u u u false.

(** Three words for the scalar fields, three for the first occurrence
    of the sensor (each drawing -1/2) and three for the second (each
    drawing 1/2). *)
Definition twiceTape : list N :=
  [9223372036854775808; 9223372036854775808; 9223372036854775808;
   4611686018427387904; 4611686018427387904; 4611686018427387904;
   13835058055282163712; 13835058055282163712; 13835058055282163712]%N.

(** The same trace, read through a different implementation. *)
Definition trace' : projMetaTrace := {|
  getNumDatapoints := 3;
  doLabelsMatch := fun index predicates => negb (negb (doLabelsMatch trace index predicates))
|}.

Definition files' : TraceFiles :=
  fun name => if String.eqb name "labels.csv" then Some trace' else None.

(** The tape of the scripted engine for seed 1. *)
Definition tape : list N :=
  [9223372036854775808; 10376293541461622784; 8070450532247928832;
   9799832789158199296; 8646911284551352320; 9223372036854775808;
   4611686018427387904; 13835058055282163712; 2305843009213693952;
   9511602413006487552; 8935141660703064064; 9223372036854775809]%N.

(** Seed 1 reads the tape over and over; seed 2 reads fifteen words of
    it and then two words that each make the scripted shuffle rotate by
    one place. *)
Definition book (seed : N) : list N :=
  if (seed =? 1)%N then concat (replicate 40 tape)
  else if (seed =? 2)%N then take 15 (tape ++ tape) ++ [1; 1]%N
  else [].

Definition engine : StdRandom := Scripted.random book.

End Fixture.

(** ** Names for what the loops consume and produce

    Functions that the properties of the last part are stated with. *)

(** The distribution names that [getRandom] knows. *)
Definition known_distribution (name : string) : bool :=
  String.eqb name "gaussian" || String.eqb name "normal" || String.eqb name "uniform".

Section Sequences.
Context `{StdRandom}.

(** [g.discard(n)]: the engine after [n] outputs. *)
Fixpoint mt19937_64_discard (n : nat) (g : mt19937_64) : mt19937_64 :=
  match n with
  | O => g
  | S n' => mt19937_64_discard n' (mt19937_64_next g).2
  end.

(** The [k]-th call, counted from zero, of a distribution object on the
    engine: the variate, and the object and the engine after the call. *)
Fixpoint variate_at (k : nat) (distribution_norm : normal_distribution) (g : mt19937_64)
    : double * normal_distribution * mt19937_64 :=
  let '(x, d', g') := normal_distribution_call distribution_norm g in
  match k with
  | O => (x, d', g')
  | S k' => variate_at k' d' g'
  end.

End Sequences.

(** The test of the rejection loop: the value lies outside [-max, max]. *)
Definition outside_limit (max x : double) : bool := Qltb x (- max) || Qltb max x.

(** The draws depend on the parameters only through the six parameter
    sets, not through the flip setting. *)
Definition same_draw_params (p p' : perturbParams.t) : Prop :=
  perturbParams.shift p = perturbParams.shift p' /\
  perturbParams.rotation p = perturbParams.rotation p' /\
  perturbParams.forward p = perturbParams.forward p' /\
  perturbParams.sensor_yaw p = perturbParams.sensor_yaw p' /\
  perturbParams.sensor_pitch p = perturbParams.sensor_pitch p' /\
  perturbParams.sensor_roll p = perturbParams.sensor_roll p'.


Section UniformDraws.
Context `{StdRandom}.

(** The [k]-th output of the engine, counted from zero. *)
Definition mt19937_64_output (k : nat) (g : mt19937_64) : N :=
  (mt19937_64_next (mt19937_64_discard k g)).1.

End UniformDraws.

(** The [float] that [genUniformRV] returns when the engine output is
    [w]. *)
Definition uniform_value (params : randParams.t) (w : N) : float :=
  double_to_float
    (uniform_double (- randParams.max params) (randParams.max params) (canonical w)).

(** Every numeric field of the pose whose own hard limit is a binary32
    number that is not negative is within that limit. *)
Definition pose_within_representable (params : perturbParams.t) (pose : Pose.t) : Prop :=
  (limit_representable (perturbParams.shift params) ->
   Qabs (Pose.shift pose) <= randParams.max (perturbParams.shift params)) /\
  (limit_representable (perturbParams.rotation params) ->
   Qabs (Pose.rotation pose) <= randParams.max (perturbParams.rotation params)) /\
  (limit_representable (perturbParams.forward params) ->
   Qabs (Pose.forward pose) <= randParams.max (perturbParams.forward params)) /\
  (limit_representable (perturbParams.sensor_yaw params) ->
   forall name v, Pose.sensor_yaw pose !! name = Some v ->
     Qabs v <= randParams.max (perturbParams.sensor_yaw params)) /\
  (limit_representable (perturbParams.sensor_pitch params) ->
   forall name v, Pose.sensor_pitch pose !! name = Some v ->
     Qabs v <= randParams.max (perturbParams.sensor_pitch params)) /\
  (limit_representable (perturbParams.sensor_roll params) ->
   forall name v, Pose.sensor_roll pose !! name = Some v ->
     Qabs v <= randParams.max (perturbParams.sensor_roll params)).

(** The [k]-th successive [std::shuffle] of a vector, counted from zero,
    each applied to the result of the one before: the vector and the
    engine after it. *)
Fixpoint shuffle_at `{StdRandom} {A} (k : nat) (l : list A) (g : mt19937_64)
    : list A * mt19937_64 :=
  let '(l', g') := shuffle l g in
  match k with
  | O => (l', g')
  | S k' => shuffle_at k' l' g'
  end.

(** All six parameter sets of the rule draw uniformly. *)
Definition uniform_rule (rule : Rule) : Prop :=
  Forall (fun rParams => randParams.distribution rParams = "uniform")
    [perturbParams.shift rule.2; perturbParams.rotation rule.2;
     perturbParams.forward rule.2; perturbParams.sensor_yaw rule.2;
     perturbParams.sensor_pitch rule.2; perturbParams.sensor_roll rule.2].

(** A parameter set that draws uniformly, with a hard limit inside the
    domain of [std::uniform_real_distribution] and of [float]: a
    [double] that is not negative and at most [FLT_MAX]. *)
Definition uniform_in_range (rParams : randParams.t) : Prop :=
  randParams.distribution rParams = "uniform" /\
  binary64_representable (randParams.max rParams) /\
  0 <= randParams.max rParams /\
  randParams.max rParams <= FLT_MAX.

(** All six parameter sets draw uniformly, with limits in range. *)
Definition uniform_params (params : perturbParams.t) : Prop :=
  Forall uniform_in_range
    [perturbParams.shift params; perturbParams.rotation params;
     perturbParams.forward params; perturbParams.sensor_yaw params;
     perturbParams.sensor_pitch params; perturbParams.sensor_roll params].

(** ** The messages of the exceptions *)

(** The character that delimits a C++ string literal. *)
Definition quotation_mark : string := String (Ascii.ascii_of_nat 34) EmptyString.

(** [std::to_string] of an unsigned number: its decimal digits. *)
Definition to_string (n : N) : string := NilEmpty.string_of_uint (N.to_uint n).

(** What [what()] of a thrown exception returns. *)
Inductive Message :=
  | text (s : string)
  | library_text
  | undefined_text.

(** The message built at each throw site.  The exceptions of
    [vector::at] and of the trace constructor carry a text of their
    library. *)
Definition what (e : Error) : Message :=
  match e with
  | InvalidRule_numeric field =>
      text ("poses cannot be generated based on numeric label:" +:+ quotation_mark
            +:+ field +:+ quotation_mark)
  | InvalidRule_label field value =>
      text ("invalid label conditon: " +:+ quotation_mark +:+ field +:+ quotation_mark
            +:+ ":" +:+ quotation_mark +:+ value +:+ quotation_mark)
  | UnknownDistribution name => text ("Unknown distribution type: " +:+ name)
  | NoMatchingRule index =>
      match literal_plus "no perturbation rule found for frame " index with
      | Some s => text s
      | None => undefined_text
      end
  | FrameCountMismatch traceFrames useFrames =>
      text ("Trace has " +:+ to_string traceFrames +:+ " frames, but use count has "
            +:+ to_string useFrames +:+ " entries.")
  | InternalInconsistency => text "not all frames received poses - something is wrong"
  | TraceLoadError | OutOfRange => library_text
  end.

(** ** Further concrete data for runs *)

Module Cases.

(** A label parser that, beside the rule strings of the fixture, splits
    a condition on a numeric field and a condition whose value is not
    valid for its field. *)
Definition parser : ProjMetaData := {|
  stringMapFromSplitString := fun s =>
    if String.eqb s "speed=60" then {[ "speed" := "60" ]}
    else if String.eqb s "road_type=dirt" then {[ "road_type" := "dirt" ]}
    else @stringMapFromSplitString Fixture.parser s;
  isFieldNumeric := fun field => String.eqb field "speed";
  isLabelValid := fun field value =>
    if String.eqb field "road_type"
    then String.eqb value "highway" || String.eqb value "local"
    else String.eqb field "user_label"
|}.

(** The parameters of the first rule of the fixture, with flip disabled. *)
Definition unflipped1 : perturbParams.t := {|
  perturbParams.shift := perturbParams.shift Fixture.perturbParams1;
  perturbParams.rotation := perturbParams.rotation Fixture.perturbParams1;
  perturbParams.forward := perturbParams.forward Fixture.perturbParams1;
  perturbParams.sensor_yaw := perturbParams.sensor_yaw Fixture.perturbParams1;
  perturbParams.sensor_pitch := perturbParams.sensor_pitch Fixture.perturbParams1;
  perturbParams.sensor_roll := perturbParams.sensor_roll Fixture.perturbParams1;
  perturbParams.flip := false
|}.

(** A rule that matches every frame and draws every field uniformly
    from [-1, 1]. *)
Definition anyFrame : Rule := (∅, Fixture.uniformParams).

(** Parameters that name, for the yaw of the sensors, a distribution
    that the sampler does not know. *)
Definition poissonYaw : perturbParams.t :=
  let u := randParams.mk "uniform" 1 1 in
  perturbParams.mk u u u (randParams.mk "poisson" 1 1) u u false.

(** A rule table with the first rule of the fixture alone: the third
    frame of the fixture's trace matches no rule. *)
Definition highwayOnly : list Rule := [(Fixture.highway, Fixture.perturbParams1)].

(** A rule that no frame of the fixture's trace matches. *)
Definition deadRule : Rule := ({[ "road_type" := "dirt" ]}, Fixture.perturbParams2).

End Cases.

(** ** The test of [test/TestPoseGenerator.cpp]

    The assertions of [TestGeneratePoses4vecFrame_L0] in the order the
    test makes them.  An [ASSERT_] that fails ends the test. *)
Module TestPoseGenerator.

Definition valueInBound (val limit : double) : bool := Qle_bool (Qabs val) limit.

(** [m[key]] on a [std::map<std::string, float>]: the value under the
    key, or the zero that the access inserts when the key is absent. *)
Definition map_index (m : gmap string float) (key : string) : float :=
  default 0 (m !! key).

Inductive Field :=
  | on_shift
  | on_rotation
  | on_forward
  | on_sensor_yaw (sensorName : string)
  | on_sensor_roll (sensorName : string)
  | on_sensor_pitch (sensorName : string).

Inductive Assertion :=
  | frames_size_eq
  | poses_size_eq (i : N)
  | flip_is_set (i j : N)
  | value_in_bound (i j : N) (field : Field).

(** How the test ends: it passes, an assertion fails, an exception leaves
    the test body, a call never returns, an unchecked [operator[]] reads
    past the end of a vector, or a call has undefined behaviour. *)
Inductive Verdict :=
  | passed
  | failed (assertion : Assertion)
  | threw (e : Error)
  | hung
  | out_of_bounds
  | undefined_behaviour.

Definition and_then (v : Verdict) (rest : Verdict) : Verdict :=
  match v with
  | passed => rest
  | _ => v
  end.

(** [ASSERT_TRUE(valueInBound(val, rParams.max))]. *)
Definition assert_in_bound (i j : N) (field : Field) (val : float) (rParams : randParams.t)
    : Verdict :=
  if valueInBound val (randParams.max rParams) then passed
  else failed (value_in_bound i j field).

(** The loop over [testSensorNames]: yaw, roll and pitch, in this order. *)
Fixpoint check_sensors (testSensorNames : list string) (i j : N)
    (expectedParams : perturbParams.t) (pose : Pose.t) : Verdict :=
  match testSensorNames with
  | [] => passed
  | sensorName :: rest =>
      and_then (assert_in_bound i j (on_sensor_yaw sensorName)
                  (map_index (Pose.sensor_yaw pose) sensorName)
                  (perturbParams.sensor_yaw expectedParams))
     (and_then (assert_in_bound i j (on_sensor_roll sensorName)
                  (map_index (Pose.sensor_roll pose) sensorName)
                  (perturbParams.sensor_roll expectedParams))
     (and_then (assert_in_bound i j (on_sensor_pitch sensorName)
                  (map_index (Pose.sensor_pitch pose) sensorName)
                  (perturbParams.sensor_pitch expectedParams))
               (check_sensors rest i j expectedParams pose)))
  end.

(** The body of the loop over [j], on [framePoses[i][j]]. *)
Definition check_pose (i j : N) (pose : Pose.t) : Verdict :=
  let expectedParams :=
    if (i <? 2)%N then Fixture.perturbParams1 else Fixture.perturbParams2 in
  and_then (if (i <? 2)%N && negb (j mod 2 =? 0)%N && negb (Pose.flip pose)
            then failed (flip_is_set i j) else passed)
 (and_then (assert_in_bound i j on_shift (Pose.shift pose)
              (perturbParams.shift expectedParams))
 (and_then (assert_in_bound i j on_rotation (Pose.rotation pose)
              (perturbParams.rotation expectedParams))
 (and_then (assert_in_bound i j on_forward (Pose.forward pose)
              (perturbParams.forward expectedParams))
           (check_sensors Fixture.testSensorNames i j expectedParams pose)))).

(** The loop over [j < vecUseCounts[i]]: [n] iterations are left. *)
Fixpoint check_poses (Poses : list Pose.t) (i : N) (n : nat) (j : N) : Verdict :=
  match n with
  | O => passed
  | S n' =>
      match Poses !! N.to_nat j with
      | None => out_of_bounds
      | Some pose => and_then (check_pose i j pose) (check_poses Poses i n' (j + 1)%N)
      end
  end.

(** The second loop over [i]: [n] iterations are left. *)
Fixpoint check_frames (vecUseCounts : list N) (framePoses : list (list Pose.t))
    (n : nat) (i : N) : Verdict :=
  match n with
  | O => passed
  | S n' =>
      match vecUseCounts !! N.to_nat i, framePoses !! N.to_nat i with
      | Some useCount, Some Poses =>
          and_then (check_poses Poses i (N.to_nat useCount) 0%N)
            (check_frames vecUseCounts framePoses n' (i + 1)%N)
      | _, _ => out_of_bounds
      end
  end.

(** The first loop over [i]:
    [ASSERT_EQ(framePoses[i].size(), vecUseCounts[i])]. *)
Fixpoint check_sizes (vecUseCounts : list N) (framePoses : list (list Pose.t))
    (n : nat) (i : N) : Verdict :=
  match n with
  | O => passed
  | S n' =>
      match vecUseCounts !! N.to_nat i, framePoses !! N.to_nat i with
      | Some useCount, Some Poses =>
          if (N.of_nat (length Poses) =? useCount)%N
          then check_sizes vecUseCounts framePoses n' (i + 1)%N
          else failed (poses_size_eq i)
      | _, _ => out_of_bounds
      end
  end.

(** The assertions of one trial on what the call returned. *)
Definition check_trial (trace : projMetaTrace) (vecUseCounts : list N)
    (framePoses : list (list Pose.t)) : Verdict :=
  if (N.of_nat (length framePoses) =? getNumDatapoints trace)%N then
    and_then (check_sizes vecUseCounts framePoses (N.to_nat (getNumDatapoints trace)) 0%N)
      (check_frames vecUseCounts framePoses (N.to_nat (getNumDatapoints trace)) 0%N)
  else failed frames_size_eq.

Section Test.
Context `{StdRandom} `{ProjMetaData}.

(** The loop over the trials on [testObject]: [n] trials are left. *)
Fixpoint trials (files : TraceFiles) (testObject : PoseGenerator mt19937_64) (fuel : nat)
    (trace : projMetaTrace) (vecUseCounts : list N) (labelFileName : string) (n : nat)
    : M mt19937_64 Verdict :=
  match n with
  | O => ret passed
  | S n' =>
      do framePoses <-
        generatePoses4vecFrames files (m_perturbRules testObject) (m_sensorNames testObject)
          fuel vecUseCounts labelFileName;
      match check_trial trace vecUseCounts framePoses with
      | passed => trials files testObject fuel trace vecUseCounts labelFileName n'
      | v => ret v
      end
  end.

(** [SetUp] and the test body. *)
Definition TestGeneratePoses4vecFrame_L0 (files : TraceFiles) (fuel : nat)
    (labelFileName : string) : Verdict :=
  match PoseGenerator_new Fixture.configRules Fixture.testSensorNames 1 with
  | inl e => threw e
  | inr testObject =>
      match files labelFileName with
      | None => threw TraceLoadError
      | Some trace =>
          let vecUseCounts := replicate (N.to_nat (getNumDatapoints trace)) 2%N in
          let trialNum := 100%nat in
          match trials files testObject fuel trace vecUseCounts labelFileName trialNum
                  (m_generator testObject) with
          | Ok v _ => v
          | Throw e _ => threw e
          | OutOfFuel => hung
          | Undefined => undefined_behaviour
          end
      end
  end.

End Test.

(** A verdict that is a pass or a failed bound on [forward]. *)
Definition forward_only (v : Verdict) : Prop :=
  v = passed \/ exists i j, v = failed (value_in_bound i j on_forward).

End TestPoseGenerator.

(** ** Reasoning about the monad *)

(** Evaluates the closed term [t] and records its value as [H]. *)
Ltac evaluate H t :=
  let v := eval vm_compute in t in
  assert (H : t = v) by (vm_compute; reflexivity).

Lemma bind_Ok {G A B} (m : M G A) (k : A -> M G B) g b g2 :
  bind m k g = Ok b g2 <-> exists a g1, m g = Ok a g1 /\ k a g1 = Ok b g2.
Proof.
  unfold bind. split.
  - destruct (m g) as [a g1 | e g1 | |] eqn:E; try discriminate. eauto.
  - intros (a & g1 & -> & Hk). exact Hk.
Qed.

Lemma bind_Throw {G A B} (m : M G A) (k : A -> M G B) g e g2 :
  bind m k g = Throw e g2 <->
  m g = Throw e g2 \/ exists a g1, m g = Ok a g1 /\ k a g1 = Throw e g2.
Proof.
  unfold bind. split.
  - destruct (m g) as [a g1 | e' g1 | |] eqn:E; try discriminate.
    + intros Hk. right. exists a, g1. split; [reflexivity | exact Hk].
    + intros [= -> ->]. by left.
  - intros [Hm | (a & g1 & Hm & Hk)]; rewrite Hm; [reflexivity | exact Hk].
Qed.

Lemma bind_Undefined {G A B} (m : M G A) (k : A -> M G B) g :
  bind m k g = Undefined <->
  m g = Undefined \/ exists a g1, m g = Ok a g1 /\ k a g1 = Undefined.
Proof.
  unfold bind. split.
  - destruct (m g) as [a g1 | e' g1 | |] eqn:E; try discriminate.
    + intros Hk. right. exists a, g1. split; [reflexivity | exact Hk].
    + by left.
  - intros [Hm | (a & g1 & Hm & Hk)]; rewrite Hm; [reflexivity | exact Hk].
Qed.

Lemma bind_ext {G A B} (m : M G A) (k1 k2 : A -> M G B) g :
  (forall a g1, m g = Ok a g1 -> k1 a g1 = k2 a g1) -> bind m k1 g = bind m k2 g.
Proof.
  intros Hk. unfold bind. destruct (m g) as [a g1 | e g1 | |] eqn:E; auto.
Qed.

Lemma bind_assoc {G A B C} (m : M G A) (k : A -> M G B) (h : B -> M G C) g :
  bind (bind m k) h g = bind m (fun a => bind (k a) h) g.
Proof. unfold bind. destruct (m g); reflexivity. Qed.

Lemma returns_Ok {G A} (r : Res G A) :
  returns r = true -> exists a g, r = Ok a g.
Proof. destruct r; [eauto | discriminate ..]. Qed.

(** ** Parity and negation *)

Lemma N_mod2_odd (i : nat) : negb (N.of_nat i mod 2 =? 0)%N = Nat.odd i.
Proof.
  destruct (Nat.Even_or_Odd i) as [[k ->] | [k ->]].
  - rewrite Nat2N.inj_mul, N.mul_comm, N.Div0.mod_mul.
    change (2 * k)%nat with (0 + 2 * k)%nat. by rewrite Nat.odd_add_mul_2.
  - rewrite Nat2N.inj_add, Nat2N.inj_mul, N.add_comm, N.mul_comm, N.Div0.mod_add.
    rewrite Nat.add_comm, Nat.odd_add_mul_2. reflexivity.
Qed.

Lemma Qmult_minus_one (x : Q) : x * -1 = - x.
Proof.
  destruct x as [n d]. unfold Qmult, Qopp. simpl.
  rewrite Pos.mul_1_r. f_equal. lia.
Qed.

(** What [flipPose] changes and what it keeps. *)
Lemma flipPose_fields `{StdRandom} (pose : Pose.t) :
  Pose.flip (flipPose pose) = true /\
  Pose.shift (flipPose pose) = - Pose.shift pose /\
  Pose.rotation (flipPose pose) = - Pose.rotation pose /\
  Pose.forward (flipPose pose) = Pose.forward pose /\
  Pose.sensor_yaw (flipPose pose) = Pose.sensor_yaw pose /\
  Pose.sensor_pitch (flipPose pose) = Pose.sensor_pitch pose /\
  Pose.sensor_roll (flipPose pose) = Pose.sensor_roll pose /\
  Pose.srcFrame (flipPose pose) = Pose.srcFrame pose.
Proof. simpl. by rewrite !Qmult_minus_one. Qed.

(** ** Rounding *)

Lemma two_power_pos (z : Z) : 0 < 2 ^ z.
Proof. by apply Qpower_0_lt. Qed.

Lemma two_power_nonneg_exponent (z : Z) : (0 <= z)%Z -> 2 ^ z == inject_Z (2 ^ z).
Proof. intros Hz. by rewrite Zpower_Qpower. Qed.

Lemma two_power_succ (z : Z) : 2 ^ (z + 1) == 2 * 2 ^ z.
Proof. rewrite Qpower_plus by discriminate. change (2 ^ 1) with 2. ring. Qed.

(** [Qlog2 x] is the binary exponent of a positive [x]. *)
Lemma Qlog2_spec (x : Q) : 0 < x -> 2 ^ Qlog2 x <= x /\ x < 2 ^ (Qlog2 x + 1).
Proof.
  intros Hx. destruct x as [n d]. unfold Qlog2. cbn [Qnum Qden].
  assert (Hn : (0 < n)%Z) by (unfold Qlt in Hx; simpl in Hx; lia).
  set (a := Z.log2 n). set (b := Z.log2 (Z.pos d)).
  destruct (Z.log2_spec n Hn) as [Ha1 Ha2]. fold a in Ha1, Ha2.
  destruct (Z.log2_spec (Z.pos d) ltac:(lia)) as [Hb1 Hb2]. fold b in Hb1, Hb2.
  assert (Ha0 : (0 <= a)%Z) by apply Z.log2_nonneg.
  assert (Hb0 : (0 <= b)%Z) by apply Z.log2_nonneg.
  assert (Hlow : 2 ^ (a - b - 1) <= n # d).
  { replace (a - b - 1)%Z with (a - (b + 1))%Z by lia.
    rewrite Qpower_minus by discriminate.
    rewrite !two_power_nonneg_exponent by lia.
    apply Qle_shift_div_r.
    - change 0 with (inject_Z 0). rewrite <- Zlt_Qlt. apply Z.pow_pos_nonneg; lia.
    - unfold Qle, Qmult. simpl. change (Z.succ b) with (b + 1)%Z in *. nia. }
  assert (Hhigh : n # d < 2 ^ (a - b + 1)).
  { replace (a - b + 1)%Z with (a + 1 - b)%Z by lia.
    rewrite Qpower_minus by discriminate.
    rewrite !two_power_nonneg_exponent by lia.
    apply Qlt_shift_div_l.
    - change 0 with (inject_Z 0). rewrite <- Zlt_Qlt. apply Z.pow_pos_nonneg; lia.
    - unfold Qlt, Qmult. simpl. change (Z.succ a) with (a + 1)%Z in *. nia. }
  destruct (Qle_bool (2 ^ (a - b)) (n # d)) eqn:Hcmp.
  - apply Qle_bool_iff in Hcmp. by split.
  - split; [exact Hlow |].
    replace (a - b - 1 + 1)%Z with (a - b)%Z by lia.
    apply Qnot_le_lt. intros Hle. apply Qle_bool_iff in Hle. congruence.
Qed.

Lemma Qlog2_mono (x y : Q) : 0 < x -> x <= y -> (Qlog2 x <= Qlog2 y)%Z.
Proof.
  intros Hx Hxy.
  destruct (Qlog2_spec x Hx) as [Hx1 _].
  destruct (Qlog2_spec y (Qlt_le_trans _ _ _ Hx Hxy)) as [_ Hy2].
  destruct (Z.le_gt_cases (Qlog2 x) (Qlog2 y)) as [Hle | Hgt]; [exact Hle |].
  assert (Hpow : 2 ^ (Qlog2 y + 1) <= 2 ^ Qlog2 x)
    by (apply Qpower_le_compat_l; [lia | discriminate]).
  exfalso. apply (Qlt_irrefl y). lra.
Qed.

(** The binary exponent of twice a number is one more. *)
Lemma Qlog2_double (x y : Q) : 0 < x -> y == 2 * x -> Qlog2 y = (Qlog2 x + 1)%Z.
Proof.
  intros Hx Hy. destruct (Qlog2_spec x Hx) as [Hx1 Hx2].
  assert (Hy0 : 0 < y) by lra.
  assert (Hle : (Qlog2 x <= Qlog2 y)%Z) by (apply Qlog2_mono; lra).
  destruct (Qlog2_spec y Hy0) as [Hy1 Hy2].
  pose proof (two_power_succ (Qlog2 x)) as Hs1.
  pose proof (two_power_succ (Qlog2 x + 1)) as Hs2.
  destruct (Z.lt_trichotomy (Qlog2 y) (Qlog2 x + 1)) as [Hlt | [Heq | Hgt]]; [| done |].
  - assert (Heq : Qlog2 y = Qlog2 x) by lia. rewrite Heq in Hy2.
    exfalso. apply (Qlt_irrefl y). lra.
  - assert (Hpow : 2 ^ (Qlog2 x + 1 + 1) <= 2 ^ Qlog2 y)
      by (apply Qpower_le_compat_l; [lia | discriminate]).
    exfalso. apply (Qlt_irrefl y). lra.
Qed.

(** Rounding to nearest does not cross an integer. *)
Lemma round_half_even_le (q : Q) (K : Z) : q <= inject_Z K -> (round_half_even q <= K)%Z.
Proof.
  intros Hq. unfold round_half_even.
  pose proof (Qfloor_resp_le _ _ Hq) as Hf. rewrite Qfloor_Z in Hf.
  pose proof (Qfloor_le q) as Hfq.
  assert (Hup : inject_Z (Qfloor q) < q -> (Qfloor q + 1 <= K)%Z).
  { intros Hlt. destruct (Z.eq_dec (Qfloor q) K) as [Heq | Hne]; [| lia].
    rewrite Heq in Hlt. exfalso. apply (Qlt_irrefl q). lra. }
  destruct (Qcompare (q - inject_Z (Qfloor q)) (1 # 2)) eqn:Hcmp.
  - apply Qeq_alt in Hcmp. destruct (Z.even (Qfloor q)); [exact Hf |].
    apply Hup. lra.
  - exact Hf.
  - apply Qgt_alt in Hcmp. apply Hup. lra.
Qed.

Lemma round_half_even_ge (q : Q) (K : Z) : inject_Z K <= q -> (K <= round_half_even q)%Z.
Proof.
  intros Hq. unfold round_half_even.
  pose proof (Qfloor_resp_le _ _ Hq) as Hf. rewrite Qfloor_Z in Hf.
  destruct (Qcompare (q - inject_Z (Qfloor q)) (1 # 2));
    [destruct (Z.even (Qfloor q)) | |]; lia.
Qed.

Lemma round_half_even_integer (q : Q) (K : Z) : q == inject_Z K -> round_half_even q = K.
Proof.
  intros Hq.
  assert ((round_half_even q <= K)%Z) by (apply round_half_even_le; lra).
  assert ((K <= round_half_even q)%Z) by (apply round_half_even_ge; lra).
  lia.
Qed.

Lemma Qabs_pos (x : Q) : ~ x == 0 -> 0 < Qabs x.
Proof.
  intros Hx. apply Qabs_case; intros Hsign; apply Qnot_le_lt; intros Hle; apply Hx; lra.
Qed.

(** *** A binary grid

    The facts below hold for every binary format: [p + 1] significant
    bits and least exponent [emin]. *)
Section Grid.
Variables (emin p : Z).

#[local] Abbreviation grid_ulp x := (2 ^ (Z.max (Qlog2 (Qabs x)) emin - p)).
#[local] Abbreviation grid_round x :=
  (if Qeq_bool x 0 then 0 else inject_Z (round_half_even (x / grid_ulp x)) * grid_ulp x).

(** The grid around a smaller number is finer by a power of two. *)
Lemma grid_ulp_divides (x m : Q) :
  0 < Qabs x -> Qabs x <= Qabs m ->
  exists P : Z, (0 < P)%Z /\ grid_ulp m == inject_Z P * grid_ulp x.
Proof.
  intros Hx Hxm.
  set (ex := Z.max (Qlog2 (Qabs x)) emin). set (em := Z.max (Qlog2 (Qabs m)) emin).
  assert (Hle : (ex <= em)%Z).
  { pose proof (Qlog2_mono _ _ Hx Hxm). unfold ex, em. lia. }
  exists (2 ^ (em - ex))%Z. split; [apply Z.pow_pos_nonneg; lia |].
  rewrite <- two_power_nonneg_exponent by lia.
  rewrite <- Qpower_plus by discriminate. by replace (em - ex + (ex - p))%Z with (em - p)%Z by lia.
Qed.

(** Rounding keeps a value within a bound that lies on the grid. *)
Lemma grid_round_bounded (x m : Q) :
  grid_round m == m ->
  - m <= x -> x <= m ->
  - m <= grid_round x /\ grid_round x <= m.
Proof.
  intros Hm Hlo Hhi.
  destruct (Qeq_bool x 0) eqn:Hx0; [lra |].
  apply Qeq_bool_neq in Hx0.
  assert (Hxabs : 0 < Qabs x) by by apply Qabs_pos.
  assert (Hxm : Qabs x <= Qabs m) by (do 2 apply Qabs_case; lra).
  assert (Hm0 : ~ m == 0) by (intros Heq; apply Hx0; lra).
  destruct (Qeq_bool m 0) eqn:Hmz; [by apply Qeq_bool_iff in Hmz |].
  destruct (grid_ulp_divides x m Hxabs Hxm) as (P & HP & Hulp).
  pose proof (two_power_pos (Z.max (Qlog2 (Qabs x)) emin - p)) as Hux.
  set (ux := 2 ^ (Z.max (Qlog2 (Qabs x)) emin - p)) in *.
  set (um := 2 ^ (Z.max (Qlog2 (Qabs m)) emin - p)) in *.
  set (k := round_half_even (m / um)) in *.
  assert (HmK : m == inject_Z (k * P) * ux).
  { rewrite <- Hm, Hulp, inject_Z_mult. ring. }
  assert (Hup : (round_half_even (x / ux) <= k * P)%Z).
  { apply round_half_even_le, Qle_shift_div_r; [done |]. by rewrite <- HmK. }
  assert (HmK' : inject_Z (- (k * P)) * ux == - m)
    by (rewrite HmK, inject_Z_opp; ring).
  assert (Hdown : (- (k * P) <= round_half_even (x / ux))%Z).
  { apply round_half_even_ge, Qle_shift_div_l; [done |]. by rewrite HmK'. }
  split.
  - rewrite <- HmK'.
    apply Qmult_le_compat_r; [| by apply Qlt_le_weak]. by rewrite <- Zle_Qle.
  - rewrite HmK. apply Qmult_le_compat_r; [| by apply Qlt_le_weak]. by rewrite <- Zle_Qle.
Qed.

(** Rounding keeps the sign. *)
Lemma grid_round_nonneg (x : Q) : 0 <= x -> 0 <= grid_round x.
Proof.
  intros Hx. destruct (Qeq_bool x 0); [lra |].
  pose proof (two_power_pos (Z.max (Qlog2 (Qabs x)) emin - p)) as Hu.
  set (u := 2 ^ (Z.max (Qlog2 (Qabs x)) emin - p)) in *.
  apply Qmult_le_0_compat; [| lra].
  change 0 with (inject_Z 0). rewrite <- Zle_Qle.
  apply round_half_even_ge. apply Qle_shift_div_l; [done |].
  change (inject_Z 0) with 0. lra.
Qed.

(** A multiple of the spacing around it lies on the grid. *)
Lemma grid_round_multiple (x : Q) (K : Z) :
  x == inject_Z K * grid_ulp x -> grid_round x == x.
Proof.
  intros HK. destruct (Qeq_bool x 0) eqn:Hx0; [apply Qeq_bool_iff in Hx0; lra |].
  pose proof (two_power_pos (Z.max (Qlog2 (Qabs x)) emin - p)) as Hu.
  set (u := 2 ^ (Z.max (Qlog2 (Qabs x)) emin - p)) in *. clearbody u.
  rewrite (round_half_even_integer (x / u) K); [lra |].
  rewrite HK. field. lra.
Qed.

(** Twice a number of the grid lies on the grid. *)
Lemma grid_round_double (m x : Q) :
  grid_round m == m -> x == 2 * m -> grid_round x == x.
Proof.
  intros Hm Hx. destruct (Qeq_bool m 0) eqn:Hm0.
  - apply Qeq_bool_iff in Hm0.
    assert (Hx0 : Qeq_bool x 0 = true) by (apply Qeq_bool_iff; lra).
    rewrite Hx0. lra.
  - apply Qeq_bool_neq in Hm0.
    assert (Habs : Qabs x == 2 * Qabs m) by (rewrite Hx, Qabs_Qmult; reflexivity).
    pose proof (Qlog2_double (Qabs m) (Qabs x) (Qabs_pos m Hm0) Habs) as Hlog.
    set (K := round_half_even (m / grid_ulp m)) in *.
    destruct (Z.le_gt_cases emin (Qlog2 (Qabs m))) as [Hnormal | Hsub].
    + apply (grid_round_multiple x K). rewrite Hlog.
      replace (Z.max (Qlog2 (Qabs m)) emin) with (Qlog2 (Qabs m)) in Hm by lia.
      replace (Z.max (Qlog2 (Qabs m) + 1) emin - p)%Z with (Qlog2 (Qabs m) - p + 1)%Z by lia.
      rewrite two_power_succ, Hx. rewrite <- Hm at 1. ring.
    + apply (grid_round_multiple x (2 * K)). rewrite Hlog.
      replace (Z.max (Qlog2 (Qabs m)) emin) with emin in Hm by lia.
      replace (Z.max (Qlog2 (Qabs m) + 1) emin) with emin by lia.
      rewrite inject_Z_mult, Hx. rewrite <- Hm at 1. change (inject_Z 2) with 2. ring.
Qed.

End Grid.

Lemma binary64_representable_zero (m : Q) : m == 0 -> binary64_representable m.
Proof.
  intros Hm. unfold binary64_representable, round_double.
  assert (H0 : Qeq_bool m 0 = true) by by apply Qeq_bool_iff.
  rewrite H0. lra.
Qed.

(** A binary32 number is a binary64 number. *)
Lemma binary32_binary64 (m : Q) : binary32_representable m -> binary64_representable m.
Proof.
  intros [Hm _]. unfold double_to_float in Hm.
  destruct (Qeq_bool m 0) eqn:Hm0.
  { apply binary64_representable_zero. by apply Qeq_bool_iff. }
  unfold binary64_representable, round_double, binary64_ulp.
  apply (grid_round_multiple (-1022) 52 m
           (round_half_even (m / binary32_ulp m)
            * 2 ^ (Z.max (Qlog2 (Qabs m)) (-126) - 23
                   - (Z.max (Qlog2 (Qabs m)) (-1022) - 52)))).
  rewrite <- Hm at 1. rewrite inject_Z_mult.
  rewrite <- two_power_nonneg_exponent by lia.
  rewrite <- Qmult_assoc, <- Qpower_plus by discriminate.
  unfold binary32_ulp. apply Qmult_comp; [reflexivity |].
  by replace (Z.max (Qlog2 (Qabs m)) (-126) - 23
              - (Z.max (Qlog2 (Qabs m)) (-1022) - 52)
              + (Z.max (Qlog2 (Qabs m)) (-1022) - 52))%Z
    with (Z.max (Qlog2 (Qabs m)) (-126) - 23)%Z by lia.
Qed.

(** The conversion to [float] keeps a value within a bound that is
    itself a binary32 number. *)
Lemma double_to_float_bounded (x m : Q) :
  binary32_representable m ->
  - m <= x -> x <= m ->
  - m <= double_to_float x /\ double_to_float x <= m.
Proof. intros [Hm _]. exact (grid_round_bounded (-126) 23 x m Hm). Qed.

(** Within the range of [float] the conversion gives a finite number. *)
Lemma double_to_float_finite (x : Q) :
  Qabs x <= FLT_MAX -> Qabs (double_to_float x) <= FLT_MAX.
Proof.
  intros Hx. apply Qabs_Qle_condition in Hx as [Hlo Hhi].
  apply Qabs_Qle_condition. apply double_to_float_bounded; [| done | done].
  split; [vm_compute; reflexivity | discriminate].
Qed.

(** An operation on doubles keeps its result within a bound that is
    itself a [double]. *)
Lemma round_double_bounded (x m : Q) :
  binary64_representable m ->
  - m <= x -> x <= m ->
  - m <= round_double x /\ round_double x <= m.
Proof. exact (grid_round_bounded (-1022) 52 x m). Qed.

Lemma round_double_nonneg (x : Q) : 0 <= x -> 0 <= round_double x.
Proof. exact (grid_round_nonneg (-1022) 52 x). Qed.

Lemma round_double_twice (m x : Q) :
  binary64_representable m -> x == 2 * m -> round_double x == x.
Proof. exact (grid_round_double (-1022) 52 m x). Qed.

(** ** The sampler before the conversion to [float] *)

Lemma Qltb_false x y : Qltb x y = false <-> y <= x.
Proof.
  unfold Qltb. rewrite negb_false_iff. apply Qle_bool_iff.
Qed.

(** The canonical number lies in [0, 1). *)
Lemma canonical_range (w : N) : 0 <= canonical w /\ canonical w < 1.
Proof.
  unfold canonical.
  set (ret := round_double (inject_Z (Z.of_N (w mod 2 ^ 64))) / inject_Z (2 ^ 64)).
  destruct (Qle_bool 1 ret) eqn:Hret.
  - split; [discriminate | reflexivity].
  - split.
    + unfold ret. apply Qle_shift_div_l; [reflexivity |]. rewrite Qmult_0_l.
      apply round_double_nonneg. change 0 with (inject_Z 0). rewrite <- Zle_Qle.
      apply N2Z.is_nonneg.
    + apply Qnot_le_lt. intros Hle. apply Qle_bool_iff in Hle. congruence.
Qed.

Lemma generate_canonical_range `{StdRandom} (g : mt19937_64) :
  0 <= (generate_canonical g).1 /\ (generate_canonical g).1 < 1.
Proof.
  unfold generate_canonical. destruct (mt19937_64_next g) as [w g']. apply canonical_range.
Qed.

(** For a hard limit that is a [double] and not negative, the value of
    the uniform distribution lies in [-max, max], rounding included. *)
Lemma uniform_double_bounded (m u : Q) :
  binary64_representable m -> 0 <= m -> 0 <= u -> u < 1 ->
  - m <= uniform_double (- m) m u /\ uniform_double (- m) m u <= m.
Proof.
  intros Hm Hm0 Hu0 Hu1. unfold uniform_double.
  assert (Hwidth : round_double (m - - m) == 2 * m).
  { rewrite (round_double_twice m (m - - m)); [ring | done | ring]. }
  assert (Htwice : binary64_representable (2 * m))
    by (apply (round_double_twice m); [done | reflexivity]).
  set (width := round_double (m - - m)) in *.
  assert (Hprod : 0 <= u * width /\ u * width <= 2 * m).
  { split.
    - apply Qmult_le_0_compat; lra.
    - assert (u * width <= 1 * width) by (apply Qmult_le_compat_r; lra). lra. }
  destruct Hprod as [Hp0 Hp1].
  pose proof (round_double_nonneg _ Hp0) as Ht0.
  destruct (round_double_bounded (u * width) (2 * m) Htwice ltac:(lra) Hp1) as [_ Ht1].
  apply round_double_bounded; [done | lra | lra].
Qed.

Section SamplerFacts.
Context `{StdRandom}.

(** The rejection loop of [genGaussianRV] exits only with a value in
    [-max, max]. *)
Lemma genGaussianRV_loop_bounded fuel max d x g v g' :
  genGaussianRV_loop fuel max d x g = Ok v g' -> - max <= v /\ v <= max.
Proof.
  revert d x g. induction fuel as [| fuel IH]; intros d x g; simpl.
  - destruct (Qltb x (- max) || Qltb max x) eqn:E; [discriminate |].
    intros [= <- <-]. apply orb_false_elim in E as [E1 E2].
    by rewrite !Qltb_false in *.
  - destruct (Qltb x (- max) || Qltb max x) eqn:E.
    + destruct (normal_distribution_call d g) as [[x' d'] g1]. apply IH.
    + intros [= <- <-]. apply orb_false_elim in E as [E1 E2].
      by rewrite !Qltb_false in *.
Qed.

Lemma genGaussianRV_double_bounded fuel params g v g' :
  genGaussianRV_double fuel params g = Ok v g' ->
  - randParams.max params <= v /\ v <= randParams.max params.
Proof.
  unfold genGaussianRV_double.
  destruct (normal_distribution_call _ g) as [[x d'] g1].
  apply genGaussianRV_loop_bounded.
Qed.

(** The uniform draw lies in [-max, max] when [max] is a [double] that
    is not negative. *)
Lemma genUniformRV_double_bounded params g v g' :
  binary64_representable (randParams.max params) ->
  0 <= randParams.max params ->
  genUniformRV_double params g = Ok v g' ->
  - randParams.max params <= v /\ v <= randParams.max params.
Proof.
  intros Hrep Hmax. unfold genUniformRV_double, uniform_real_distribution.
  pose proof (generate_canonical_range g) as [Hu0 Hu1].
  destruct (generate_canonical g) as [u g1]. simpl in Hu0, Hu1.
  intros [= <- <-]. by apply uniform_double_bounded.
Qed.

(** What [getRandom] returns is the conversion to [float] of a [double]
    that lies in [-max, max]. *)
Lemma getRandom_Ok fuel rParams g v g' :
  binary64_representable (randParams.max rParams) ->
  0 <= randParams.max rParams ->
  getRandom fuel rParams g = Ok v g' ->
  exists d : double,
    v = double_to_float d /\
    - randParams.max rParams <= d /\ d <= randParams.max rParams.
Proof.
  intros Hrep Hmax. unfold getRandom.
  destruct (_ || _).
  - unfold genGaussianRV. rewrite bind_Ok. intros (d & g1 & Hd & [= <- <-]).
    exists d. split; [done |]. by eapply genGaussianRV_double_bounded.
  - destruct (String.eqb _ "uniform"); [| discriminate].
    unfold genUniformRV. rewrite bind_Ok. intros (d & g1 & Hd & [= <- <-]).
    exists d. split; [done |]. by eapply genUniformRV_double_bounded.
Qed.

End SamplerFacts.

(** The check value of the C++ standard: the 10000th output of a
    default-seeded [std::mt19937_64] is 9981545732273789042. *)
Lemma MT19937_64_check_value :
  (MT19937_64.next (MT19937_64.discard (N.to_nat 9999) (MT19937_64.seed 5489))).1
  = 9981545732273789042%N.
Proof. vm_compute. reflexivity. Qed.

(** A value of the uniform draw with every operation rounded: for seed
    1514514533 and a hard limit of 1, the first output of the engine is
    9896649838865415408 and the [float] returned is 0x1.2afed4p-4; with
    exact arithmetic in place of the three rounded operations it would be
    0x1.2afed2p-4. *)
Lemma uniform_check_value :
  (MT19937_64.next (MT19937_64.seed 1514514533)).1 = 9896649838865415408%N /\
  uniform_value (randParams.mk "uniform" 1 1) 9896649838865415408 == 4898741 # 67108864 /\
  double_to_float ((9896649838865415408 # 18446744073709551616) * (1 - - (1)) + - (1))
    == 9797481 # 134217728.
Proof. split_and!; vm_compute; reflexivity. Qed.

(** The stand-in shuffle permutes, as [std::shuffle] does. *)
Lemma StandIn_rotate_shuffle_Permutation {G} (next : G -> N * G) (A : Type) (l : list A) g :
  (StandIn.rotate_shuffle next l g).1 ≡ₚ l.
Proof.
  unfold StandIn.rotate_shuffle. destruct (next g) as [w g']. simpl. unfold rotate.
  rewrite Permutation_app_comm. by rewrite take_drop.
Qed.

(** ** The frame loop as synthesis followed by the flip step *)

Section Synthesis.
Context `{StdRandom}.

Lemma poses_loop_synthesize sensorNames fuel params index n i vecPoses g :
  poses_loop sensorNames fuel params index n i vecPoses g =
  bind (synthesize sensorNames fuel params index n)
    (fun s => ret (vecPoses ++ emit_all (perturbParams.flip params) i s)) g.
Proof.
  revert i vecPoses g. induction n as [| n IH]; intros i vecPoses g; simpl.
  - unfold bind, ret. by rewrite app_nil_r.
  - rewrite bind_assoc. apply bind_ext. intros onePose g1 _.
    rewrite bind_assoc.
    destruct (perturbParams.flip params && negb (i mod 2 =? 0)%N) eqn:E;
      rewrite IH; apply bind_ext; intros rest g2 _; unfold ret, bind;
      cbn [emit_all]; unfold emit; rewrite E, <- app_assoc; reflexivity.
Qed.

Lemma length_emit_all flip i poses : length (emit_all flip i poses) = length poses.
Proof. revert i. induction poses; intros; simpl; auto. Qed.

Lemma lookup_emit_all flip i poses j :
  emit_all flip i poses !! j = emit flip (i + N.of_nat j) <$> poses !! j.
Proof.
  revert i j. induction poses as [| p rest IH]; intros i [| j]; try done.
  - simpl. by rewrite N.add_0_r.
  - cbn [emit_all lookup list_lookup]. rewrite IH.
    by replace (i + 1 + N.of_nat j)%N with (i + N.of_nat (S j))%N by lia.
Qed.

Lemma generateOnePose_flip sensorNames fuel params g pose g' :
  generateOnePose sensorNames fuel params g = Ok pose g' -> Pose.flip pose = false.
Proof.
  unfold generateOnePose. rewrite !bind_Ok.
  intros (? & ? & _ & H1). apply bind_Ok in H1 as (? & ? & _ & H1).
  apply bind_Ok in H1 as (? & ? & _ & H1). apply bind_Ok in H1 as (? & ? & _ & H1).
  by injection H1 as <- <-.
Qed.

Lemma synthesize_Ok sensorNames fuel params index n g synth g' :
  synthesize sensorNames fuel params index n g = Ok synth g' ->
  length synth = n /\
  Forall (fun s => Pose.flip s = false /\ Pose.srcFrame s = index) synth.
Proof.
  revert g synth. induction n as [| n IH]; intros g synth; simpl.
  - by intros [= <- <-].
  - rewrite bind_Ok. intros (onePose & g1 & Hone & Hrest).
    apply bind_Ok in Hrest as (rest & g2 & Hrest & [= <- <-]).
    apply IH in Hrest as [Hlen Hall]. split; [simpl; congruence |].
    constructor; [| done]. split; [| done]. simpl.
    by eapply generateOnePose_flip.
Qed.

Lemma poses_loop_Ok sensorNames fuel params index n i vecPoses g poses g' :
  poses_loop sensorNames fuel params index n i vecPoses g = Ok poses g' ->
  exists synth,
    synthesize sensorNames fuel params index n g = Ok synth g' /\
    poses = vecPoses ++ emit_all (perturbParams.flip params) i synth.
Proof.
  rewrite poses_loop_synthesize, bind_Ok. intros (synth & g1 & Hs & [= <- <-]). eauto.
Qed.

End Synthesis.

(** ** Outcomes of the frame planner *)

Section FrameFacts.
Context `{StdRandom}.

Lemma genGaussianRV_loop_no_throw fuel max d x g e g' :
  genGaussianRV_loop fuel max d x g <> Throw e g'.
Proof.
  revert d x g. induction fuel as [| fuel IH]; intros d x g; simpl;
    destruct (Qltb x (- max) || Qltb max x); try discriminate.
  destruct (normal_distribution_call d g) as [[x' d'] g1]. apply IH.
Qed.

(** The sampler throws only for an unknown distribution name, before
    any draw. *)
Lemma getRandom_Throw fuel rParams g e g' :
  getRandom fuel rParams g = Throw e g' ->
  e = UnknownDistribution (randParams.distribution rParams) /\ g' = g.
Proof.
  unfold getRandom. destruct (_ || _).
  - unfold genGaussianRV. rewrite bind_Throw. intros [Hd | (? & ? & _ & Hr)].
    + unfold genGaussianRV_double in Hd.
      destruct (normal_distribution_call _ g) as [[x d'] g1].
      by apply genGaussianRV_loop_no_throw in Hd.
    + discriminate.
  - destruct (String.eqb _ "uniform").
    + unfold genUniformRV. rewrite bind_Throw. intros [Hd | (? & ? & _ & Hr)].
      * unfold genUniformRV_double in Hd.
        destruct (uniform_real_distribution _ _ g). discriminate.
      * discriminate.
    + by intros [= <- <-].
Qed.

Lemma getRandom_Throw_kind fuel rParams g e g' :
  getRandom fuel rParams g = Throw e g' -> is_UnknownDistribution e.
Proof. intros [-> _]%getRandom_Throw. exact I. Qed.

Lemma sensor_loop_Throw fuel params sensorNames aPose g e g' :
  sensor_loop fuel params sensorNames aPose g = Throw e g' -> is_UnknownDistribution e.
Proof.
  revert aPose g. induction sensorNames as [| n rest IH]; intros aPose g; simpl.
  - discriminate.
  - rewrite bind_Throw. intros [Hr | (? & ? & _ & H1)];
      [by eapply getRandom_Throw_kind |].
    apply bind_Throw in H1 as [Hr | (? & ? & _ & H1)];
      [by eapply getRandom_Throw_kind |].
    apply bind_Throw in H1 as [Hr | (? & ? & _ & H1)];
      [by eapply getRandom_Throw_kind |].
    by eapply IH.
Qed.

Lemma generateOnePose_Throw sensorNames fuel params g e g' :
  generateOnePose sensorNames fuel params g = Throw e g' -> is_UnknownDistribution e.
Proof.
  unfold generateOnePose. rewrite bind_Throw.
  intros [Hr | (? & ? & _ & H1)]; [by eapply getRandom_Throw_kind |].
  apply bind_Throw in H1 as [Hr | (? & ? & _ & H1)];
    [by eapply getRandom_Throw_kind |].
  apply bind_Throw in H1 as [Hr | (? & ? & _ & H1)];
    [by eapply getRandom_Throw_kind |].
  apply bind_Throw in H1 as [Hr | (? & ? & _ & H1)];
    [by eapply sensor_loop_Throw | discriminate].
Qed.

Lemma synthesize_Throw sensorNames fuel params index n g e g' :
  synthesize sensorNames fuel params index n g = Throw e g' -> is_UnknownDistribution e.
Proof.
  revert g. induction n as [| n IH]; intros g; simpl; [discriminate |].
  rewrite bind_Throw. intros [Hr | (? & ? & _ & H1)];
    [by eapply generateOnePose_Throw |].
  apply bind_Throw in H1 as [Hr | (? & ? & _ & H1)]; [by eapply IH | discriminate].
Qed.

Lemma poses_loop_Throw sensorNames fuel params index n i vecPoses g e g' :
  poses_loop sensorNames fuel params index n i vecPoses g = Throw e g' ->
  is_UnknownDistribution e.
Proof.
  rewrite poses_loop_synthesize, bind_Throw.
  intros [Hr | (? & ? & _ & H1)]; [by eapply synthesize_Throw | discriminate].
Qed.

(** Drawing a pose has no undefined step. *)
Lemma genGaussianRV_loop_defined fuel max d x g :
  genGaussianRV_loop fuel max d x g <> Undefined.
Proof.
  revert d x g. induction fuel as [| fuel IH]; intros d x g; simpl;
    destruct (Qltb x (- max) || Qltb max x); try discriminate.
  destruct (normal_distribution_call d g) as [[x' d'] g1]. apply IH.
Qed.

Lemma getRandom_defined fuel rParams g : getRandom fuel rParams g <> Undefined.
Proof.
  unfold getRandom. destruct (_ || _).
  - unfold genGaussianRV. rewrite bind_Undefined. intros [Hd | (? & ? & _ & ?)]; [| done].
    unfold genGaussianRV_double in Hd.
    destruct (normal_distribution_call _ g) as [[x d'] g1].
    by apply genGaussianRV_loop_defined in Hd.
  - destruct (String.eqb _ "uniform"); [| discriminate].
    unfold genUniformRV, bind, genUniformRV_double.
    by destruct (uniform_real_distribution _ _ g).
Qed.

Lemma sensor_loop_defined fuel params sensorNames aPose g :
  sensor_loop fuel params sensorNames aPose g <> Undefined.
Proof.
  revert aPose g. induction sensorNames as [| n rest IH]; intros aPose g; simpl.
  - discriminate.
  - rewrite bind_Undefined. intros [Hr | (? & ? & _ & H1)];
      [by apply getRandom_defined in Hr |].
    apply bind_Undefined in H1 as [Hr | (? & ? & _ & H1)];
      [by apply getRandom_defined in Hr |].
    apply bind_Undefined in H1 as [Hr | (? & ? & _ & H1)];
      [by apply getRandom_defined in Hr |].
    by apply IH in H1.
Qed.

Lemma generateOnePose_defined sensorNames fuel params g :
  generateOnePose sensorNames fuel params g <> Undefined.
Proof.
  unfold generateOnePose. rewrite bind_Undefined.
  intros [Hr | (? & ? & _ & H1)]; [by apply getRandom_defined in Hr |].
  apply bind_Undefined in H1 as [Hr | (? & ? & _ & H1)];
    [by apply getRandom_defined in Hr |].
  apply bind_Undefined in H1 as [Hr | (? & ? & _ & H1)];
    [by apply getRandom_defined in Hr |].
  apply bind_Undefined in H1 as [Hr | (? & ? & _ & H1)];
    [by apply sensor_loop_defined in Hr | discriminate].
Qed.

Lemma synthesize_defined sensorNames fuel params index n g :
  synthesize sensorNames fuel params index n g <> Undefined.
Proof.
  revert g. induction n as [| n IH]; intros g; simpl; [discriminate |].
  rewrite bind_Undefined. intros [Hr | (? & ? & _ & H1)];
    [by apply generateOnePose_defined in Hr |].
  apply bind_Undefined in H1 as [Hr | (? & ? & _ & H1)]; [by apply IH in Hr | discriminate].
Qed.

Lemma poses_loop_defined sensorNames fuel params index n i vecPoses g :
  poses_loop sensorNames fuel params index n i vecPoses g <> Undefined.
Proof.
  rewrite poses_loop_synthesize, bind_Undefined.
  intros [Hr | (? & ? & _ & H1)]; [by apply synthesize_defined in Hr | discriminate].
Qed.

Lemma poses_loop_length sensorNames fuel params index n i vecPoses g poses g' :
  poses_loop sensorNames fuel params index n i vecPoses g = Ok poses g' ->
  length poses = (length vecPoses + n)%nat.
Proof.
  intros (synth & Hs & ->)%poses_loop_Ok. apply synthesize_Ok in Hs as [Hlen _].
  by rewrite length_app, length_emit_all, Hlen.
Qed.

(** With a matching rule and a positive use count the frame planner is
    the pose loop on the matched rule's parameters. *)
Lemma generatePoses4oneFrame_matched rules sensorNames fuel useCount index trace rule g :
  first_rule rules index trace = Some rule ->
  useCount <> 0%N ->
  generatePoses4oneFrame rules sensorNames fuel useCount index trace g =
  poses_loop sensorNames fuel rule.2 index (N.to_nat useCount) 0%N [] g.
Proof.
  intros Hrule Hcount. unfold generatePoses4oneFrame.
  destruct (N.eqb_spec useCount 0) as [| _]; [done |]. rewrite Hrule.
  unfold bind.
  destruct (poses_loop _ _ _ _ _ _ _ g) as [poses g' | | |] eqn:Hloop; try done.
  apply poses_loop_length in Hloop. simpl in Hloop.
  destruct (N.eqb_spec (N.of_nat (length poses)) 0); [lia | done].
Qed.

(** The throw site for a frame without a rule: an exception up to index
    37, the last position inside the literal, and undefined behaviour
    beyond. *)
Lemma throw_no_rule_found_spec {A} (index : N) (g : mt19937_64) :
  @throw_no_rule_found mt19937_64 A index g =
  if (index <=? 37)%N then Throw (NoMatchingRule index) g else Undefined.
Proof.
  unfold throw_no_rule_found, literal_plus.
  change (N.of_nat (String.length "no perturbation rule found for frame ")) with 37%N.
  by destruct (index <=? 37)%N.
Qed.

Lemma throw_no_rule_found_Throw {A} (index : N) (g : mt19937_64) e g' :
  @throw_no_rule_found mt19937_64 A index g = Throw e g' ->
  e = NoMatchingRule index /\ g' = g /\ (index <= 37)%N.
Proof.
  rewrite throw_no_rule_found_spec. destruct (N.leb_spec index 37); [| discriminate].
  by intros [= <- <-].
Qed.

Lemma throw_no_rule_found_Undefined {A} (index : N) (g : mt19937_64) :
  @throw_no_rule_found mt19937_64 A index g = Undefined <-> (37 < index)%N.
Proof.
  rewrite throw_no_rule_found_spec. destruct (N.leb_spec index 37); split; try done; lia.
Qed.

Lemma generatePoses4oneFrame_unmatched rules sensorNames fuel useCount index trace g :
  first_rule rules index trace = None ->
  useCount <> 0%N ->
  generatePoses4oneFrame rules sensorNames fuel useCount index trace g =
  throw_no_rule_found index g.
Proof.
  intros Hrule Hcount. unfold generatePoses4oneFrame.
  destruct (N.eqb_spec useCount 0) as [| _]; [done |]. by rewrite Hrule.
Qed.

Lemma generatePoses4oneFrame_unmatched_Ok rules sensorNames fuel useCount index trace g
    poses g' :
  first_rule rules index trace = None ->
  useCount <> 0%N ->
  generatePoses4oneFrame rules sensorNames fuel useCount index trace g <> Ok poses g'.
Proof.
  intros Hrule Hcount. rewrite generatePoses4oneFrame_unmatched by done.
  rewrite throw_no_rule_found_spec. by destruct (index <=? 37)%N.
Qed.

(** The frame planner has undefined behaviour exactly when it reaches
    its throw site with an index beyond the literal. *)
Lemma generatePoses4oneFrame_Undefined rules sensorNames fuel useCount index trace g :
  generatePoses4oneFrame rules sensorNames fuel useCount index trace g = Undefined <->
  useCount <> 0%N /\ first_rule rules index trace = None /\ (37 < index)%N.
Proof.
  destruct (N.eq_dec useCount 0%N) as [-> | Hcount].
  { split; [discriminate | by intros [? _]]. }
  destruct (first_rule rules index trace) as [rule |] eqn:Hrule.
  - rewrite (generatePoses4oneFrame_matched _ _ _ _ _ _ rule) by done.
    split; [by intros ?%poses_loop_defined | by intros (_ & ? & _)].
  - rewrite generatePoses4oneFrame_unmatched, throw_no_rule_found_Undefined by done.
    split; [by intros ? | by intros (_ & _ & ?)].
Qed.

Lemma generatePoses4oneFrame_zero rules sensorNames fuel index trace g :
  generatePoses4oneFrame rules sensorNames fuel 0%N index trace g = Ok [] g.
Proof. reflexivity. Qed.

Lemma generatePoses4oneFrame_length rules sensorNames fuel useCount index trace g poses g' :
  generatePoses4oneFrame rules sensorNames fuel useCount index trace g = Ok poses g' ->
  length poses = N.to_nat useCount.
Proof.
  destruct (N.eq_dec useCount 0%N) as [-> | Hcount].
  - by intros [= <- <-].
  - destruct (first_rule rules index trace) as [rule |] eqn:Hrule.
    + rewrite (generatePoses4oneFrame_matched _ _ _ _ _ _ rule) by done.
      by intros ->%poses_loop_length.
    + intros Hrun. by apply generatePoses4oneFrame_unmatched_Ok in Hrun.
Qed.

Lemma first_rule_app rules1 rule rules2 index trace :
  Forall (fun r : Rule => doLabelsMatch trace index r.1 = false) rules1 ->
  doLabelsMatch trace index rule.1 = true ->
  first_rule (rules1 ++ rule :: rules2) index trace = Some rule.
Proof.
  intros Hpre Hrule. unfold first_rule.
  induction Hpre as [| r rules1 Hr _ IH]; simpl.
  - by rewrite Hrule.
  - by rewrite Hr.
Qed.

Lemma first_rule_None rules index trace :
  first_rule rules index trace = None <->
  Forall (fun r : Rule => doLabelsMatch trace index r.1 = false) rules.
Proof.
  unfold first_rule. induction rules as [| r rules IH]; simpl.
  - split; [constructor | done].
  - destruct (doLabelsMatch trace index r.1) eqn:Hr.
    + split; [done |]. intros Hall%Forall_cons_1. destruct Hall; congruence.
    + rewrite IH. split; [by constructor |]. by intros [_ ?]%Forall_cons_1.
Qed.

End FrameFacts.

(** ** Outcomes of the trace planner and of the shuffle stage *)

Section TraceFacts.
Context `{StdRandom}.

Lemma generatePoses4oneFrame_Throw rules sensorNames fuel useCount index trace g e g' :
  generatePoses4oneFrame rules sensorNames fuel useCount index trace g = Throw e g' ->
  (e = NoMatchingRule index /\ g' = g /\ useCount <> 0%N /\
   first_rule rules index trace = None) \/
  is_UnknownDistribution e.
Proof.
  destruct (N.eq_dec useCount 0%N) as [-> | Hcount]; [discriminate |].
  destruct (first_rule rules index trace) as [rule |] eqn:Hrule.
  - rewrite (generatePoses4oneFrame_matched _ _ _ _ _ _ rule) by done.
    intros Hloop%poses_loop_Throw. by right.
  - rewrite generatePoses4oneFrame_unmatched by done.
    intros (-> & -> & _)%throw_no_rule_found_Throw. by left.
Qed.

(** Every list that the frame loop appends is what the frame planner
    returned for the use count at that position. *)
Lemma frames_loop_Ok rules sensorNames fuel vecUseCounts trace n i vecVecPoses g vv g' :
  frames_loop rules sensorNames fuel vecUseCounts trace n i vecVecPoses g = Ok vv g' ->
  exists new,
    vv = vecVecPoses ++ new /\ length new = n /\
    forall (j : nat) Poses, new !! j = Some Poses ->
      exists useCount ga gb,
        vecUseCounts !! (N.to_nat i + j)%nat = Some useCount /\
        generatePoses4oneFrame rules sensorNames fuel useCount (i + N.of_nat j)%N trace ga
          = Ok Poses gb.
Proof.
  revert i vecVecPoses g. induction n as [| n IH]; intros i vecVecPoses g; simpl.
  - intros [= <- <-]. exists []. rewrite app_nil_r. by split_and!.
  - destruct (vecUseCounts !! N.to_nat i) as [useCount |] eqn:Hat; [| discriminate].
    rewrite bind_Ok. intros (Poses & g1 & Hone & Hrest).
    apply IH in Hrest as (new & -> & Hlen & Hnew).
    exists (Poses :: new). rewrite <- app_assoc. split_and!; [done | simpl; lia |].
    intros [| j] Poses' Hj.
    + injection Hj as <-. exists useCount, g, g1.
      change (N.of_nat 0) with 0%N. by rewrite Nat.add_0_r, N.add_0_r.
    + apply Hnew in Hj as (c & ga & gb & Hc & Hrun). exists c, ga, gb.
      replace (N.to_nat i + S j)%nat with (N.to_nat (i + 1) + j)%nat by lia.
      by replace (i + N.of_nat (S j))%N with (i + 1 + N.of_nat j)%N by lia.
Qed.

Lemma frames_loop_Throw rules sensorNames fuel vecUseCounts trace n i vecVecPoses g e g' :
  frames_loop rules sensorNames fuel vecUseCounts trace n i vecVecPoses g = Throw e g' ->
  ~ is_FrameCountMismatch e.
Proof.
  revert i vecVecPoses g. induction n as [| n IH]; intros i vecVecPoses g; simpl.
  - discriminate.
  - destruct (vecUseCounts !! N.to_nat i) as [useCount |].
    + rewrite bind_Throw. intros [Hone | (? & ? & _ & Hrest)]; [| by eapply IH].
      apply generatePoses4oneFrame_Throw in Hone as [(-> & _) | Hk]; [tauto |].
      destruct e; simpl in *; tauto.
    + intros [= <- <-]. simpl. tauto.
Qed.

(** Where the frame loop has undefined behaviour: at a frame beyond
    index 37 that has a positive use count and no matching rule. *)
Lemma frames_loop_Undefined rules sensorNames fuel vecUseCounts trace n i vecVecPoses g :
  frames_loop rules sensorNames fuel vecUseCounts trace n i vecVecPoses g = Undefined ->
  exists k useCount,
    (i <= k < i + N.of_nat n)%N /\ (37 < k)%N /\
    vecUseCounts !! N.to_nat k = Some useCount /\ useCount <> 0%N /\
    first_rule rules k trace = None.
Proof.
  revert i vecVecPoses g. induction n as [| n IH]; intros i vecVecPoses g; simpl.
  - discriminate.
  - destruct (vecUseCounts !! N.to_nat i) as [useCount |] eqn:Hat; [| discriminate].
    rewrite bind_Undefined. intros [Hone | (Poses & g1 & _ & Hrest)].
    + apply generatePoses4oneFrame_Undefined in Hone as (Hcount & Hnone & Hbeyond).
      exists i, useCount. split_and!; [lia | lia | done ..].
    + apply IH in Hrest as (k & c & Hk & Hrest). exists k, c. split; [lia | done].
Qed.

Lemma generatePoses4vecFrames_Undefined files rules sensorNames fuel vecUseCounts name g :
  generatePoses4vecFrames files rules sensorNames fuel vecUseCounts name g = Undefined ->
  exists trace k useCount,
    files name = Some trace /\
    (k < getNumDatapoints trace)%N /\ (37 < k)%N /\
    vecUseCounts !! N.to_nat k = Some useCount /\ useCount <> 0%N /\
    first_rule rules k trace = None.
Proof.
  unfold generatePoses4vecFrames.
  destruct (files name) as [trace |] eqn:Hfile; [| discriminate].
  destruct (N.eqb_spec (getNumDatapoints trace) (to_uint32 (N.of_nat (length vecUseCounts))))
    as [Hnum | _]; [| discriminate].
  simpl. rewrite bind_Undefined. intros [Hloop | (vv & g1 & _ & Hsize)].
  - apply frames_loop_Undefined in Hloop as (k & c & Hk & Hrest).
    exists trace, k, c. split; [done |]. split; [rewrite Hnum; lia | done].
  - by destruct (negb _).
Qed.

Lemma generatePoses4vecFrames_Ok files rules sensorNames fuel vecUseCounts name g vv g' :
  generatePoses4vecFrames files rules sensorNames fuel vecUseCounts name g = Ok vv g' ->
  exists trace,
    files name = Some trace /\
    getNumDatapoints trace = to_uint32 (N.of_nat (length vecUseCounts)) /\
    frames_loop rules sensorNames fuel vecUseCounts trace
      (N.to_nat (to_uint32 (N.of_nat (length vecUseCounts)))) 0%N [] g = Ok vv g'.
Proof.
  unfold generatePoses4vecFrames.
  destruct (files name) as [trace |]; [| discriminate].
  destruct (N.eqb_spec (getNumDatapoints trace) (to_uint32 (N.of_nat (length vecUseCounts))))
    as [Hnum | _]; [| discriminate].
  simpl. rewrite bind_Ok. intros (vv' & g1 & Hloop & Hcheck).
  destruct (negb _); [discriminate |]. injection Hcheck as <- <-. eauto.
Qed.

(** The reshuffle loop exits only on a vector whose first pose is not
    flipped. *)
Lemma reshuffle_loop_Ok fuel flattenedPoses g poses g' :
  reshuffle_loop fuel flattenedPoses g = Ok poses g' ->
  exists first rest, poses = first :: rest /\ Pose.flip first = false.
Proof.
  revert flattenedPoses g. induction fuel as [| fuel IH]; intros [| first rest] g; simpl;
    try discriminate.
  - destruct (Pose.flip first) eqn:Hflip; [discriminate |]. intros [= <- <-]. eauto.
  - destruct (Pose.flip first) eqn:Hflip.
    + destruct (shuffle (first :: rest) g) as [l g1]. apply IH.
    + intros [= <- <-]. eauto.
Qed.

End TraceFacts.

(** The frame counter is a [uint32_t]: with 2^32 use counts and an empty
    trace, [numFrames] wraps to zero, the count check passes and the loop
    does not run. *)
Lemma generatePoses4vecFrames_wrap `{StdRandom}
    files rules sensorNames fuel vecUseCounts labelsFileName trace g :
  files labelsFileName = Some trace ->
  getNumDatapoints trace = 0%N ->
  to_uint32 (N.of_nat (length vecUseCounts)) = 0%N ->
  generatePoses4vecFrames files rules sensorNames fuel vecUseCounts labelsFileName g
    = Ok [] g.
Proof.
  intros Hfile Hnum Hwrap. unfold generatePoses4vecFrames.
  rewrite Hfile, Hnum, Hwrap. reflexivity.
Qed.

(** ** The redraw budget *)

Lemma settles_refl {G A} (r : Res G A) : settles r r.
Proof. by right. Qed.

Lemma settles_bind {G A B} (m m' : M G A) (k k' : A -> M G B) g :
  settles (m g) (m' g) ->
  (forall a g1, settles (k a g1) (k' a g1)) ->
  settles (bind m k g) (bind m' k' g).
Proof.
  intros [Hm | Hm] Hk; unfold bind.
  - rewrite Hm. by left.
  - rewrite <- Hm.
    destruct (m g) as [a g1 | e g1 | |]; [apply Hk | by right | by left | by right].
Qed.

Section Budget.
Context `{StdRandom}.

Lemma genGaussianRV_loop_settles fuel fuel' max d x g :
  (fuel <= fuel')%nat ->
  settles (genGaussianRV_loop fuel max d x g) (genGaussianRV_loop fuel' max d x g).
Proof.
  intros Hle. revert fuel' Hle d x g.
  induction fuel as [| fuel IH]; intros fuel' Hle d x g.
  - destruct fuel'; simpl; destruct (_ || _); solve [by left | by right].
  - destruct fuel' as [| fuel']; [lia |]. simpl. destruct (_ || _); [| by right].
    destruct (normal_distribution_call d g) as [[x' d'] g1]. apply IH. lia.
Qed.

Lemma getRandom_settles fuel fuel' rParams g :
  (fuel <= fuel')%nat ->
  settles (getRandom fuel rParams g) (getRandom fuel' rParams g).
Proof.
  intros Hle. unfold getRandom. destruct (_ || _); [| apply settles_refl].
  unfold genGaussianRV. apply settles_bind; [| intros; apply settles_refl].
  unfold genGaussianRV_double.
  destruct (normal_distribution_call _ g) as [[x d'] g1].
  by apply genGaussianRV_loop_settles.
Qed.

Lemma sensor_loop_settles fuel fuel' params sensorNames aPose g :
  (fuel <= fuel')%nat ->
  settles (sensor_loop fuel params sensorNames aPose g)
          (sensor_loop fuel' params sensorNames aPose g).
Proof.
  intros Hle. revert aPose g.
  induction sensorNames as [| n rest IH]; intros aPose g; simpl; [apply settles_refl |].
  apply settles_bind; [by apply getRandom_settles |]. intros yaw g1.
  apply settles_bind; [by apply getRandom_settles |]. intros pitch g2.
  apply settles_bind; [by apply getRandom_settles |]. intros roll g3.
  apply IH.
Qed.

Lemma generateOnePose_settles fuel fuel' sensorNames params g :
  (fuel <= fuel')%nat ->
  settles (generateOnePose sensorNames fuel params g)
          (generateOnePose sensorNames fuel' params g).
Proof.
  intros Hle. unfold generateOnePose.
  apply settles_bind; [by apply getRandom_settles |]. intros shift g1.
  apply settles_bind; [by apply getRandom_settles |]. intros rotation g2.
  apply settles_bind; [by apply getRandom_settles |]. intros forward g3.
  apply settles_bind; [by apply sensor_loop_settles |]. intros; apply settles_refl.
Qed.

Lemma poses_loop_settles fuel fuel' sensorNames params index n i vecPoses g :
  (fuel <= fuel')%nat ->
  settles (poses_loop sensorNames fuel params index n i vecPoses g)
          (poses_loop sensorNames fuel' params index n i vecPoses g).
Proof.
  intros Hle. revert i vecPoses g.
  induction n as [| n IH]; intros i vecPoses g; simpl; [apply settles_refl |].
  apply settles_bind; [by apply generateOnePose_settles |]. intros onePose g1.
  destruct (_ && _); apply IH.
Qed.

Lemma generatePoses4oneFrame_settles fuel fuel' rules sensorNames useCount index trace g :
  (fuel <= fuel')%nat ->
  settles (generatePoses4oneFrame rules sensorNames fuel useCount index trace g)
          (generatePoses4oneFrame rules sensorNames fuel' useCount index trace g).
Proof.
  intros Hle. unfold generatePoses4oneFrame.
  destruct (useCount =? 0)%N; [apply settles_refl |].
  apply settles_bind; [| intros; apply settles_refl].
  destruct (first_rule rules index trace); [by apply poses_loop_settles | apply settles_refl].
Qed.

Lemma frames_loop_settles fuel fuel' rules sensorNames vecUseCounts trace n i vecVecPoses g :
  (fuel <= fuel')%nat ->
  settles (frames_loop rules sensorNames fuel vecUseCounts trace n i vecVecPoses g)
          (frames_loop rules sensorNames fuel' vecUseCounts trace n i vecVecPoses g).
Proof.
  intros Hle. revert i vecVecPoses g.
  induction n as [| n IH]; intros i vecVecPoses g; simpl; [apply settles_refl |].
  destruct (vecUseCounts !! N.to_nat i); [| apply settles_refl].
  apply settles_bind; [by apply generatePoses4oneFrame_settles |]. intros; apply IH.
Qed.

Lemma generatePoses4vecFrames_settles fuel fuel' files rules sensorNames vecUseCounts name g :
  (fuel <= fuel')%nat ->
  settles (generatePoses4vecFrames files rules sensorNames fuel vecUseCounts name g)
          (generatePoses4vecFrames files rules sensorNames fuel' vecUseCounts name g).
Proof.
  intros Hle. unfold generatePoses4vecFrames.
  destruct (files name); [| apply settles_refl].
  destruct (negb _); [apply settles_refl |].
  apply settles_bind; [by apply frames_loop_settles | intros; apply settles_refl].
Qed.

Lemma reshuffle_loop_settles fuel fuel' flattenedPoses g :
  (fuel <= fuel')%nat ->
  settles (reshuffle_loop fuel flattenedPoses g) (reshuffle_loop fuel' flattenedPoses g).
Proof.
  intros Hle. revert fuel' Hle flattenedPoses g.
  induction fuel as [| fuel IH]; intros fuel' Hle [| first rest] g.
  - destruct fuel'; apply settles_refl.
  - destruct fuel'; simpl; destruct (Pose.flip first); solve [by left | by right].
  - destruct fuel'; apply settles_refl.
  - destruct fuel' as [| fuel']; [lia |]. simpl. destruct (Pose.flip first); [| by right].
    destruct (shuffle (first :: rest) g) as [l g1]. apply IH. lia.
Qed.

(** The outcome of a call does not depend on the redraw budget, once the
    budget is enough for the call to leave its loops. *)
Lemma generateShuffledPoses_settles fuel fuel' files rules sensorNames vecUseCounts name g :
  (fuel <= fuel')%nat ->
  settles (generateShuffledPoses files rules sensorNames fuel vecUseCounts name g)
          (generateShuffledPoses files rules sensorNames fuel' vecUseCounts name g).
Proof.
  intros Hle. unfold generateShuffledPoses.
  apply settles_bind; [by apply generatePoses4vecFrames_settles |].
  intros unshuffledPoses g1. destruct (_ =? _)%N; [apply settles_refl |].
  destruct (shuffle (concat unshuffledPoses) g1) as [l g2].
  by apply reshuffle_loop_settles.
Qed.

End Budget.

(** ** Label sources are consulted only through their answers *)

Section Determinism.
Context `{StdRandom}.

Lemma first_rule_ext rules index t1 t2 :
  trace_equiv t1 t2 -> first_rule rules index t1 = first_rule rules index t2.
Proof.
  intros [_ Hmatch]. unfold first_rule.
  induction rules as [| r rules IH]; simpl; [done |].
  rewrite Hmatch. by destruct (doLabelsMatch t2 index r.1).
Qed.

Lemma generatePoses4oneFrame_ext rules sensorNames fuel useCount index t1 t2 g :
  trace_equiv t1 t2 ->
  generatePoses4oneFrame rules sensorNames fuel useCount index t1 g =
  generatePoses4oneFrame rules sensorNames fuel useCount index t2 g.
Proof.
  intros Hequiv. unfold generatePoses4oneFrame.
  by rewrite (first_rule_ext _ _ t1 t2).
Qed.

Lemma frames_loop_ext rules sensorNames fuel vecUseCounts t1 t2 n i vecVecPoses g :
  trace_equiv t1 t2 ->
  frames_loop rules sensorNames fuel vecUseCounts t1 n i vecVecPoses g =
  frames_loop rules sensorNames fuel vecUseCounts t2 n i vecVecPoses g.
Proof.
  intros Hequiv. revert i vecVecPoses g.
  induction n as [| n IH]; intros i vecVecPoses g; simpl; [done |].
  destruct (vecUseCounts !! N.to_nat i) as [useCount |]; [| done].
  unfold bind. rewrite (generatePoses4oneFrame_ext _ _ _ _ _ t1 t2) by done.
  destruct (generatePoses4oneFrame _ _ _ _ _ t2 g); auto.
Qed.

Lemma generatePoses4vecFrames_ext files1 files2 rules sensorNames fuel vecUseCounts name g :
  files_equiv files1 files2 ->
  generatePoses4vecFrames files1 rules sensorNames fuel vecUseCounts name g =
  generatePoses4vecFrames files2 rules sensorNames fuel vecUseCounts name g.
Proof.
  intros Hfiles. unfold generatePoses4vecFrames. specialize (Hfiles name).
  destruct (files1 name) as [t1 |], (files2 name) as [t2 |]; try done.
  destruct Hfiles as [Hnum Hmatch]. rewrite Hnum.
  destruct (negb _); [done |]. unfold bind.
  by rewrite (frames_loop_ext _ _ _ _ t1 t2).
Qed.

Lemma generateShuffledPoses_ext files1 files2 rules sensorNames fuel vecUseCounts name g :
  files_equiv files1 files2 ->
  generateShuffledPoses files1 rules sensorNames fuel vecUseCounts name g =
  generateShuffledPoses files2 rules sensorNames fuel vecUseCounts name g.
Proof.
  intros Hfiles. unfold generateShuffledPoses, bind.
  by rewrite (generatePoses4vecFrames_ext files1 files2).
Qed.

Lemma run_call_ext files1 files2 fuel self c1 c2 :
  files_equiv files1 files2 -> call_equiv c1 c2 ->
  run_call files1 fuel self c1 = run_call files2 fuel self c2.
Proof.
  intros Hfiles Hcall.
  destruct c1, c2; simpl in Hcall; try discriminate Hcall.
  - injection Hcall as <- <-. unfold run_call, observe.
    by rewrite (generateShuffledPoses_ext files1 files2).
  - injection Hcall as <- <-. unfold run_call, observe.
    by rewrite (generatePoses4vecFrames_ext files1 files2).
  - destruct Hcall as (<- & <- & Hequiv). unfold run_call, observe.
    by rewrite (generatePoses4oneFrame_ext _ _ _ _ _ trace trace0).
  - by injection Hcall as <-.
Qed.

Lemma run_calls_ext files1 files2 fuel self calls1 calls2 :
  files_equiv files1 files2 -> Forall2 call_equiv calls1 calls2 ->
  run_calls files1 fuel self calls1 = run_calls files2 fuel self calls2.
Proof.
  intros Hfiles Hcalls. revert self.
  induction Hcalls as [| c1 c2 calls1 calls2 Hc _ IH]; intros self; simpl; [done |].
  rewrite (run_call_ext files1 files2 fuel self c1 c2) by done.
  destruct (run_call files2 fuel self c2) as [out [self' |]]; [| done].
  by rewrite IH.
Qed.

End Determinism.

(** ** The sensor maps of a synthesized pose *)

Lemma lookup_map_insert {V} (k k' : string) (v : V) (m : gmap string V) :
  map_insert k v m !! k' =
  match m !! k' with
  | Some x => Some x
  | None => if String.eqb k k' then Some v else None
  end.
Proof.
  unfold map_insert. destruct (String.eqb_spec k k') as [<- | Hne].
  - destruct (m !! k) eqn:Hk; [by rewrite Hk |]. by rewrite lookup_insert_eq.
  - destruct (m !! k) eqn:Hk; [| rewrite lookup_insert_ne by done];
      by destruct (m !! k').
Qed.

Section SensorMaps.
Context `{StdRandom}.

Lemma sensor_loop_draws fuel params sensorNames aPose g :
  sensor_loop fuel params sensorNames aPose g =
  bind (sensor_draws fuel params sensorNames)
    (fun draws => ret (record_draws draws aPose)) g.
Proof.
  revert aPose g. induction sensorNames as [| n rest IH]; intros aPose g; simpl.
  - reflexivity.
  - rewrite bind_assoc. apply bind_ext. intros yaw g1 _.
    rewrite bind_assoc. apply bind_ext. intros pitch g2 _.
    rewrite bind_assoc. apply bind_ext. intros roll g3 _.
    rewrite bind_assoc, IH. apply bind_ext. by intros draws g4 _.
Qed.

Lemma sensor_draws_names fuel params sensorNames g draws g' :
  sensor_draws fuel params sensorNames g = Ok draws g' -> draws.*1 = sensorNames.
Proof.
  revert g draws. induction sensorNames as [| n rest IH]; intros g draws; simpl.
  - by intros [= <- <-].
  - rewrite bind_Ok. intros (? & ? & _ & H1).
    apply bind_Ok in H1 as (? & ? & _ & H1). apply bind_Ok in H1 as (? & ? & _ & H1).
    apply bind_Ok in H1 as (ds & ? & Hds & [= <- <-]).
    simpl. f_equal. by eapply IH.
Qed.

Lemma record_draws_lookup draws aPose name :
  Pose.sensor_yaw (record_draws draws aPose) !! name =
    keep (Pose.sensor_yaw aPose !! name) ((fun d => d.1.1) <$> first_draw name draws) /\
  Pose.sensor_pitch (record_draws draws aPose) !! name =
    keep (Pose.sensor_pitch aPose !! name) ((fun d => d.1.2) <$> first_draw name draws) /\
  Pose.sensor_roll (record_draws draws aPose) !! name =
    keep (Pose.sensor_roll aPose !! name) ((fun d => d.2) <$> first_draw name draws).
Proof.
  revert aPose. induction draws as [| [n [[yaw pitch] roll]] rest IH]; intros aPose.
  - simpl. unfold keep. by repeat case_match.
  - cbn [record_draws first_draw].
    destruct (IH (insert_sensor_roll n roll
                    (insert_sensor_pitch n pitch (insert_sensor_yaw n yaw aPose))))
      as (-> & -> & ->).
    cbn [insert_sensor_roll insert_sensor_pitch insert_sensor_yaw
         Pose.sensor_yaw Pose.sensor_pitch Pose.sensor_roll].
    rewrite !lookup_map_insert. unfold keep.
    destruct (String.eqb n name); simpl; by repeat case_match.
Qed.

Lemma record_draws_scalars draws aPose :
  Pose.shift (record_draws draws aPose) = Pose.shift aPose /\
  Pose.rotation (record_draws draws aPose) = Pose.rotation aPose /\
  Pose.forward (record_draws draws aPose) = Pose.forward aPose.
Proof.
  revert aPose. induction draws as [| [n [[yaw pitch] roll]] rest IH]; intros aPose;
    [done |].
  cbn [record_draws].
  by destruct (IH (insert_sensor_roll n roll
                     (insert_sensor_pitch n pitch (insert_sensor_yaw n yaw aPose))))
    as (-> & -> & ->).
Qed.

(** A synthesized pose in terms of its draws: the scalar fields are the
    first three draws, and each sensor map holds, for every name, the
    draw of the first position that carries the name. *)
Lemma generateOnePose_draws sensorNames fuel params g pose g' :
  generateOnePose sensorNames fuel params g = Ok pose g' ->
  exists scalars g1 draws,
    scalar_draws fuel params g = Ok scalars g1 /\
    sensor_draws fuel params sensorNames g1 = Ok draws g' /\
    draws.*1 = sensorNames /\
    Pose.shift pose = scalars.1.1 /\
    Pose.rotation pose = scalars.1.2 /\
    Pose.forward pose = scalars.2 /\
    forall name,
      Pose.sensor_yaw pose !! name = (fun d => d.1.1) <$> first_draw name draws /\
      Pose.sensor_pitch pose !! name = (fun d => d.1.2) <$> first_draw name draws /\
      Pose.sensor_roll pose !! name = (fun d => d.2) <$> first_draw name draws.
Proof.
  unfold generateOnePose. rewrite bind_Ok. intros (shift & ga & Hshift & H1).
  apply bind_Ok in H1 as (rotation & gb & Hrot & H1).
  apply bind_Ok in H1 as (forward & g1 & Hfwd & H1).
  apply bind_Ok in H1 as (aPose & g2 & Hloop & [= <- <-]).
  rewrite sensor_loop_draws in Hloop.
  apply bind_Ok in Hloop as (draws & g3 & Hdraws & [= <- <-]).
  exists (shift, rotation, forward), g1, draws. split_and!.
  - unfold scalar_draws, bind. by rewrite Hshift, Hrot, Hfwd.
  - done.
  - by eapply sensor_draws_names.
  - simpl. by destruct (record_draws_scalars draws
      {| Pose.shift := shift; Pose.rotation := rotation; Pose.forward := forward;
         Pose.sensor_yaw := ∅; Pose.sensor_pitch := ∅; Pose.sensor_roll := ∅;
         Pose.flip := false; Pose.srcFrame := 0%N |}) as (-> & _).
  - simpl. by destruct (record_draws_scalars draws
      {| Pose.shift := shift; Pose.rotation := rotation; Pose.forward := forward;
         Pose.sensor_yaw := ∅; Pose.sensor_pitch := ∅; Pose.sensor_roll := ∅;
         Pose.flip := false; Pose.srcFrame := 0%N |}) as (_ & -> & _).
  - simpl. by destruct (record_draws_scalars draws
      {| Pose.shift := shift; Pose.rotation := rotation; Pose.forward := forward;
         Pose.sensor_yaw := ∅; Pose.sensor_pitch := ∅; Pose.sensor_roll := ∅;
         Pose.flip := false; Pose.srcFrame := 0%N |}) as (_ & _ & ->).
  - intros name. cbn [Pose.sensor_yaw Pose.sensor_pitch Pose.sensor_roll].
    destruct (record_draws_lookup draws
      {| Pose.shift := shift; Pose.rotation := rotation; Pose.forward := forward;
         Pose.sensor_yaw := ∅; Pose.sensor_pitch := ∅; Pose.sensor_roll := ∅;
         Pose.flip := false; Pose.srcFrame := 0%N |} name) as (-> & -> & ->).
    cbn [Pose.sensor_yaw Pose.sensor_pitch Pose.sensor_roll].
    by rewrite !lookup_empty.
Qed.

End SensorMaps.

Lemma first_draw_first_index {V} (draws : list (string * V)) (i : nat) name :
  draws.*1 !! i = Some name ->
  (forall k, (k < i)%nat -> draws.*1 !! k <> Some name) ->
  exists d, draws !! i = Some (name, d) /\ first_draw name draws = Some d.
Proof.
  revert i. induction draws as [| [n v] rest IH]; intros i Hi Hfirst; [done |].
  destruct i as [| i]; simpl in *.
  - injection Hi as ->. exists v. by rewrite String.eqb_refl.
  - destruct (String.eqb_spec n name) as [-> | Hne].
    + by destruct (Hfirst 0%nat ltac:(lia)).
    + apply IH; [done |]. intros k Hk. apply (Hfirst (S k)). lia.
Qed.

Lemma PoseGenerator_new_names `{StdRandom} `{ProjMetaData}
    configRules sensorNames sensorNames' seed pg :
  PoseGenerator_new configRules sensorNames seed = inr pg ->
  exists pg',
    PoseGenerator_new configRules sensorNames' seed = inr pg' /\
    m_sensorNames pg' = sensorNames' /\ m_perturbRules pg' = m_perturbRules pg.
Proof.
  unfold PoseGenerator_new.
  destruct (build_rules configRules []) as [| rules]; [discriminate |].
  intros [= <-]. eauto.
Qed.

Lemma build_rules_inr `{StdRandom} `{ProjMetaData} configRules perturbRules rules :
  build_rules configRules perturbRules = inr rules ->
  rules = perturbRules ++
          map (fun rule : string * perturbParams.t =>
                 (stringMapFromSplitString rule.1, rule.2)) configRules.
Proof.
  revert perturbRules. induction configRules as [| rule rest IH]; intros perturbRules; simpl.
  - intros [= <-]. by rewrite app_nil_r.
  - destruct (check_conditions _); [discriminate |].
    intros ->%IH. by rewrite <- app_assoc.
Qed.

(** ** Poses within the hard limits *)

Section Within.
Context `{StdRandom}.

(** With a hard limit that is a binary32 number, what the sampler
    returns is within the limit. *)
Lemma getRandom_within fuel rParams g v g' :
  limit_representable rParams ->
  getRandom fuel rParams g = Ok v g' ->
  Qabs v <= randParams.max rParams.
Proof.
  intros [Hmax Hrep] Hrun.
  destruct (getRandom_Ok _ _ _ _ _ (binary32_binary64 _ Hrep) Hmax Hrun)
    as (d & -> & Hlo & Hhi).
  apply Qabs_Qle_condition. by apply double_to_float_bounded.
Qed.

Lemma scalar_draws_within fuel params g scalars g' :
  limits_representable params ->
  scalar_draws fuel params g = Ok scalars g' ->
  Qabs scalars.1.1 <= randParams.max (perturbParams.shift params) /\
  Qabs scalars.1.2 <= randParams.max (perturbParams.rotation params) /\
  Qabs scalars.2 <= randParams.max (perturbParams.forward params).
Proof.
  intros (Hs & Hr & Hf & _). unfold scalar_draws. rewrite bind_Ok.
  intros (shift & g1 & Hshift & H1). apply bind_Ok in H1 as (rotation & g2 & Hrot & H1).
  apply bind_Ok in H1 as (forward & g3 & Hfwd & [= <- <-]).
  simpl. split_and!; by eapply getRandom_within.
Qed.

Lemma sensor_draws_within fuel params sensorNames g draws g' :
  limits_representable params ->
  sensor_draws fuel params sensorNames g = Ok draws g' ->
  Forall (fun d : string * (float * float * float) =>
            Qabs d.2.1.1 <= randParams.max (perturbParams.sensor_yaw params) /\
            Qabs d.2.1.2 <= randParams.max (perturbParams.sensor_pitch params) /\
            Qabs d.2.2 <= randParams.max (perturbParams.sensor_roll params)) draws.
Proof.
  intros (_ & _ & _ & Hy & Hp & Hr).
  revert g draws. induction sensorNames as [| n rest IH]; intros g draws; simpl.
  - intros [= <- <-]. constructor.
  - rewrite bind_Ok. intros (yaw & g1 & Hyaw & H1).
    apply bind_Ok in H1 as (pitch & g2 & Hpitch & H1).
    apply bind_Ok in H1 as (roll & g3 & Hroll & H1).
    apply bind_Ok in H1 as (ds & g4 & Hds & [= <- <-]).
    constructor; [| by eapply IH].
    simpl. split_and!; by eapply getRandom_within.
Qed.

Lemma first_draw_elem {V} name (draws : list (string * V)) v :
  first_draw name draws = Some v -> (name, v) ∈ draws.
Proof.
  induction draws as [| [n v'] rest IH]; simpl; [done |].
  destruct (String.eqb_spec n name) as [-> | _].
  - intros [= ->]. by left.
  - intros Hrest. right. by apply IH.
Qed.

Lemma generateOnePose_within sensorNames fuel params g pose g' :
  limits_representable params ->
  generateOnePose sensorNames fuel params g = Ok pose g' ->
  pose_within params pose.
Proof.
  intros Hlimits Hrun.
  apply generateOnePose_draws in Hrun
    as (scalars & g1 & draws & Hscalars & Hdraws & _ & Hsh & Hro & Hfo & Hmaps).
  destruct (scalar_draws_within _ _ _ _ _ Hlimits Hscalars) as (Hs & Hr & Hf).
  pose proof (sensor_draws_within _ _ _ _ _ _ Hlimits Hdraws) as Hall.
  rewrite Forall_forall in Hall. unfold pose_within. rewrite Hsh, Hro, Hfo.
  split_and!; try done; intros name v Hv; destruct (Hmaps name) as (Hy & Hp & Hro').
  - pose proof (eq_trans (eq_sym Hy) Hv) as Hfd.
    destruct (first_draw name draws) as [d |] eqn:Hd; [| done].
    injection Hfd as <-. by destruct (Hall _ (first_draw_elem _ _ _ Hd)) as (? & ? & ?).
  - pose proof (eq_trans (eq_sym Hp) Hv) as Hfd.
    destruct (first_draw name draws) as [d |] eqn:Hd; [| done].
    injection Hfd as <-. by destruct (Hall _ (first_draw_elem _ _ _ Hd)) as (? & ? & ?).
  - pose proof (eq_trans (eq_sym Hro') Hv) as Hfd.
    destruct (first_draw name draws) as [d |] eqn:Hd; [| done].
    injection Hfd as <-. by destruct (Hall _ (first_draw_elem _ _ _ Hd)) as (? & ? & ?).
Qed.

Lemma flipPose_within params pose :
  pose_within params pose -> pose_within params (flipPose pose).
Proof.
  intros (Hs & Hr & Hf & Hy & Hp & Hro). unfold pose_within. cbn [flipPose Pose.shift Pose.rotation
    Pose.forward Pose.sensor_yaw Pose.sensor_pitch Pose.sensor_roll].
  rewrite !Qmult_minus_one, !Qabs_opp. by split_and!.
Qed.

Lemma synthesize_within sensorNames fuel params index n g synth g' :
  limits_representable params ->
  synthesize sensorNames fuel params index n g = Ok synth g' ->
  Forall (pose_within params) synth.
Proof.
  intros Hlimits. revert g synth. induction n as [| n IH]; intros g synth; simpl.
  - intros [= <- <-]. constructor.
  - rewrite bind_Ok. intros (onePose & g1 & Hone & Hrest).
    apply bind_Ok in Hrest as (rest & g2 & Hrest & [= <- <-]).
    constructor; [| by eapply IH].
    by apply (generateOnePose_within _ _ _ _ _ _ Hlimits) in Hone.
Qed.

Lemma emit_all_within params flip i synth :
  Forall (pose_within params) synth -> Forall (pose_within params) (emit_all flip i synth).
Proof.
  intros Hall. revert i. induction Hall as [| s synth Hs _ IH]; intros i; simpl;
    constructor; [| apply IH].
  unfold emit. destruct (flip && _); [by apply flipPose_within | done].
Qed.

(** With hard limits that are binary32 numbers, every numeric field of
    every pose that the frame planner returns is within the limit of the
    matched rule for that field. *)
Lemma generatePoses4oneFrame_within rules sensorNames fuel useCount index trace rule g
    poses g' :
  first_rule rules index trace = Some rule ->
  limits_representable rule.2 ->
  generatePoses4oneFrame rules sensorNames fuel useCount index trace g = Ok poses g' ->
  Forall (pose_within rule.2) poses.
Proof.
  intros Hrule Hlimits Hrun.
  destruct (N.eq_dec useCount 0%N) as [-> | Hcount].
  - injection Hrun as <- _. constructor.
  - rewrite (generatePoses4oneFrame_matched _ _ _ _ _ _ rule) in Hrun by done.
    apply poses_loop_Ok in Hrun as (synth & Hsynth & ->).
    rewrite app_nil_l. by eapply emit_all_within, synthesize_within.
Qed.

End Within.

(** The literals of the fixture as the compiler reads them. *)
Lemma fixture_literals :
  Fixture.literal_0_8 == round_double (4 # 5) /\
  Fixture.literal_0_34 == round_double (17 # 50).
Proof. split; vm_compute; reflexivity. Qed.

(** Of the hard limits of the fixture, 0.8 (the forward limit of both
    rules) is the one that is not a binary32 number. *)
Lemma fixture_limits_representable :
  Forall (fun limit => binary32_representable limit) [0; 1 # 2; 2; 4; 5; 6; 8] /\
  ~ binary32_representable Fixture.literal_0_8 /\
  ~ limits_representable Fixture.perturbParams1 /\
  ~ limits_representable Fixture.perturbParams2.
Proof.
  assert (Hforward : ~ binary32_representable Fixture.literal_0_8)
    by (intros [Heq _]; vm_compute in Heq; discriminate Heq).
  split_and!.
  - repeat (constructor; [split; [reflexivity | discriminate] |]). constructor.
  - exact Hforward.
  - intros (_ & _ & [_ Hrep] & _). by apply Hforward.
  - intros (_ & _ & [_ Hrep] & _). by apply Hforward.
Qed.

(** ** The first pose of a frame *)

Section FirstPose.
Context `{StdRandom}.

Lemma generatePoses4oneFrame_head rules sensorNames fuel useCount index trace g poses g' :
  generatePoses4oneFrame rules sensorNames fuel useCount index trace g = Ok poses g' ->
  useCount <> 0%N ->
  exists first rest, poses = first :: rest /\ Pose.flip first = false.
Proof.
  intros Hrun Hcount.
  destruct (first_rule rules index trace) as [rule |] eqn:Hrule.
  - rewrite (generatePoses4oneFrame_matched _ _ _ _ _ _ rule) in Hrun by done.
    apply poses_loop_Ok in Hrun as (synth & Hsynth & ->).
    apply synthesize_Ok in Hsynth as [Hlen Hall].
    destruct synth as [| s synth]; [simpl in Hlen; lia |].
    apply Forall_cons_1 in Hall as [[Hflip _] _].
    exists s, (emit_all (perturbParams.flip rule.2) (0 + 1) synth).
    split; [| done]. cbn [app emit_all]. unfold emit.
    change (0 mod 2 =? 0)%N with true. by rewrite andb_false_r.
  - by apply generatePoses4oneFrame_unmatched_Ok in Hrun.
Qed.

Lemma concat_head (vecVecPoses : list (list Pose.t)) :
  Forall (fun Poses => Poses = [] \/
            exists first rest, Poses = first :: rest /\ Pose.flip first = false)
    vecVecPoses ->
  concat vecVecPoses <> [] ->
  exists first rest, concat vecVecPoses = first :: rest /\ Pose.flip first = false.
Proof.
  induction 1 as [| Poses vv [-> | (first & rest & -> & Hflip)] _ IH]; simpl.
  - done.
  - exact IH.
  - intros _. eauto.
Qed.

End FirstPose.

(** ** The uniform draws of a pose, output by output *)

(** The value of a uniform draw with a limit in range is a finite
    [float]. *)
Lemma uniform_value_finite rParams (w : N) :
  uniform_in_range rParams -> Qabs (uniform_value rParams w) <= FLT_MAX.
Proof.
  intros (_ & Hrep & Hmax & Hrange). unfold uniform_value.
  destruct (canonical_range w) as [Hu0 Hu1].
  destruct (uniform_double_bounded (randParams.max rParams) (canonical w) Hrep Hmax Hu0 Hu1)
    as [Hlo Hhi].
  apply double_to_float_finite, Qabs_Qle_condition. split; lra.
Qed.

Section UniformLayout.
Context `{StdRandom}.

Lemma mt19937_64_discard_add (a b : nat) (g : mt19937_64) :
  mt19937_64_discard (a + b) g = mt19937_64_discard b (mt19937_64_discard a g).
Proof.
  revert g. induction a as [| a IH]; intros g; [done |]. simpl. apply IH.
Qed.

Lemma getRandom_uniform_value fuel rParams g :
  randParams.distribution rParams = "uniform" ->
  getRandom fuel rParams g =
  Ok (uniform_value rParams (mt19937_64_next g).1) (mt19937_64_next g).2.
Proof.
  intros Hname. unfold getRandom. rewrite Hname. simpl.
  unfold genUniformRV, bind, genUniformRV_double, uniform_real_distribution,
    generate_canonical, uniform_value.
  by destruct (mt19937_64_next g) as [w g1].
Qed.

End UniformLayout.

(** From here on the value is used as a name, not computed. *)
Opaque uniform_value.

Section UniformFields.
Context `{StdRandom}.

Lemma sensor_draws_uniform fuel params sensorNames g :
  randParams.distribution (perturbParams.sensor_yaw params) = "uniform" ->
  randParams.distribution (perturbParams.sensor_pitch params) = "uniform" ->
  randParams.distribution (perturbParams.sensor_roll params) = "uniform" ->
  exists draws,
    sensor_draws fuel params sensorNames g =
      Ok draws (mt19937_64_discard (3 * length sensorNames) g) /\
    forall (i : nat) name, sensorNames !! i = Some name ->
      draws !! i =
      Some (name,
            (uniform_value (perturbParams.sensor_yaw params) (mt19937_64_output (3 * i) g),
             uniform_value (perturbParams.sensor_pitch params)
               (mt19937_64_output (3 * i + 1) g),
             uniform_value (perturbParams.sensor_roll params)
               (mt19937_64_output (3 * i + 2) g))).
Proof.
  intros Hy Hp Hr. revert g. induction sensorNames as [| n rest IH]; intros g.
  - exists []. split; [reflexivity | done].
  - destruct (IH (mt19937_64_discard 3 g)) as (draws & Hdraws & Hat).
    eexists. split.
    + cbn [sensor_draws]. unfold bind at 1. rewrite (getRandom_uniform_value _ _ _ Hy).
      unfold bind at 1. rewrite (getRandom_uniform_value _ _ _ Hp).
      unfold bind at 1. rewrite (getRandom_uniform_value _ _ _ Hr).
      unfold bind at 1. cbn [mt19937_64_discard] in Hdraws. rewrite Hdraws.
      unfold ret. f_equal.
      replace (3 * length (n :: rest))%nat with (3 + 3 * length rest)%nat by (simpl; lia).
      by rewrite mt19937_64_discard_add.
    + intros [| i] name Hi.
      * injection Hi as ->. reflexivity.
      * change (rest !! i = Some name) in Hi.
        assert (Htail : forall (x : string * (float * float * float)) l,
                  (x :: l) !! S i = l !! i) by reflexivity.
        rewrite Htail, (Hat i name Hi).
        unfold mt19937_64_output.
        replace (3 * S i)%nat with (3 + 3 * i)%nat by lia.
        replace (3 + 3 * i + 1)%nat with (3 + (3 * i + 1))%nat by lia.
        replace (3 + 3 * i + 2)%nat with (3 + (3 * i + 2))%nat by lia.
        by rewrite !mt19937_64_discard_add.
Qed.

Lemma uniform_params_uniform params :
  uniform_params params ->
  Forall (fun rParams => randParams.distribution rParams = "uniform")
    [perturbParams.shift params; perturbParams.rotation params;
     perturbParams.forward params; perturbParams.sensor_yaw params;
     perturbParams.sensor_pitch params; perturbParams.sensor_roll params].
Proof.
  intros Hall. eapply Forall_impl; [exact Hall |]. by intros rParams [? _].
Qed.

(** With all six distributions uniform, a pose takes 3 + 3 * n engine
    outputs in a fixed order. *)
Lemma generateOnePose_uniform_fields sensorNames fuel params g :
  Forall (fun rParams => randParams.distribution rParams = "uniform")
    [perturbParams.shift params; perturbParams.rotation params;
     perturbParams.forward params; perturbParams.sensor_yaw params;
     perturbParams.sensor_pitch params; perturbParams.sensor_roll params] ->
  exists pose,
    generateOnePose sensorNames fuel params g =
      Ok pose (mt19937_64_discard (3 + 3 * length sensorNames) g) /\
    Pose.shift pose = uniform_value (perturbParams.shift params) (mt19937_64_output 0 g) /\
    Pose.rotation pose =
      uniform_value (perturbParams.rotation params) (mt19937_64_output 1 g) /\
    Pose.forward pose =
      uniform_value (perturbParams.forward params) (mt19937_64_output 2 g) /\
    forall (i : nat) name,
      sensorNames !! i = Some name ->
      (forall k, (k < i)%nat -> sensorNames !! k <> Some name) ->
      Pose.sensor_yaw pose !! name =
        Some (uniform_value (perturbParams.sensor_yaw params)
                (mt19937_64_output (3 + 3 * i) g)) /\
      Pose.sensor_pitch pose !! name =
        Some (uniform_value (perturbParams.sensor_pitch params)
                (mt19937_64_output (3 + 3 * i + 1) g)) /\
      Pose.sensor_roll pose !! name =
        Some (uniform_value (perturbParams.sensor_roll params)
                (mt19937_64_output (3 + 3 * i + 2) g)).
Proof.
  intros Hall.
  apply Forall_cons_1 in Hall as [Hs Hall]. apply Forall_cons_1 in Hall as [Hr Hall].
  apply Forall_cons_1 in Hall as [Hf Hall]. apply Forall_cons_1 in Hall as [Hy Hall].
  apply Forall_cons_1 in Hall as [Hp Hall]. apply Forall_cons_1 in Hall as [Hro _].
  assert (Hscalars : scalar_draws fuel params g =
            Ok (uniform_value (perturbParams.shift params) (mt19937_64_output 0 g),
                uniform_value (perturbParams.rotation params) (mt19937_64_output 1 g),
                uniform_value (perturbParams.forward params) (mt19937_64_output 2 g))
               (mt19937_64_discard 3 g)).
  { unfold scalar_draws. unfold bind at 1. rewrite (getRandom_uniform_value _ _ _ Hs).
    unfold bind at 1. rewrite (getRandom_uniform_value _ _ _ Hr).
    unfold bind at 1. rewrite (getRandom_uniform_value _ _ _ Hf). reflexivity. }
  destruct (sensor_draws_uniform fuel params sensorNames (mt19937_64_discard 3 g) Hy Hp Hro)
    as (draws & Hdraws & Hat).
  cbn [mt19937_64_discard] in Hdraws.
  assert (Hrun : exists pose,
            generateOnePose sensorNames fuel params g =
            Ok pose (mt19937_64_discard (3 + 3 * length sensorNames) g)).
  { unfold generateOnePose. unfold bind at 1. rewrite (getRandom_uniform_value _ _ _ Hs).
    unfold bind at 1. rewrite (getRandom_uniform_value _ _ _ Hr).
    unfold bind at 1. rewrite (getRandom_uniform_value _ _ _ Hf).
    unfold bind at 1. rewrite sensor_loop_draws. unfold bind at 1. rewrite Hdraws.
    unfold ret. eexists. reflexivity. }
  destruct Hrun as [pose Hrun]. exists pose. split; [exact Hrun |].
  pose proof (generateOnePose_draws _ _ _ _ _ _ Hrun)
    as (scalars & g1 & draws' & Hscalars' & Hdraws' & Hnames & Hsh & Hrot & Hfw & Hmaps).
  rewrite Hscalars in Hscalars'. injection Hscalars' as <- <-.
  rewrite Hdraws in Hdraws'. injection Hdraws' as <-.
  split_and!; try done.
  intros i name Hi Hfirst. rewrite <- Hnames in Hi, Hfirst.
  destruct (first_draw_first_index draws i name Hi Hfirst) as (d & Hd & Hfd).
  rewrite Hnames in Hi. rewrite (Hat i name Hi) in Hd. injection Hd as <-.
  destruct (Hmaps name) as (Hyaw & Hpitch & Hroll).
  rewrite Hfd in Hyaw, Hpitch, Hroll. unfold mt19937_64_output in *.
  replace (3 + 3 * i + 1)%nat with (3 + (3 * i + 1))%nat by lia.
  replace (3 + 3 * i + 2)%nat with (3 + (3 * i + 2))%nat by lia.
  by rewrite !(mt19937_64_discard_add 3).
Qed.

Lemma mt19937_64_output_add (a b : nat) (g : mt19937_64) :
  mt19937_64_output (a + b) g = mt19937_64_output b (mt19937_64_discard a g).
Proof. unfold mt19937_64_output. by rewrite mt19937_64_discard_add. Qed.

(** A sequence of calls on an object is the sequence of its member
    functions run on the engine of the object, handed from call to
    call. *)
Lemma run_calls_outputs_from files fuel self calls :
  run_calls files fuel self calls =
  outputs_from files fuel (m_perturbRules self) (m_sensorNames self) (m_generator self) calls.
Proof.
  revert self. induction calls as [| c rest IH]; intros self; [done |].
  cbn [run_calls outputs_from].
  assert (Hstep : forall (A : Type) (out : A -> Output) (m : M mt19937_64 A),
            match observe self out m with
            | (o, Some self') => o :: run_calls files fuel self' rest
            | (o, None) => [o]
            end =
            match bind m (fun a => ret (out a)) (m_generator self) with
            | Ok o g' =>
                o :: outputs_from files fuel (m_perturbRules self) (m_sensorNames self) g' rest
            | Throw e g' =>
                out_throw e ::
                outputs_from files fuel (m_perturbRules self) (m_sensorNames self) g' rest
            | OutOfFuel => [out_hang]
            | Undefined => [out_undefined]
            end).
  { intros A out m. unfold observe, bind, ret.
    destruct (m (m_generator self)) as [a g' | e g' | |]; [| | done | done];
      by rewrite IH. }
  destruct c; apply Hstep.
Qed.

(** Calls of [generateOnePose] with uniform parameters: the call at
    position [k] starts [k * (3 + 3 * n)] outputs into the stream of the
    engine. *)
Lemma outputs_from_uniform files fuel rules sensorNames g paramss :
  Forall uniform_params paramss ->
  forall (k : nat) params, paramss !! k = Some params ->
    let n := (3 + 3 * length sensorNames)%nat in
    exists pose,
      outputs_from files fuel rules sensorNames g (map call_generateOnePose paramss) !! k
        = Some (out_pose pose) /\
      generateOnePose sensorNames fuel params (mt19937_64_discard (k * n) g)
        = Ok pose (mt19937_64_discard (S k * n) g) /\
      Pose.shift pose =
        uniform_value (perturbParams.shift params) (mt19937_64_output (k * n) g) /\
      Pose.rotation pose =
        uniform_value (perturbParams.rotation params) (mt19937_64_output (k * n + 1) g) /\
      Pose.forward pose =
        uniform_value (perturbParams.forward params) (mt19937_64_output (k * n + 2) g).
Proof.
  intros Hall k params Hk n. revert g k Hk.
  induction Hall as [| p paramss Hp _ IH]; intros g k Hk; [done |].
  destruct (generateOnePose_uniform_fields sensorNames fuel p g
              (uniform_params_uniform p Hp))
    as (pose0 & Hrun0 & Hs0 & Hr0 & Hf0 & _).
  fold n in Hrun0.
  cbn [map outputs_from member]. unfold bind at 1. rewrite Hrun0. unfold ret.
  destruct k as [| k].
  - injection Hk as <-. exists pose0.
    cbn [Nat.mul Nat.add mt19937_64_discard]. rewrite Nat.add_0_r.
    by split_and!.
  - change ((p :: paramss) !! S k = Some params) with (paramss !! k = Some params) in Hk.
    destruct (IH (mt19937_64_discard n g) k Hk) as (pose & Hat & Hrun & Hs & Hr & Hf).
    exists pose.
    assert (Hpos : forall j : nat, (S k * n + j = n + (k * n + j))%nat) by (intros j; lia).
    assert (Hpos0 : (S k * n = n + k * n)%nat) by lia.
    assert (Hpos1 : (S (S k) * n = n + S k * n)%nat) by lia.
    rewrite !Hpos, Hpos0, Hpos1, !mt19937_64_output_add, !mt19937_64_discard_add.
    split; [exact Hat |]. split; [exact Hrun |]. split; [exact Hs |].
    split; [rewrite Hr | rewrite Hf]; by rewrite mt19937_64_output_add.
Qed.

End UniformFields.

Transparent uniform_value.

(** ** The claims *)

(** The rejection loop of [genGaussianRV] has the same gap: it accepts
    the [double] 0.79999999981 for the hard limit 0.8, and the [float]
    returned is 0.800000011920929. *)
Lemma genGaussianRV_float_exceeds_max :
  let rParams := randParams.mk "gaussian" (7205759403792794 # 9007199254740992) (1 # 2) in
  let g := [11068046443366318080%N] in
  exists (d : double) (v : float) g',
    @genGaussianRV_double (Scripted.random (fun _ => [])) 0 rParams g = Ok d g' /\
    @getRandom (Scripted.random (fun _ => [])) 0 rParams g = Ok v g' /\
    Qabs d <= randParams.max rParams /\
    ~ Qabs v <= randParams.max rParams.
Proof.
  intros rParams g. eexists _, _, _.
  split; [vm_compute; reflexivity |].
  split; [vm_compute; reflexivity |].
  split; [discriminate |].
  intros Hle. apply Hle. reflexivity.
Qed.

(** C1. What the sampler returns is not always within [-max, max]: the
    draw is tested against [max] as a [double] and then converted to
    [float] at the return, which can round it past [max].  A generator
    constructed with seed 59189728 and asked for a pose whose fields are
    uniform with hard limit 0.8 (the [double] nearest to it) draws, as its
    first value, the [double] 0.79999999782, inside the range; the
    [float] returned for it, and stored as the shift of the pose, is
    0x0.cccccd = 0.800000011920929, above the limit.  (The bound does
    hold for every pose field when the limits are binary32 numbers:
    [getRandom_within], [generatePoses4oneFrame_within].) *)
Theorem getRandom_float_exceeds_max :
  let limit : double := 7205759403792794 # 9007199254740992 in
  let rParams := randParams.mk "uniform" limit (1 # 2) in
  let params := perturbParams.mk rParams rParams rParams rParams rParams rParams false in
  let g := MT19937_64.seed 59189728 in
  exists (d : double) (v : float) g1 pose g2,
    @PoseGenerator_new MT19937_64.random Fixture.parser Fixture.configRules [] 59189728
      = inr {| m_perturbRules := [(Fixture.highway, Fixture.perturbParams1);
                                  (Fixture.local, Fixture.perturbParams2)];
               m_sensorNames := [];
               m_generator := g |} /\
    (MT19937_64.next g).1 = 18446744048629897709%N /\
    @genUniformRV_double MT19937_64.random rParams g = Ok d g1 /\
    @getRandom MT19937_64.random 0 rParams g = Ok v g1 /\
    @generateOnePose MT19937_64.random [] 0 params g = Ok pose g2 /\
    0 <= limit /\
    Qabs d <= limit /\
    v == 13421773 # 16777216 /\
    ~ Qabs v <= limit /\
    Pose.shift pose = v.
Proof.
  intros limit rParams params g. eexists _, _, _, _, _.
  split; [vm_compute; reflexivity |].
  split; [vm_compute; reflexivity |].
  split; [vm_compute; reflexivity |].
  split; [vm_compute; reflexivity |].
  split; [vm_compute; reflexivity |].
  split; [discriminate |].
  split; [discriminate |].
  split; [reflexivity |].
  split; [intros Hle; apply Hle; reflexivity | reflexivity].
Qed.

(** C2. The constructor stores the rules in input order, and for a frame
    with a positive use count the frame planner runs the pose loop on the
    parameters of the first stored rule that the label source reports as
    matching; the outcome does not depend on the rules after it. *)
Theorem generatePoses4oneFrame_first_rule `{StdRandom} `{ProjMetaData}
    configRules sensorNames seed pg rules1 rule rules2 fuel useCount index trace g :
  PoseGenerator_new configRules sensorNames seed = inr pg ->
  m_perturbRules pg = rules1 ++ rule :: rules2 ->
  Forall (fun r : Rule => doLabelsMatch trace index r.1 = false) rules1 ->
  doLabelsMatch trace index rule.1 = true ->
  useCount <> 0%N ->
  m_perturbRules pg =
    map (fun r : string * perturbParams.t => (stringMapFromSplitString r.1, r.2)) configRules /\
  first_rule (m_perturbRules pg) index trace = Some rule /\
  generatePoses4oneFrame (m_perturbRules pg) sensorNames fuel useCount index trace g =
    poses_loop sensorNames fuel rule.2 index (N.to_nat useCount) 0%N [] g /\
  forall rules2',
    generatePoses4oneFrame (rules1 ++ rule :: rules2') sensorNames fuel useCount index trace g =
    generatePoses4oneFrame (m_perturbRules pg) sensorNames fuel useCount index trace g.
Proof.
  intros Hnew Hsplit Hpre Hrule Hcount. split_and!.
  - unfold PoseGenerator_new in Hnew.
    destruct (build_rules configRules []) as [| rules] eqn:Hbuild; [discriminate |].
    injection Hnew as <-. simpl. by apply build_rules_inr in Hbuild.
  - rewrite Hsplit. by apply first_rule_app.
  - apply generatePoses4oneFrame_matched; [| done].
    rewrite Hsplit. by apply first_rule_app.
  - intros rules2'. rewrite Hsplit.
    rewrite !(generatePoses4oneFrame_matched _ _ _ _ _ _ rule);
      auto using first_rule_app.
Qed.

Lemma generatePoses4oneFrame_first_rule_witness :
  let pg : PoseGenerator (list N) :=
    {| m_perturbRules :=
         [(Fixture.highway, Fixture.perturbParams1); (Fixture.local, Fixture.perturbParams2)];
       m_sensorNames := Fixture.testSensorNames;
       m_generator := Fixture.book 1 |} in
  let rule := (Fixture.local, Fixture.perturbParams2) in
  @PoseGenerator_new Fixture.engine Fixture.parser
    Fixture.configRules Fixture.testSensorNames 1 = inr pg /\
  first_rule (m_perturbRules pg) 2 Fixture.trace = Some rule /\
  @generatePoses4oneFrame Fixture.engine (m_perturbRules pg) Fixture.testSensorNames
    5 2 2 Fixture.trace (Fixture.book 1) =
  @poses_loop Fixture.engine Fixture.testSensorNames 5 rule.2 2 (N.to_nat 2) 0%N []
    (Fixture.book 1).
Proof.
  intros pg rule.
  assert (Hnew : @PoseGenerator_new Fixture.engine Fixture.parser
            Fixture.configRules Fixture.testSensorNames 1 = inr pg)
    by (vm_compute; reflexivity).
  split; [exact Hnew |].
  refine (let H := @generatePoses4oneFrame_first_rule Fixture.engine Fixture.parser
    Fixture.configRules Fixture.testSensorNames 1%N pg
    [(Fixture.highway, Fixture.perturbParams1)] rule [] 5%nat 2%N 2%N Fixture.trace
    (Fixture.book 1) Hnew eq_refl _ _ _ in conj (proj1 (proj2 H)) (proj1 (proj2 (proj2 H)))).
  - constructor; [vm_compute; reflexivity | constructor].
  - vm_compute; reflexivity.
  - discriminate.
Defined.

(** C3. In what the frame planner returns for a matched rule, the pose
    at every odd index is the flipped counterpart of the pose synthesized
    at that index when the rule's flip is enabled (flip set, shift and
    rotation negated, everything else kept), the pose at every even index
    is the synthesized pose with flip unset, and with flip disabled every
    pose is the synthesized pose with flip unset. *)
Theorem generatePoses4oneFrame_flip_alternates `{StdRandom}
    rules sensorNames fuel useCount index trace rule g poses g' :
  first_rule rules index trace = Some rule ->
  generatePoses4oneFrame rules sensorNames fuel useCount index trace g = Ok poses g' ->
  exists synth,
    synthesize sensorNames fuel rule.2 index (N.to_nat useCount) g = Ok synth g' /\
    length poses = N.to_nat useCount /\
    forall (i : nat) pose, poses !! i = Some pose ->
      exists s,
        synth !! i = Some s /\ Pose.flip s = false /\
        if perturbParams.flip rule.2 && Nat.odd i then
          pose = flipPose s /\
          Pose.flip pose = true /\
          Pose.shift pose = - Pose.shift s /\
          Pose.rotation pose = - Pose.rotation s /\
          Pose.forward pose = Pose.forward s /\
          Pose.sensor_yaw pose = Pose.sensor_yaw s /\
          Pose.sensor_pitch pose = Pose.sensor_pitch s /\
          Pose.sensor_roll pose = Pose.sensor_roll s /\
          Pose.srcFrame pose = Pose.srcFrame s
        else
          pose = s /\ Pose.flip pose = false.
Proof.
  intros Hrule Hrun.
  destruct (N.eq_dec useCount 0%N) as [-> | Hcount].
  - injection Hrun as <- <-. exists []. split_and!; [done | done |]. by intros i pose.
  - rewrite (generatePoses4oneFrame_matched _ _ _ _ _ _ rule) in Hrun by done.
    pose proof (poses_loop_length _ _ _ _ _ _ _ _ _ _ Hrun) as Hlen.
    apply poses_loop_Ok in Hrun as (synth & Hsynth & ->).
    exists synth. split_and!; [done | done |].
    intros i pose. rewrite app_nil_l, lookup_emit_all.
    destruct (synth !! i) as [s |] eqn:Hs; [| done]. intros [= <-].
    exists s. split; [done |].
    apply synthesize_Ok in Hsynth as [_ Hall].
    rewrite Forall_lookup in Hall. destruct (Hall i s Hs) as [Hflip _].
    split; [done |]. unfold emit. rewrite N.add_0_l.
    replace (negb (N.of_nat i mod 2 =? 0)%N) with (Nat.odd i).
    + destruct (perturbParams.flip rule.2 && Nat.odd i).
      * split; [done |]. apply flipPose_fields.
      * done.
    + by rewrite N_mod2_odd.
Qed.

Lemma generatePoses4oneFrame_flip_alternates_witness :
  let rules := [(Fixture.highway, Fixture.perturbParams1);
                (Fixture.local, Fixture.perturbParams2)] in
  exists poses g',
    first_rule rules 0 Fixture.trace = Some (Fixture.highway, Fixture.perturbParams1) /\
    @generatePoses4oneFrame Fixture.engine rules Fixture.testSensorNames 5 3 0 Fixture.trace
      (Fixture.book 1) = Ok poses g' /\
    Pose.flip <$> poses = [false; true; false].
Proof.
  intros rules.
  assert (Hrule : first_rule rules 0 Fixture.trace =
                  Some (Fixture.highway, Fixture.perturbParams1))
    by (vm_compute; reflexivity).
  destruct (returns_Ok
    (@generatePoses4oneFrame Fixture.engine rules Fixture.testSensorNames 5 3 0 Fixture.trace
       (Fixture.book 1)) ltac:(vm_compute; reflexivity)) as (poses & g' & Hrun).
  exists poses, g'. split; [exact Hrule |]. split; [exact Hrun |].
  destruct (@generatePoses4oneFrame_flip_alternates Fixture.engine
              rules Fixture.testSensorNames 5 3%N 0%N Fixture.trace
              (Fixture.highway, Fixture.perturbParams1) (Fixture.book 1) poses g'
              Hrule Hrun) as (synth & _ & Hlen & Hat).
  destruct poses as [| p0 [| p1 [| p2 [| p3 rest]]]]; try discriminate Hlen.
  destruct (Hat 0%nat p0 eq_refl) as (s0 & _ & _ & _ & H0).
  destruct (Hat 1%nat p1 eq_refl) as (s1 & _ & _ & _ & H1 & _).
  destruct (Hat 2%nat p2 eq_refl) as (s2 & _ & _ & _ & H2).
  cbn [fmap list_fmap]. by rewrite H0, H1, H2.
Defined.

(** C4. Whenever [generateShuffledPoses] returns normally, what it
    returns is empty or starts with a pose that is not flipped. *)
Theorem generateShuffledPoses_first_unflipped `{StdRandom}
    files rules sensorNames fuel vecUseCounts labelsFileName g poses g' :
  generateShuffledPoses files rules sensorNames fuel vecUseCounts labelsFileName g
    = Ok poses g' ->
  poses = [] \/ exists first rest, poses = first :: rest /\ Pose.flip first = false.
Proof.
  unfold generateShuffledPoses. rewrite bind_Ok.
  intros (unshuffledPoses & g1 & _ & Hrest).
  destruct (N.of_nat (length (concat unshuffledPoses)) =? 0)%N.
  - injection Hrest as <- <-. by left.
  - destruct (shuffle (concat unshuffledPoses) g1) as [l g2].
    right. by eapply reshuffle_loop_Ok.
Qed.

Lemma generateShuffledPoses_first_unflipped_witness :
  let rules := [(Fixture.highway, Fixture.perturbParams1);
                (Fixture.local, Fixture.perturbParams2)] in
  exists poses g',
    @generateShuffledPoses Fixture.engine Fixture.files rules Fixture.oneSensor 5
      [2; 0; 0]%N "labels.csv" (Fixture.book 2) = Ok poses g' /\
    length poses = 2%nat /\ g' = [] /\
    (poses = [] \/ exists first rest, poses = first :: rest /\ Pose.flip first = false).
Proof.
  intros rules.
  destruct (returns_Ok
    (@generateShuffledPoses Fixture.engine Fixture.files rules Fixture.oneSensor 5
       [2; 0; 0]%N "labels.csv" (Fixture.book 2)) ltac:(vm_compute; reflexivity))
    as (poses & g' & Hrun).
  exists poses, g'. split; [exact Hrun |]. split; [| split].
  - pose proof (f_equal (fun r => match r with Ok l _ => length l | _ => 0%nat end) Hrun)
      as Hlen.
    simpl in Hlen. rewrite <- Hlen. vm_compute. reflexivity.
  - pose proof (f_equal (fun r => match r with Ok _ g => g | _ => [] end) Hrun) as Hg.
    simpl in Hg. rewrite <- Hg. vm_compute. reflexivity.
  - exact (@generateShuffledPoses_first_unflipped Fixture.engine _ _ _ _ _ _ _ _ _ Hrun).
Defined.

(** C5, as stated, fails: for 2^32 use counts over an empty trace the
    call returns normally with no frame list at all. *)
Lemma generatePoses4vecFrames_length_wraps :
  let vecUseCounts := replicate (N.to_nat (2 ^ 32)) 0%N in
  let emptyTrace := {| getNumDatapoints := 0; doLabelsMatch := fun _ _ => false |} in
  N.of_nat (length vecUseCounts) = (2 ^ 32)%N /\
  @generatePoses4vecFrames (Scripted.random (fun _ => []))
    (fun _ => Some emptyTrace) [] [] 0 vecUseCounts "labels.csv" [] = Ok [] [] /\
  length (@nil (list Pose.t)) <> length vecUseCounts.
Proof.
  intros vecUseCounts emptyTrace.
  assert (Hlen : N.of_nat (length vecUseCounts) = (2 ^ 32)%N).
  { unfold vecUseCounts. by rewrite length_replicate, N2Nat.id. }
  split; [exact Hlen |]. split.
  - apply (@generatePoses4vecFrames_wrap (Scripted.random (fun _ => []))
             _ _ _ _ _ _ emptyTrace); [reflexivity | reflexivity |].
    rewrite Hlen. reflexivity.
  - intros Heq. rewrite <- Heq in Hlen. discriminate Hlen.
Qed.

(** The lengths in general: the outer length is the trace's frame count,
    which is the number of use counts reduced modulo 2^32. *)
Lemma generatePoses4vecFrames_lengths_mod `{StdRandom}
    files rules sensorNames fuel vecUseCounts labelsFileName g vecVecPoses g' :
  generatePoses4vecFrames files rules sensorNames fuel vecUseCounts labelsFileName g
    = Ok vecVecPoses g' ->
  exists trace,
    files labelsFileName = Some trace /\
    N.of_nat (length vecVecPoses) = getNumDatapoints trace /\
    N.of_nat (length vecVecPoses) = (N.of_nat (length vecUseCounts) mod 2 ^ 32)%N /\
    forall (i : nat) Poses, vecVecPoses !! i = Some Poses ->
      exists useCount,
        vecUseCounts !! i = Some useCount /\ N.of_nat (length Poses) = useCount.
Proof.
  intros (trace & Hfile & Hnum & Hloop)%generatePoses4vecFrames_Ok.
  apply frames_loop_Ok in Hloop as (new & -> & Hlen & Hnew). rewrite app_nil_l.
  assert (Hvv : N.of_nat (length new) = to_uint32 (N.of_nat (length vecUseCounts)))
    by (rewrite Hlen; apply N2Nat.id).
  exists trace. split_and!; [done | congruence | exact Hvv |].
  intros i Poses Hi. apply Hnew in Hi as (useCount & ga & gb & Hat & Hrun).
  exists useCount. split; [exact Hat |].
  apply generatePoses4oneFrame_length in Hrun. rewrite Hrun. apply N2Nat.id.
Qed.

(** C5, amended. For fewer than 2^32 use counts (the frame counter is a
    [uint32_t]): when [generatePoses4vecFrames] returns normally, the
    outer length is the number of use counts, which is the trace's frame
    count, and for every index the inner list has exactly the length that
    the use count at that index asks for. *)
Theorem generatePoses4vecFrames_lengths `{StdRandom}
    files rules sensorNames fuel vecUseCounts labelsFileName g vecVecPoses g' :
  (N.of_nat (length vecUseCounts) < 2 ^ 32)%N ->
  generatePoses4vecFrames files rules sensorNames fuel vecUseCounts labelsFileName g
    = Ok vecVecPoses g' ->
  length vecVecPoses = length vecUseCounts /\
  (exists trace,
     files labelsFileName = Some trace /\
     getNumDatapoints trace = N.of_nat (length vecUseCounts)) /\
  forall (i : nat) useCount, vecUseCounts !! i = Some useCount ->
    exists Poses, vecVecPoses !! i = Some Poses /\ N.of_nat (length Poses) = useCount.
Proof.
  intros Hsmall Hrun.
  destruct (generatePoses4vecFrames_lengths_mod _ _ _ _ _ _ _ _ _ Hrun)
    as (trace & Hfile & Hnum & Hmod & Hinner).
  rewrite N.mod_small in Hmod by done. apply Nat2N.inj in Hmod.
  split_and!.
  - exact Hmod.
  - exists trace. split; [done |]. rewrite <- Hnum. by rewrite Hmod.
  - intros i useCount Hi.
    destruct (lookup_lt_is_Some_2 vecVecPoses i) as [Poses HPoses].
    { rewrite Hmod. by eapply lookup_lt_Some. }
    exists Poses. split; [done |].
    destruct (Hinner i Poses HPoses) as (useCount' & Hat & Hcount). congruence.
Qed.

Lemma generatePoses4vecFrames_lengths_witness :
  let rules := [(Fixture.highway, Fixture.perturbParams1);
                (Fixture.local, Fixture.perturbParams2)] in
  exists vecVecPoses g',
    @generatePoses4vecFrames Fixture.engine Fixture.files rules Fixture.testSensorNames 5
      [2; 2; 2]%N "labels.csv" (Fixture.book 1) = Ok vecVecPoses g' /\
    length vecVecPoses = 3%nat /\
    forall (i : nat) Poses, vecVecPoses !! i = Some Poses -> length Poses = 2%nat.
Proof.
  intros rules.
  destruct (returns_Ok
    (@generatePoses4vecFrames Fixture.engine Fixture.files rules Fixture.testSensorNames 5
       [2; 2; 2]%N "labels.csv" (Fixture.book 1)) ltac:(vm_compute; reflexivity))
    as (vecVecPoses & g' & Hrun).
  exists vecVecPoses, g'. split; [exact Hrun |].
  destruct (@generatePoses4vecFrames_lengths Fixture.engine
              Fixture.files rules Fixture.testSensorNames 5 [2; 2; 2]%N "labels.csv"
              (Fixture.book 1) vecVecPoses g' ltac:(reflexivity) Hrun)
    as (Hlen & _ & Hinner).
  split; [exact Hlen |].
  intros i Poses Hi.
  destruct i as [| [| [| i]]];
    [destruct (Hinner 0%nat 2%N eq_refl) as (Poses' & HPoses & Hcount)
    |destruct (Hinner 1%nat 2%N eq_refl) as (Poses' & HPoses & Hcount)
    |destruct (Hinner 2%nat 2%N eq_refl) as (Poses' & HPoses & Hcount)
    |];
    try (rewrite HPoses in Hi; injection Hi as <-; by apply Nat2N.inj).
  apply lookup_lt_Some in Hi. rewrite Hlen in Hi. simpl in Hi. lia.
Defined.

(** What the frame planner does at its throw site, index by index: up to
    index 37 the exception is thrown, with the engine as it was. *)
Lemma generatePoses4oneFrame_NoMatchingRule_literal `{StdRandom}
    rules sensorNames fuel useCount index trace g :
  useCount <> 0%N ->
  Forall (fun r : Rule => doLabelsMatch trace index r.1 = false) rules ->
  (index <= 37)%N ->
  generatePoses4oneFrame rules sensorNames fuel useCount index trace g
    = Throw (NoMatchingRule index) g.
Proof.
  intros Hcount Hnone%first_rule_None Hle.
  rewrite generatePoses4oneFrame_unmatched, throw_no_rule_found_spec by done.
  by destruct (N.leb_spec index 37); [| lia].
Qed.

(** C6. The frame planner does not fail with [NoMatchingRule] for every
    frame that has a positive use count and no matching rule: its [throw]
    expression adds the frame index to the string literal of the message,
    which moves the address of the literal, and from index 38 on the
    address handed to [std::runtime_error] lies outside the literal, so
    the behaviour is undefined.  With a use count of zero the planner
    returns the empty sequence and leaves the engine alone, whatever the
    rules, the frame and the label source; it throws [NoMatchingRule]
    exactly when the use count is positive, no rule matches and the index
    is at most 37, and then for this index and with the engine as it was;
    and its behaviour is undefined exactly when the use count is positive,
    no rule matches and the index is larger than 37. *)
Theorem generatePoses4oneFrame_no_rule_found `{StdRandom}
    rules sensorNames fuel useCount index trace g :
  let run := generatePoses4oneFrame rules sensorNames fuel useCount index trace g in
  let unmatched :=
    useCount <> 0%N /\
    Forall (fun r : Rule => doLabelsMatch trace index r.1 = false) rules in
  (useCount = 0%N ->
   forall rules' index' trace',
     generatePoses4oneFrame rules' sensorNames fuel useCount index' trace' g = Ok [] g) /\
  ((exists j g', run = Throw (NoMatchingRule j) g') <-> unmatched /\ (index <= 37)%N) /\
  (forall j g', run = Throw (NoMatchingRule j) g' -> j = index /\ g' = g) /\
  (run = Undefined <-> unmatched /\ (37 < index)%N).
Proof.
  intros run unmatched. unfold run, unmatched. split_and!.
  - by intros -> rules' index' trace'.
  - split.
    + intros (j & g' & Hthrow).
      destruct (N.eq_dec useCount 0%N) as [-> | Hcount]; [discriminate |].
      destruct (first_rule rules index trace) as [rule |] eqn:Hrule.
      * rewrite (generatePoses4oneFrame_matched _ _ _ _ _ _ rule) in Hthrow by done.
        by apply poses_loop_Throw in Hthrow.
      * rewrite generatePoses4oneFrame_unmatched in Hthrow by done.
        apply throw_no_rule_found_Throw in Hthrow as (_ & _ & Hle).
        split; [| done]. split; [done |]. by apply first_rule_None.
    + intros [[Hcount Hnone] Hle]. exists index, g.
      by apply generatePoses4oneFrame_NoMatchingRule_literal.
  - intros j g' Hthrow.
    apply generatePoses4oneFrame_Throw in Hthrow as [(Hj & -> & _) | Hk]; [| destruct Hk].
    by injection Hj as ->.
  - rewrite generatePoses4oneFrame_Undefined, first_rule_None. tauto.
Qed.

Lemma generatePoses4oneFrame_no_rule_found_witness :
  let rules := [(Fixture.highway, Fixture.perturbParams1)] in
  Forall (fun r : Rule => doLabelsMatch Fixture.trace 38 r.1 = false) rules /\
  @generatePoses4oneFrame Fixture.engine rules Fixture.testSensorNames 5 1 38 Fixture.trace
    (Fixture.book 1) = Undefined /\
  @generatePoses4oneFrame Fixture.engine rules Fixture.testSensorNames 5 1 2 Fixture.trace
    (Fixture.book 1) = Throw (NoMatchingRule 2) (Fixture.book 1) /\
  @generatePoses4oneFrame Fixture.engine rules Fixture.testSensorNames 5 0 38 Fixture.trace
    (Fixture.book 1) = Ok [] (Fixture.book 1).
Proof.
  intros rules.
  assert (Hnone : forall index, (2 <= index)%N ->
            Forall (fun r : Rule => doLabelsMatch Fixture.trace index r.1 = false) rules).
  { intros index Hindex. constructor; [| constructor].
    assert (Hroad : Fixture.highway !! "road_type" = Some "highway")
      by (vm_compute; reflexivity).
    unfold Fixture.trace. cbn [doLabelsMatch fst]. rewrite Hroad.
    by destruct (N.ltb_spec index 2); [lia |]. }
  split; [apply Hnone; lia |].
  destruct (@generatePoses4oneFrame_no_rule_found Fixture.engine
              rules Fixture.testSensorNames 5 1%N 38%N Fixture.trace (Fixture.book 1))
    as (_ & _ & _ & Hundefined).
  destruct (@generatePoses4oneFrame_no_rule_found Fixture.engine
              rules Fixture.testSensorNames 5 1%N 2%N Fixture.trace (Fixture.book 1))
    as (_ & Hthrow & Hpayload & _).
  destruct (@generatePoses4oneFrame_no_rule_found Fixture.engine
              rules Fixture.testSensorNames 5 0%N 38%N Fixture.trace (Fixture.book 1))
    as (Hzero & _).
  split_and!.
  - apply Hundefined. split; [split; [discriminate | apply Hnone; lia] | lia].
  - destruct (proj2 Hthrow) as (j & g' & Hrun).
    { split; [split; [discriminate | apply Hnone; lia] | lia]. }
    destruct (Hpayload j g' Hrun) as [-> ->]. exact Hrun.
  - by apply Hzero.
Defined.

(** C7, as stated, fails: with 2^32 use counts and an empty trace the
    two lengths differ and [FrameCountMismatch] is not thrown. *)
Lemma generatePoses4vecFrames_mismatch_missed :
  let vecUseCounts := replicate (N.to_nat (2 ^ 32)) 0%N in
  let emptyTrace := {| getNumDatapoints := 0; doLabelsMatch := fun _ _ => false |} in
  N.of_nat (length vecUseCounts) <> getNumDatapoints emptyTrace /\
  forall a b g',
    @generatePoses4vecFrames (Scripted.random (fun _ => []))
      (fun _ => Some emptyTrace) [] [] 0 vecUseCounts "labels.csv" []
    <> Throw (FrameCountMismatch a b) g'.
Proof.
  intros vecUseCounts emptyTrace.
  assert (Hlen : N.of_nat (length vecUseCounts) = (2 ^ 32)%N).
  { unfold vecUseCounts. by rewrite length_replicate, N2Nat.id. }
  split.
  - rewrite Hlen. discriminate.
  - intros a b g'.
    rewrite (@generatePoses4vecFrames_wrap (Scripted.random (fun _ => []))
               _ _ _ _ _ _ emptyTrace); [discriminate | reflexivity | reflexivity |].
    rewrite Hlen. reflexivity.
Qed.

(** The count check in general: it compares the trace's frame count with
    the number of use counts reduced modulo 2^32, before any draw. *)
Lemma generatePoses4vecFrames_FrameCountMismatch_mod `{StdRandom}
    files rules sensorNames fuel vecUseCounts labelsFileName trace g :
  files labelsFileName = Some trace ->
  let run := generatePoses4vecFrames files rules sensorNames fuel vecUseCounts
               labelsFileName g in
  let numFrames := (N.of_nat (length vecUseCounts) mod 2 ^ 32)%N in
  ((exists a b g', run = Throw (FrameCountMismatch a b) g') <->
   getNumDatapoints trace <> numFrames) /\
  (forall a b g',
     run = Throw (FrameCountMismatch a b) g' ->
     a = getNumDatapoints trace /\ b = numFrames /\ g' = g) /\
  ((N.of_nat (length vecUseCounts) < 2 ^ 32)%N ->
   ((exists a b g', run = Throw (FrameCountMismatch a b) g') <->
    getNumDatapoints trace <> N.of_nat (length vecUseCounts))).
Proof.
  intros Hfile run numFrames.
  assert (Hrun : (getNumDatapoints trace <> numFrames ->
                  run = Throw (FrameCountMismatch (getNumDatapoints trace) numFrames) g) /\
                 (getNumDatapoints trace = numFrames ->
                  forall e g', run = Throw e g' -> ~ is_FrameCountMismatch e)).
  { unfold run, generatePoses4vecFrames. rewrite Hfile. fold numFrames.
    change (to_uint32 (N.of_nat (length vecUseCounts))) with numFrames.
    destruct (N.eqb_spec (getNumDatapoints trace) numFrames) as [Heq | Hne]; simpl.
    - split; [done |]. intros _ e g'. rewrite bind_Throw.
      intros [Hloop | (vv & g1 & _ & Hcheck)]; [by eapply frames_loop_Throw |].
      destruct (negb _); [| discriminate]. injection Hcheck as <- <-. simpl. tauto.
    - split; [done |]. by intros. }
  destruct Hrun as [Hthrow Hquiet].
  assert (Hiff : (exists a b g', run = Throw (FrameCountMismatch a b) g') <->
                 getNumDatapoints trace <> numFrames).
  { split.
    - intros (a & b & g' & Hab) Heq. by apply (Hquiet Heq _ _ Hab).
    - intros Hne. eexists _, _, _. by apply Hthrow. }
  split_and!.
  - exact Hiff.
  - intros a b g' Hab.
    assert (Hne : getNumDatapoints trace <> numFrames) by (apply Hiff; eauto).
    rewrite (Hthrow Hne) in Hab. by injection Hab as <- <- <-.
  - intros Hsmall. rewrite Hiff. unfold numFrames. by rewrite N.mod_small.
Qed.

(** C7, amended. For fewer than 2^32 use counts (the frame counter is a
    [uint32_t]) and a trace that loads: [generatePoses4vecFrames] throws
    [FrameCountMismatch] exactly when the number of use counts differs
    from the trace's frame count; the error is thrown before any draw, so
    the engine is left as it was and nothing is returned. *)
Theorem generatePoses4vecFrames_FrameCountMismatch `{StdRandom}
    files rules sensorNames fuel vecUseCounts labelsFileName trace g :
  (N.of_nat (length vecUseCounts) < 2 ^ 32)%N ->
  files labelsFileName = Some trace ->
  let run := generatePoses4vecFrames files rules sensorNames fuel vecUseCounts
               labelsFileName g in
  ((exists a b g', run = Throw (FrameCountMismatch a b) g') <->
   N.of_nat (length vecUseCounts) <> getNumDatapoints trace) /\
  (forall a b g',
     run = Throw (FrameCountMismatch a b) g' ->
     a = getNumDatapoints trace /\ b = N.of_nat (length vecUseCounts) /\ g' = g).
Proof.
  intros Hsmall Hfile run.
  destruct (generatePoses4vecFrames_FrameCountMismatch_mod
              files rules sensorNames fuel vecUseCounts labelsFileName trace g Hfile)
    as (_ & Hpayload & Hiff).
  unfold run. split.
  - rewrite (Hiff Hsmall). split; intros Hne Heq; by apply Hne.
  - intros a b g' Hthrow. destruct (Hpayload a b g' Hthrow) as (-> & -> & ->).
    by rewrite N.mod_small.
Qed.

Lemma generatePoses4vecFrames_FrameCountMismatch_witness :
  let rules := [(Fixture.highway, Fixture.perturbParams1);
                (Fixture.local, Fixture.perturbParams2)] in
  Fixture.files "labels.csv" = Some Fixture.trace /\
  @generatePoses4vecFrames Fixture.engine Fixture.files rules Fixture.testSensorNames 5
    [2; 2]%N "labels.csv" (Fixture.book 1)
  = Throw (FrameCountMismatch 3 2) (Fixture.book 1).
Proof.
  intros rules.
  assert (Hfile : Fixture.files "labels.csv" = Some Fixture.trace) by reflexivity.
  split; [exact Hfile |].
  destruct (@generatePoses4vecFrames_FrameCountMismatch Fixture.engine
              Fixture.files rules Fixture.testSensorNames 5 [2; 2]%N "labels.csv"
              Fixture.trace (Fixture.book 1) ltac:(reflexivity) Hfile) as (Hiff & Hpayload).
  destruct (proj2 Hiff ltac:(discriminate)) as (a & b & g' & Hthrow).
  destruct (Hpayload a b g' Hthrow) as (-> & -> & ->). exact Hthrow.
Defined.

(** C8. Two generators constructed from the same rules, sensor names and
    seed, and driven by the same calls with the same arguments over label
    sources that give the same answers, produce the same outputs; and the
    outputs are those of the member functions run on one engine, seeded
    with the seed at construction and handed from call to call in the
    order of the calls, each call starting where the call before it
    stopped.  So a value is fixed by the seed and by the position of its
    call: when the calls are calls of [generateOnePose] with uniform
    parameters, the call at position [k] starts [k * (3 + 3 * n)] outputs
    into the stream of the seeded engine, for [n] sensor names, and its
    shift, rotation and forward are the values of the outputs at that
    position and the two after it. *)
Theorem run_calls_seed_and_order `{StdRandom} `{ProjMetaData}
    configRules sensorNames seed pg1 pg2 files1 files2 fuel calls1 calls2 :
  PoseGenerator_new configRules sensorNames seed = inr pg1 ->
  PoseGenerator_new configRules sensorNames seed = inr pg2 ->
  files_equiv files1 files2 ->
  Forall2 call_equiv calls1 calls2 ->
  let rules :=
    map (fun rule : string * perturbParams.t => (stringMapFromSplitString rule.1, rule.2))
      configRules in
  let g0 := mt19937_64_seed (to_uint32 seed) in
  let n := (3 + 3 * length sensorNames)%nat in
  run_calls files1 fuel pg1 calls1 = run_calls files2 fuel pg2 calls2 /\
  run_calls files1 fuel pg1 calls1 = outputs_from files1 fuel rules sensorNames g0 calls1 /\
  forall paramss,
    calls1 = map call_generateOnePose paramss ->
    Forall uniform_params paramss ->
    forall (k : nat) params, paramss !! k = Some params ->
      exists pose,
        run_calls files1 fuel pg1 calls1 !! k = Some (out_pose pose) /\
        generateOnePose sensorNames fuel params (mt19937_64_discard (k * n) g0)
          = Ok pose (mt19937_64_discard (S k * n) g0) /\
        Pose.shift pose =
          uniform_value (perturbParams.shift params) (mt19937_64_output (k * n) g0) /\
        Pose.rotation pose =
          uniform_value (perturbParams.rotation params) (mt19937_64_output (k * n + 1) g0) /\
        Pose.forward pose =
          uniform_value (perturbParams.forward params) (mt19937_64_output (k * n + 2) g0).
Proof.
  intros Hnew1 Hnew2 Hfiles Hcalls rules g0 n.
  assert (Hpg : m_perturbRules pg1 = rules /\ m_sensorNames pg1 = sensorNames /\
                m_generator pg1 = g0).
  { unfold PoseGenerator_new in Hnew1.
    destruct (build_rules configRules []) as [| built] eqn:Hbuild; [discriminate |].
    injection Hnew1 as <-. by apply build_rules_inr in Hbuild as ->. }
  destruct Hpg as (Hrules & Hnames & Hgen).
  assert (Hfrom : run_calls files1 fuel pg1 calls1 =
                  outputs_from files1 fuel rules sensorNames g0 calls1).
  { by rewrite run_calls_outputs_from, Hrules, Hnames, Hgen. }
  split_and!.
  - rewrite Hnew1 in Hnew2. injection Hnew2 as <-. by apply run_calls_ext.
  - exact Hfrom.
  - intros paramss -> Hall k params Hk. rewrite Hfrom.
    by apply outputs_from_uniform.
Qed.


Lemma run_calls_seed_and_order_witness :
  let pg : PoseGenerator (list N) :=
    {| m_perturbRules :=
         [(Fixture.highway, Fixture.perturbParams1); (Fixture.local, Fixture.perturbParams2)];
       m_sensorNames := Fixture.oneSensor;
       m_generator := Fixture.book 1 |} in
  let calls := [call_generateOnePose Fixture.uniformParams;
                call_generateOnePose Fixture.uniformParams] in
  @PoseGenerator_new Fixture.engine Fixture.parser Fixture.configRules Fixture.oneSensor 1
    = inr pg /\
  @run_calls Fixture.engine Fixture.files 5 pg calls =
  @run_calls Fixture.engine Fixture.files' 5 pg calls /\
  exists first second,
    @run_calls Fixture.engine Fixture.files 5 pg calls !! 0%nat = Some (out_pose first) /\
    @run_calls Fixture.engine Fixture.files 5 pg calls !! 1%nat = Some (out_pose second) /\
    Pose.shift first == 0 /\ Pose.shift second == - (1 # 2).
Proof.
  intros pg calls.
  assert (Hnew : @PoseGenerator_new Fixture.engine Fixture.parser
            Fixture.configRules Fixture.oneSensor 1 = inr pg)
    by (vm_compute; reflexivity).
  assert (Htrace : trace_equiv Fixture.trace Fixture.trace').
  { split; [reflexivity |]. intros index predicates. simpl.
    by rewrite negb_involutive. }
  assert (Hfiles : files_equiv Fixture.files Fixture.files').
  { intros name. unfold Fixture.files, Fixture.files'.
    destruct (String.eqb name "labels.csv"); [exact Htrace | exact I]. }
  assert (Hcalls : Forall2 call_equiv calls calls)
    by (constructor; [reflexivity |]; constructor; [reflexivity | constructor]).
  assert (Hrange : uniform_in_range (randParams.mk "uniform" 1 1)).
  { split; [reflexivity |]. split; [vm_compute; reflexivity |].
    split; discriminate. }
  assert (Huniform : uniform_params Fixture.uniformParams)
    by (repeat (constructor; [exact Hrange |]); constructor).
  destruct (@run_calls_seed_and_order Fixture.engine Fixture.parser
              Fixture.configRules Fixture.oneSensor 1%N pg pg Fixture.files Fixture.files'
              5 calls calls Hnew Hnew Hfiles Hcalls) as (Hsame & _ & Hvalues).
  specialize (Hvalues [Fixture.uniformParams; Fixture.uniformParams] eq_refl
                (Forall_cons_2 _ _ _ Huniform (Forall_cons_2 _ _ _ Huniform (Forall_nil_2 _)))).
  destruct (Hvalues 0%nat _ eq_refl) as (first & Hat0 & _ & Hs0 & _).
  destruct (Hvalues 1%nat _ eq_refl) as (second & Hat1 & _ & Hs1 & _).
  split; [exact Hnew |]. split; [exact Hsame |].
  exists first, second. split; [exact Hat0 |]. split; [exact Hat1 |].
  rewrite Hs0, Hs1. split; vm_compute; reflexivity.
Defined.

(** C9, as stated, fails: with the sensor listed twice, the maps of the
    synthesized pose hold the values drawn for the first occurrence
    (-1/2), not the ones drawn for the later occurrence (1/2). *)
Lemma generateOnePose_later_draw_discarded :
  exists pose g' first later,
    @generateOnePose (Scripted.random (fun _ => [])) Fixture.twiceSensor 0
      Fixture.uniformParams Fixture.twiceTape = Ok pose g' /\
    @sensor_draws (Scripted.random (fun _ => [])) 0 Fixture.uniformParams
      Fixture.twiceSensor (drop 3 Fixture.twiceTape)
      = Ok [("c", first); ("c", later)] g' /\
    last_draw "c" [("c", first); ("c", later)] = Some later /\
    Pose.sensor_yaw pose !! "c" = Some first.1.1 /\
    Pose.sensor_pitch pose !! "c" = Some first.1.2 /\
    Pose.sensor_roll pose !! "c" = Some first.2 /\
    first.1.1 == - (1 # 2) /\ later.1.1 == 1 # 2 /\
    Pose.sensor_yaw pose !! "c" <> Some later.1.1 /\
    Pose.sensor_pitch pose !! "c" <> Some later.1.2 /\
    Pose.sensor_roll pose !! "c" <> Some later.2.
Proof.
  destruct (returns_Ok
    (@generateOnePose (Scripted.random (fun _ => [])) Fixture.twiceSensor 0
       Fixture.uniformParams Fixture.twiceTape) ltac:(vm_compute; reflexivity))
    as (pose & g' & Hrun).
  evaluate Hmaps
    (match @generateOnePose (Scripted.random (fun _ => [])) Fixture.twiceSensor 0
             Fixture.uniformParams Fixture.twiceTape with
     | Ok p g => Some (Pose.sensor_yaw p !! "c", Pose.sensor_pitch p !! "c",
                       Pose.sensor_roll p !! "c", g)
     | _ => None
     end).
  rewrite Hrun in Hmaps. injection Hmaps as Hyaw Hpitch Hroll Hg.
  exists pose, g'. eexists _, _. split; [exact Hrun |].
  split; [rewrite Hg; vm_compute; reflexivity |].
  rewrite Hyaw, Hpitch, Hroll.
  split_and!; try reflexivity; discriminate.
Qed.

(** C9, amended. A duplicate in the sensor-name list does not make
    construction fail, and [generateOnePose] draws for every occurrence
    but keeps, in the yaw, pitch and roll maps, the values drawn for the
    first occurrence of the name; the values drawn for a later occurrence
    are discarded. *)
Theorem generateOnePose_duplicate_keeps_first `{StdRandom} `{ProjMetaData}
    configRules sensorNames0 seed pg0 sensorNames fuel params g pose g' name (i j : nat) :
  PoseGenerator_new configRules sensorNames0 seed = inr pg0 ->
  sensorNames !! i = Some name ->
  sensorNames !! j = Some name ->
  (i < j)%nat ->
  (forall k, (k < i)%nat -> sensorNames !! k <> Some name) ->
  generateOnePose sensorNames fuel params g = Ok pose g' ->
  (exists pg,
     PoseGenerator_new configRules sensorNames seed = inr pg /\
     m_sensorNames pg = sensorNames) /\
  exists scalars g1 draws first later,
    scalar_draws fuel params g = Ok scalars g1 /\
    sensor_draws fuel params sensorNames g1 = Ok draws g' /\
    draws !! i = Some (name, first) /\
    draws !! j = Some (name, later) /\
    Pose.sensor_yaw pose !! name = Some first.1.1 /\
    Pose.sensor_pitch pose !! name = Some first.1.2 /\
    Pose.sensor_roll pose !! name = Some first.2.
Proof.
  intros Hnew Hi Hj Hij Hfirst Hrun. split.
  - destruct (PoseGenerator_new_names _ _ sensorNames _ _ Hnew) as (pg & Hpg & Hnames & _).
    eauto.
  - apply generateOnePose_draws in Hrun
      as (scalars & g1 & draws & Hscalars & Hdraws & Hnames & _ & _ & _ & Hmaps).
    rewrite <- Hnames in Hi, Hj, Hfirst.
    destruct (first_draw_first_index draws i name Hi Hfirst) as (first & Hat & Hfd).
    rewrite list_lookup_fmap in Hj.
    destruct (draws !! j) as [[n later] |] eqn:Hlater; [| done].
    injection Hj as ->.
    exists scalars, g1, draws, first, later.
    destruct (Hmaps name) as (-> & -> & ->). rewrite Hfd.
    by split_and!.
Qed.

Lemma generateOnePose_duplicate_keeps_first_witness :
  exists pose g' first later,
    @PoseGenerator_new (Scripted.random (fun _ => [])) Fixture.parser
      Fixture.configRules Fixture.twiceSensor 1
    = inr {| m_perturbRules := [(Fixture.highway, Fixture.perturbParams1);
                                (Fixture.local, Fixture.perturbParams2)];
             m_sensorNames := Fixture.twiceSensor;
             m_generator := [] |} /\
    @generateOnePose (Scripted.random (fun _ => [])) Fixture.twiceSensor 0
      Fixture.uniformParams Fixture.twiceTape = Ok pose g' /\
    @sensor_draws (Scripted.random (fun _ => [])) 0 Fixture.uniformParams
      Fixture.twiceSensor (drop 3 Fixture.twiceTape)
      = Ok [("c", first); ("c", later)] g' /\
    Pose.sensor_yaw pose !! "c" = Some first.1.1 /\
    Pose.sensor_pitch pose !! "c" = Some first.1.2 /\
    Pose.sensor_roll pose !! "c" = Some first.2.
Proof.
  destruct (returns_Ok
    (@generateOnePose (Scripted.random (fun _ => [])) Fixture.twiceSensor 0
       Fixture.uniformParams Fixture.twiceTape) ltac:(vm_compute; reflexivity))
    as (pose & g' & Hrun).
  evaluate Hnew
    (@PoseGenerator_new (Scripted.random (fun _ => [])) Fixture.parser
       Fixture.configRules Fixture.twiceSensor 1).
  destruct (@generateOnePose_duplicate_keeps_first
              (Scripted.random (fun _ => [])) Fixture.parser
              Fixture.configRules Fixture.twiceSensor 1%N _ Fixture.twiceSensor 0
              Fixture.uniformParams Fixture.twiceTape pose g' "c" 0%nat 1%nat
              Hnew eq_refl eq_refl ltac:(lia) ltac:(intros k Hk; lia) Hrun)
    as (_ & scalars & g1 & draws & first & later &
        Hscalars & Hdraws & Hfirst & Hlater & Hyaw & Hpitch & Hroll).
  evaluate Hs (@scalar_draws (Scripted.random (fun _ => [])) 0 Fixture.uniformParams
                 Fixture.twiceTape).
  rewrite Hs in Hscalars. injection Hscalars as _ <-.
  pose proof (sensor_draws_names _ _ _ _ _ _ Hdraws) as Hnames.
  destruct draws as [| [n0 d0] [| [n1 d1] [| d2 rest]]]; try discriminate Hnames.
  injection Hnames as -> ->. injection Hfirst as ->. injection Hlater as ->.
  exists pose, g', first, later. by split_and!.
Defined.

(** C10. For a frame with a positive use count and a matching rule, the
    first pose that the frame planner returns is not flipped; so a
    flattened sequence that is not empty starts with, and hence contains,
    a pose that is not flipped when it enters the shuffle stage. *)
Theorem first_pose_unflipped `{StdRandom} :
  (forall rules sensorNames fuel useCount index trace rule g poses g',
     first_rule rules index trace = Some rule ->
     useCount <> 0%N ->
     generatePoses4oneFrame rules sensorNames fuel useCount index trace g = Ok poses g' ->
     exists first, poses !! 0%nat = Some first /\ Pose.flip first = false) /\
  (forall files rules sensorNames fuel vecUseCounts labelsFileName g vecVecPoses g',
     generatePoses4vecFrames files rules sensorNames fuel vecUseCounts labelsFileName g
       = Ok vecVecPoses g' ->
     concat vecVecPoses <> [] ->
     (exists first rest,
        concat vecVecPoses = first :: rest /\ Pose.flip first = false) /\
     (exists pose, pose ∈ concat vecVecPoses /\ Pose.flip pose = false)).
Proof.
  split.
  - intros rules sensorNames fuel useCount index trace rule g poses g' _ Hcount Hrun.
    destruct (generatePoses4oneFrame_head _ _ _ _ _ _ _ _ _ Hrun Hcount)
      as (first & rest & -> & Hflip).
    by exists first.
  - intros files rules sensorNames fuel vecUseCounts labelsFileName g vecVecPoses g'
      Hrun Hne.
    assert (Hhead : exists first rest,
               concat vecVecPoses = first :: rest /\ Pose.flip first = false).
    { apply concat_head; [| done].
      apply generatePoses4vecFrames_Ok in Hrun as (trace & _ & _ & Hloop).
      apply frames_loop_Ok in Hloop as (new & -> & _ & Hnew). rewrite app_nil_l.
      apply Forall_lookup. intros i Poses Hi.
      apply Hnew in Hi as (useCount & ga & gb & _ & Hone).
      destruct (N.eq_dec useCount 0%N) as [-> | Hcount].
      - injection Hone as <- _. by left.
      - right. by eapply generatePoses4oneFrame_head. }
    split; [exact Hhead |].
    destruct Hhead as (first & rest & Heq & Hflip).
    exists first. split; [| done]. rewrite Heq. by left.
Qed.

Lemma first_pose_unflipped_witness :
  let rules := [(Fixture.highway, Fixture.perturbParams1);
                (Fixture.local, Fixture.perturbParams2)] in
  exists vecVecPoses g' first rest,
    @generatePoses4vecFrames Fixture.engine Fixture.files rules Fixture.oneSensor 5
      [0; 2; 1]%N "labels.csv" (Fixture.book 1) = Ok vecVecPoses g' /\
    concat vecVecPoses = first :: rest /\ length rest = 2%nat /\
    Pose.flip first = false.
Proof.
  intros rules.
  destruct (returns_Ok
    (@generatePoses4vecFrames Fixture.engine Fixture.files rules Fixture.oneSensor 5
       [0; 2; 1]%N "labels.csv" (Fixture.book 1)) ltac:(vm_compute; reflexivity))
    as (vecVecPoses & g' & Hrun).
  evaluate Hlen
    (match @generatePoses4vecFrames Fixture.engine Fixture.files rules Fixture.oneSensor 5
             [0; 2; 1]%N "labels.csv" (Fixture.book 1) with
     | Ok vv _ => length (concat vv)
     | _ => 0%nat
     end).
  rewrite Hrun in Hlen.
  destruct (proj2 (@first_pose_unflipped Fixture.engine) _ _ _ _ _ _ _ _ _ Hrun)
    as ((first & rest & Heq & Hflip) & _).
  - intros Hnil. rewrite Hnil in Hlen. discriminate Hlen.
  - exists vecVecPoses, g', first, rest. rewrite Heq in Hlen.
    split_and!; [exact Hrun | exact Heq | by injection Hlen | exact Hflip].
Defined.

(** * Further properties

    Properties of the same functions beyond the claims above: edge cases,
    what the functions never do, and how they compose. *)

(** ** The constructor *)

Section ConstructorFacts.
Context `{StdRandom} `{ProjMetaData}.

Lemma check_conditions_None labelConditions :
  check_conditions labelConditions = None <->
  Forall (fun condition : string * string =>
            isFieldNumeric condition.1 = false /\
            isLabelValid condition.1 condition.2 = true) labelConditions.
Proof.
  induction labelConditions as [| [field value] rest IH]; simpl.
  - split; [constructor | done].
  - destruct (isFieldNumeric field) eqn:Hnum.
    + split; [done |]. intros [[Hn _] _]%Forall_cons_1. simpl in Hn. congruence.
    + destruct (isLabelValid field value) eqn:Hvalid; simpl.
      * rewrite IH. split; [by constructor | by intros [_ ?]%Forall_cons_1].
      * split; [done |]. intros [[_ Hv] _]%Forall_cons_1. simpl in Hv. congruence.
Qed.

Lemma check_conditions_Some labelConditions e :
  check_conditions labelConditions = Some e ->
  exists field value,
    (field, value) ∈ labelConditions /\
    ((e = InvalidRule_numeric field /\ isFieldNumeric field = true) \/
     (e = InvalidRule_label field value /\ isFieldNumeric field = false /\
      isLabelValid field value = false)).
Proof.
  induction labelConditions as [| [field value] rest IH]; simpl; [done |].
  destruct (isFieldNumeric field) eqn:Hnum.
  - intros [= <-]. exists field, value. split; [by left | by left].
  - destruct (isLabelValid field value) eqn:Hvalid; simpl.
    + intros (f & v & Hin & He)%IH. exists f, v. split; [by right | done].
    + intros [= <-]. exists field, value. split; [by left | by right].
Qed.

Lemma build_rules_inl configRules perturbRules e :
  build_rules configRules perturbRules = inl e ->
  exists rules1 rule rules2,
    configRules = rules1 ++ rule :: rules2 /\
    Forall (fun r : string * perturbParams.t =>
              check_conditions (map_to_list (stringMapFromSplitString r.1)) = None) rules1 /\
    check_conditions (map_to_list (stringMapFromSplitString rule.1)) = Some e.
Proof.
  revert perturbRules. induction configRules as [| rule rest IH]; intros perturbRules; simpl.
  - discriminate.
  - destruct (check_conditions _) as [e' |] eqn:Hcheck.
    + intros [= <-]. exists [], rule, rest. by split_and!.
    + intros (rules1 & r & rules2 & -> & Hpre & Hr)%IH.
      exists (rule :: rules1), r, rules2. split_and!; [done | by constructor | done].
Qed.

Lemma build_rules_accepts configRules perturbRules :
  (exists rules, build_rules configRules perturbRules = inr rules) <->
  Forall (fun r : string * perturbParams.t =>
            check_conditions (map_to_list (stringMapFromSplitString r.1)) = None) configRules.
Proof.
  revert perturbRules. induction configRules as [| rule rest IH]; intros perturbRules; simpl.
  - split; [constructor | eauto].
  - destruct (check_conditions _) as [e' |] eqn:Hcheck.
    + split; [by intros [? ?] |]. intros [Hr _]%Forall_cons_1. simpl in Hr. congruence.
    + rewrite IH. split; [by constructor | by intros [_ ?]%Forall_cons_1].
Qed.

Lemma conditions_ok_map (labelConditions : gmap string string) :
  check_conditions (map_to_list labelConditions) = None <->
  forall field value, labelConditions !! field = Some value ->
    isFieldNumeric field = false /\ isLabelValid field value = true.
Proof.
  rewrite check_conditions_None, Forall_forall. split.
  - intros Hall field value Hfv. by apply (Hall (field, value)), elem_of_map_to_list.
  - intros Hall [field value] Hin%elem_of_map_to_list. by apply Hall.
Qed.

End ConstructorFacts.

(** X1. The constructor succeeds exactly when, in every rule, every
    condition that the label string splits into names a field that is not
    numeric and carries a value that is valid for the field; the sensor
    names, the seed and the perturbation parameters play no part, and the
    stored table then has one entry per configured rule. *)
Theorem PoseGenerator_new_accepts `{StdRandom} `{ProjMetaData}
    (configRules : list (string * perturbParams.t)) (sensorNames : list string) (seed : N) :
  ((exists pg, PoseGenerator_new configRules sensorNames seed = inr pg) <->
   Forall (fun rule : string * perturbParams.t =>
             forall field value, stringMapFromSplitString rule.1 !! field = Some value ->
               isFieldNumeric field = false /\ isLabelValid field value = true)
     configRules) /\
  (forall pg, PoseGenerator_new configRules sensorNames seed = inr pg ->
     length (m_perturbRules pg) = length configRules /\
     m_sensorNames pg = sensorNames).
Proof.
  split.
  - transitivity (exists rules, build_rules configRules [] = inr rules).
    + unfold PoseGenerator_new. destruct (build_rules configRules []) as [e | rules].
      * split; [by intros [? ?] | by intros [? ?]].
      * split; eauto.
    + rewrite build_rules_accepts. apply Forall_proper; [| done].
      intros rule. apply conditions_ok_map.
  - unfold PoseGenerator_new.
    destruct (build_rules configRules []) as [e | rules] eqn:Hbuild; [done |].
    intros pg [= <-]. simpl. apply build_rules_inr in Hbuild as ->.
    by rewrite app_nil_l, length_map.
Qed.

(** X2. When the constructor fails it throws [std::invalid_argument] for
    the first rule, in configuration order, that has an offending
    condition, and every rule before it is clean.  The error names a
    condition of that rule: a numeric field is reported as numeric whether
    or not its value is valid, and an invalid value is reported only for
    a field that is not numeric. *)
Theorem PoseGenerator_new_rejects `{StdRandom} `{ProjMetaData}
    (configRules : list (string * perturbParams.t)) (sensorNames : list string) (seed : N)
    (e : Error) :
  PoseGenerator_new configRules sensorNames seed = inl e ->
  exception_class e = invalid_argument /\
  exists rules1 rule rules2 field value,
    configRules = rules1 ++ rule :: rules2 /\
    Forall (fun r : string * perturbParams.t =>
              forall f v, stringMapFromSplitString r.1 !! f = Some v ->
                isFieldNumeric f = false /\ isLabelValid f v = true) rules1 /\
    stringMapFromSplitString rule.1 !! field = Some value /\
    ((e = InvalidRule_numeric field /\ isFieldNumeric field = true) \/
     (e = InvalidRule_label field value /\ isFieldNumeric field = false /\
      isLabelValid field value = false)).
Proof.
  unfold PoseGenerator_new.
  destruct (build_rules configRules []) as [e' | rules] eqn:Hbuild; [| done].
  intros [= ->].
  apply build_rules_inl in Hbuild as (rules1 & rule & rules2 & -> & Hpre & Hrule).
  apply check_conditions_Some in Hrule as (field & value & Hin & He).
  split.
  - by destruct He as [[-> _] | [-> _]].
  - exists rules1, rule, rules2, field, value. split_and!; [done | | | done].
    + eapply Forall_impl; [exact Hpre |]. intros r. apply conditions_ok_map.
    + by apply elem_of_map_to_list.
Qed.

Lemma PoseGenerator_new_rejects_witness :
  @PoseGenerator_new Fixture.engine Cases.parser
    (Fixture.configRules ++ [("speed=60", Fixture.perturbParams1)])
    Fixture.testSensorNames 1 = inl (InvalidRule_numeric "speed") /\
  exception_class (InvalidRule_numeric "speed") = invalid_argument.
Proof.
  assert (Hnew : @PoseGenerator_new Fixture.engine Cases.parser
            (Fixture.configRules ++ [("speed=60", Fixture.perturbParams1)])
            Fixture.testSensorNames 1 = inl (InvalidRule_numeric "speed"))
    by (vm_compute; reflexivity).
  split; [exact Hnew |].
  exact (proj1 (@PoseGenerator_new_rejects Fixture.engine Cases.parser _ _ _ _ Hnew)).
Defined.

(** X3. The constructor never looks at the perturbation parameters: two
    configurations with the same label strings in the same order are both
    accepted or both rejected with the same error, whatever their
    distributions, limits and deviations are. *)
Theorem PoseGenerator_new_ignores_params `{StdRandom} `{ProjMetaData}
    (configRules configRules' : list (string * perturbParams.t))
    (sensorNames : list string) (seed : N) :
  configRules.*1 = configRules'.*1 ->
  match PoseGenerator_new configRules sensorNames seed,
        PoseGenerator_new configRules' sensorNames seed with
  | inl e, inl e' => e = e'
  | inr pg, inr pg' =>
      (m_perturbRules pg).*1 = (m_perturbRules pg').*1 /\
      (m_perturbRules pg).*2 = configRules.*2 /\
      (m_perturbRules pg').*2 = configRules'.*2 /\
      m_generator pg = m_generator pg'
  | _, _ => False
  end.
Proof.
  intros Hlabels. unfold PoseGenerator_new.
  assert (Hgen : forall acc acc',
            match build_rules configRules acc, build_rules configRules' acc' with
            | inl e, inl e' => e = e'
            | inr _, inr _ => True
            | _, _ => False
            end).
  { revert configRules' Hlabels.
    induction configRules as [| [s p] rest IH]; intros [| [s' p'] rest'] Hlabels acc acc';
      try done.
    simpl in Hlabels. injection Hlabels as <- Hrest. simpl.
    destruct (check_conditions _); [done |]. by apply IH. }
  specialize (Hgen [] []).
  destruct (build_rules configRules []) as [e | rules] eqn:Hb,
           (build_rules configRules' []) as [e' | rules'] eqn:Hb'; try done.
  apply build_rules_inr in Hb as ->. apply build_rules_inr in Hb' as ->.
  cbn [m_perturbRules m_generator app].
  assert (Hmap : forall l : list (string * perturbParams.t),
            (map (fun rule : string * perturbParams.t =>
                    (stringMapFromSplitString rule.1, rule.2)) l).*1
              = stringMapFromSplitString <$> l.*1 /\
            (map (fun rule : string * perturbParams.t =>
                    (stringMapFromSplitString rule.1, rule.2)) l).*2 = l.*2).
  { induction l as [| r l [IH1 IH2]]; [done |]. split; csimpl; f_equal; [exact IH1 | exact IH2]. }
  destruct (Hmap configRules) as [-> ->], (Hmap configRules') as [-> ->].
  by rewrite Hlabels.
Qed.

Lemma PoseGenerator_new_ignores_params_witness :
  let configRules' :=
    [(Fixture.string1, Fixture.uniformParams); (Fixture.string2, Cases.poissonYaw)] in
  Fixture.configRules.*1 = configRules'.*1 /\
  match @PoseGenerator_new Fixture.engine Fixture.parser Fixture.configRules [] 1,
        @PoseGenerator_new Fixture.engine Fixture.parser configRules' [] 1 with
  | inl e, inl e' => e = e'
  | inr pg, inr pg' =>
      (m_perturbRules pg).*1 = (m_perturbRules pg').*1 /\
      (m_perturbRules pg).*2 = Fixture.configRules.*2 /\
      (m_perturbRules pg').*2 = configRules'.*2 /\
      m_generator pg = m_generator pg'
  | _, _ => False
  end.
Proof.
  intros configRules'. split; [reflexivity |].
  exact (@PoseGenerator_new_ignores_params Fixture.engine Fixture.parser
           Fixture.configRules configRules' [] 1%N eq_refl).
Defined.

(** ** The sampler *)

Section SamplerOutcomes.
Context `{StdRandom}.

Lemma known_distribution_spec name :
  known_distribution name = false <->
  name <> "gaussian" /\ name <> "normal" /\ name <> "uniform".
Proof.
  unfold known_distribution.
  destruct (String.eqb_spec name "gaussian"), (String.eqb_spec name "normal"),
    (String.eqb_spec name "uniform"); simpl; split; try done; tauto.
Qed.

Lemma genGaussianRV_loop_first fuel max d x g v g' :
  genGaussianRV_loop fuel max d x g = Ok v g' ->
  (outside_limit max x = false /\ v = x /\ g' = g) \/
  (outside_limit max x = true /\
   exists k d', (k < fuel)%nat /\ variate_at k d g = (v, d', g') /\
     outside_limit max v = false /\
     forall j, (j < k)%nat -> outside_limit max (variate_at j d g).1.1 = true).
Proof.
  revert d x g. induction fuel as [| fuel IH]; intros d x g; simpl;
    fold (outside_limit max x); destruct (outside_limit max x) eqn:Hx; try discriminate.
  - intros [= <- <-]. by left.
  - destruct (normal_distribution_call d g) as [[x1 d1] g1] eqn:Hcall.
    intros Hloop. right. split; [done |].
    apply IH in Hloop as [(Hin & -> & ->) | (Hout & k & d' & Hk & Hat & Hin & Hbefore)].
    + exists 0%nat, d1. split_and!; [lia | by simpl; rewrite Hcall | done |].
      intros j Hj. lia.
    + exists (S k), d'. split_and!; [lia | by simpl; rewrite Hcall | done |].
      intros [| j] Hj; simpl; rewrite Hcall; [done |]. apply Hbefore. lia.
  - intros [= <- <-]. by left.
Qed.

Lemma genGaussianRV_loop_negative fuel max d x g :
  max < 0 -> genGaussianRV_loop fuel max d x g = OutOfFuel.
Proof.
  intros Hmax. revert d x g. induction fuel as [| fuel IH]; intros d x g; simpl.
  - assert (Hx : Qltb x (- max) || Qltb max x = true); [| by rewrite Hx].
    destruct (Qltb max x) eqn:E; [by rewrite orb_true_r |].
    apply Qltb_false in E. rewrite orb_false_r.
    destruct (Qltb x (- max)) eqn:E'; [done |]. apply Qltb_false in E'. lra.
  - assert (Hx : Qltb x (- max) || Qltb max x = true).
    { destruct (Qltb max x) eqn:E; [by rewrite orb_true_r |].
      apply Qltb_false in E. rewrite orb_false_r.
      destruct (Qltb x (- max)) eqn:E'; [done |]. apply Qltb_false in E'. lra. }
    rewrite Hx. destruct (normal_distribution_call d g) as [[x1 d1] g1]. apply IH.
Qed.

Lemma getRandom_known fuel rParams g :
  known_distribution (randParams.distribution rParams) = true ->
  forall e g', getRandom fuel rParams g <> Throw e g'.
Proof.
  intros Hknown e g' Hthrow. unfold getRandom, known_distribution in *.
  destruct (String.eqb _ "gaussian" || String.eqb _ "normal") eqn:Hg.
  - unfold genGaussianRV in Hthrow.
    apply bind_Throw in Hthrow as [Hd | (? & ? & _ & ?)]; [| done].
    unfold genGaussianRV_double in Hd.
    destruct (normal_distribution_call _ g) as [[x d'] g1].
    by apply genGaussianRV_loop_no_throw in Hd.
  - simpl in Hknown. rewrite Hknown in Hthrow.
    unfold genUniformRV, bind, genUniformRV_double in Hthrow.
    by destruct (uniform_real_distribution _ _ g).
Qed.

Lemma getRandom_unknown fuel rParams g :
  known_distribution (randParams.distribution rParams) = false ->
  getRandom fuel rParams g = Throw (UnknownDistribution (randParams.distribution rParams)) g.
Proof.
  unfold getRandom, known_distribution.
  intros [[-> ->]%orb_false_iff ->]%orb_false_iff. reflexivity.
Qed.

Lemma getRandom_Throw_unknown fuel rParams g e g' :
  getRandom fuel rParams g = Throw e g' ->
  e = UnknownDistribution (randParams.distribution rParams) /\ g' = g /\
  known_distribution (randParams.distribution rParams) = false.
Proof.
  intros Hthrow.
  destruct (known_distribution (randParams.distribution rParams)) eqn:Hknown.
  - by destruct (getRandom_known fuel rParams g Hknown e g').
  - rewrite getRandom_unknown in Hthrow by done. by injection Hthrow as <- <-.
Qed.

End SamplerOutcomes.

(** X4. [getRandom] accepts exactly the names "gaussian", "normal" and
    "uniform", compared as they are written.  For any other name it throws
    [std::invalid_argument] carrying the name, before any draw: the engine
    is left as it was.  It throws in no other case. *)
Theorem getRandom_UnknownDistribution `{StdRandom}
    (fuel : nat) (rParams : randParams.t) (g : mt19937_64) :
  let name := randParams.distribution rParams in
  ((name <> "gaussian" /\ name <> "normal" /\ name <> "uniform") <->
   getRandom fuel rParams g = Throw (UnknownDistribution name) g) /\
  (forall e g', getRandom fuel rParams g = Throw e g' ->
     e = UnknownDistribution name /\ g' = g /\ exception_class e = invalid_argument).
Proof.
  intros name. split.
  - rewrite <- known_distribution_spec. split.
    + apply getRandom_unknown.
    + intros Hthrow. by apply getRandom_Throw_unknown in Hthrow as (_ & _ & ?).
  - intros e g' (-> & -> & _)%getRandom_Throw_unknown. done.
Qed.

Section RejectionLoop.
Context `{StdRandom}.

Lemma outside_limit_false max x : outside_limit max x = false <-> - max <= x /\ x <= max.
Proof.
  unfold outside_limit. rewrite orb_false_iff, !Qltb_false. tauto.
Qed.

Lemma outside_limit_true max x : outside_limit max x = true <-> x < - max \/ max < x.
Proof.
  destruct (outside_limit max x) eqn:E.
  - split; [intros _ | done].
    destruct (Qlt_le_dec x (- max)) as [? | Hlo]; [by left |].
    destruct (Qlt_le_dec max x) as [? | Hhi]; [by right |].
    assert (outside_limit max x = false) by by apply outside_limit_false.
    congruence.
  - apply outside_limit_false in E as [Hlo Hhi]. split; [done |].
    intros [Hlt | Hlt]; lra.
Qed.

Lemma genGaussianRV_loop_complete fuel max d x g k v d' g' :
  outside_limit max x = true ->
  (k < fuel)%nat ->
  variate_at k d g = (v, d', g') ->
  outside_limit max v = false ->
  (forall j, (j < k)%nat -> outside_limit max (variate_at j d g).1.1 = true) ->
  genGaussianRV_loop fuel max d x g = Ok v g'.
Proof.
  revert d x g k. induction fuel as [| fuel IH]; intros d x g k Hx Hk Hat Hin Hbefore;
    [lia |].
  simpl. fold (outside_limit max x). rewrite Hx.
  destruct (normal_distribution_call d g) as [[x1 d1] g1] eqn:Hcall.
  destruct k as [| k].
  - simpl in Hat. rewrite Hcall in Hat. injection Hat as -> -> ->.
    destruct fuel; simpl; fold (outside_limit max v); by rewrite Hin.
  - simpl in Hat. rewrite Hcall in Hat.
    apply (IH d1 x1 g1 k); [| lia | done | done |].
    + specialize (Hbefore 0%nat ltac:(lia)). simpl in Hbefore. by rewrite Hcall in Hbefore.
    + intros j Hj. specialize (Hbefore (S j) ltac:(lia)). simpl in Hbefore.
      by rewrite Hcall in Hbefore.
Qed.

End RejectionLoop.

(** X5. [genUniformRV] always returns, after exactly one engine output,
    whatever the parameters.  For a hard limit that is a [double], not
    negative and at most [FLT_MAX], what it returns is the [double] it
    draws converted to [float]; the [double] is the value of the
    distribution for that one output and lies in the closed range
    [-max, max], and the [float] is finite.  The range is closed because
    the three operations of the distribution round: the upper end, which
    [std::uniform_real_distribution] is specified to exclude, is drawn
    for the smallest positive [double] as limit at three quarters of the
    engine's range. *)
Theorem genUniformRV_one_draw `{StdRandom} (params : randParams.t) (g : mt19937_64) :
  let d := uniform_double (- randParams.max params) (randParams.max params)
             (canonical (mt19937_64_next g).1) in
  (exists v, genUniformRV params g = Ok v (mt19937_64_next g).2) /\
  (binary64_representable (randParams.max params) ->
   0 <= randParams.max params ->
   randParams.max params <= FLT_MAX ->
   genUniformRV_double params g = Ok d (mt19937_64_next g).2 /\
   genUniformRV params g = Ok (double_to_float d) (mt19937_64_next g).2 /\
   - randParams.max params <= d /\ d <= randParams.max params /\
   Qabs (double_to_float d) <= FLT_MAX).
Proof.
  intros d.
  assert (Hdraw : genUniformRV_double params g = Ok d (mt19937_64_next g).2).
  { unfold genUniformRV_double, uniform_real_distribution, generate_canonical, d.
    by destruct (mt19937_64_next g) as [w g1]. }
  assert (Hrun : genUniformRV params g = Ok (double_to_float d) (mt19937_64_next g).2).
  { unfold genUniformRV, bind. by rewrite Hdraw. }
  split; [by exists (double_to_float d) |].
  intros Hrep Hmax Hrange.
  destruct (genUniformRV_double_bounded params g d _ Hrep Hmax Hdraw) as [Hlo Hhi].
  split; [exact Hdraw |]. split; [exact Hrun |].
  split; [exact Hlo |]. split; [exact Hhi |].
  apply double_to_float_finite, Qabs_Qle_condition. split; lra.
Qed.

Lemma genUniformRV_one_draw_witness :
  let params := randParams.mk "uniform" (1 # 2 ^ 1074) 1 in
  let g := [13835058055282163712%N] in
  binary64_representable (randParams.max params) /\
  exists d : double,
    @genUniformRV_double (Scripted.random (fun _ => [])) params g = Ok d [] /\
    @genUniformRV (Scripted.random (fun _ => [])) params g = Ok (double_to_float d) [] /\
    - randParams.max params <= d /\ d <= randParams.max params /\
    d == randParams.max params.
Proof.
  intros params g.
  assert (Hrep : binary64_representable (randParams.max params))
    by (vm_compute; reflexivity).
  split; [exact Hrep |].
  destruct (@genUniformRV_one_draw (Scripted.random (fun _ => [])) params g)
    as [_ Hin].
  destruct (Hin Hrep ltac:(discriminate) ltac:(discriminate))
    as (Hd & Hf & Hlo & Hhi & _).
  eexists. split; [exact Hd |]. split; [exact Hf |]. split; [exact Hlo |].
  split; [exact Hhi |]. vm_compute. reflexivity.
Defined.

(** X6. With a hard limit of zero the sampler can only return zero,
    whichever distribution is named. *)
Theorem getRandom_zero_limit `{StdRandom}
    (fuel : nat) (rParams : randParams.t) (g : mt19937_64) (v : float) (g' : mt19937_64) :
  randParams.max rParams == 0 ->
  getRandom fuel rParams g = Ok v g' ->
  v = 0.
Proof.
  intros Hmax Hrun.
  destruct (getRandom_Ok fuel rParams g v g') as (d & -> & Hlo & Hhi);
    [by apply binary64_representable_zero | lra | done |].
  unfold double_to_float.
  assert (Hd : Qeq_bool d 0 = true) by (apply Qeq_bool_iff; lra).
  by rewrite Hd.
Qed.

Lemma getRandom_zero_limit_witness :
  let rParams := randParams.mk "uniform" 0 1 in
  randParams.max rParams == 0 /\
  exists v g',
    @getRandom (Scripted.random (fun _ => [])) 0 rParams [5%N] = Ok v g' /\ v = 0.
Proof.
  intros rParams. split; [reflexivity |].
  destruct (returns_Ok (@getRandom (Scripted.random (fun _ => [])) 0 rParams [5%N])
              ltac:(vm_compute; reflexivity)) as (v & g' & Hrun).
  exists v, g'. split; [exact Hrun |].
  exact (@getRandom_zero_limit (Scripted.random (fun _ => [])) 0 rParams [5%N] v g'
           ltac:(reflexivity) Hrun).
Defined.

(** X7. With a negative hard limit and a gaussian distribution the
    sampler never returns: no variate passes the test of the rejection
    loop, so the loop outlasts every redraw budget. *)
Theorem getRandom_negative_limit_never_returns `{StdRandom}
    (rParams : randParams.t) :
  randParams.max rParams < 0 ->
  randParams.distribution rParams = "gaussian" \/
  randParams.distribution rParams = "normal" ->
  forall fuel g, getRandom fuel rParams g = OutOfFuel.
Proof.
  intros Hmax Hname fuel g. unfold getRandom.
  assert (Hg : String.eqb (randParams.distribution rParams) "gaussian"
               || String.eqb (randParams.distribution rParams) "normal" = true).
  { destruct Hname as [-> | ->]; reflexivity. }
  rewrite Hg. unfold genGaussianRV, bind, genGaussianRV_double.
  destruct (normal_distribution_call _ g) as [[x d'] g1].
  by rewrite genGaussianRV_loop_negative.
Qed.

Lemma getRandom_negative_limit_never_returns_witness :
  let rParams := randParams.mk "gaussian" (- (1)) 1 in
  randParams.max rParams < 0 /\
  forall fuel g, @getRandom Fixture.engine fuel rParams g = OutOfFuel.
Proof.
  intros rParams. split; [reflexivity |].
  exact (@getRandom_negative_limit_never_returns Fixture.engine rParams eq_refl
           (or_introl eq_refl)).
Defined.

(** X8. [genGaussianRV] samples by rejection, not by clamping: the
    [double] it holds when its loop exits is the first variate, in the
    order the distribution object produces them, that lies in
    [-max, max]; every variate before it lies outside, and the engine is
    left where that variate's call left it.  With a budget of [fuel]
    redraws the loop exits exactly when such a variate is among the first
    [fuel + 1]. *)
Theorem genGaussianRV_first_in_range `{StdRandom}
    (fuel : nat) (params : randParams.t) (g : mt19937_64) (v : double) (g' : mt19937_64) :
  let distribution_norm := normal_distribution_ctor 0 (randParams.stdDev params) in
  genGaussianRV_double fuel params g = Ok v g' <->
  exists k d',
    (k <= fuel)%nat /\
    variate_at k distribution_norm g = (v, d', g') /\
    (- randParams.max params <= v /\ v <= randParams.max params) /\
    forall j, (j < k)%nat ->
      (variate_at j distribution_norm g).1.1 < - randParams.max params \/
      randParams.max params < (variate_at j distribution_norm g).1.1.
Proof.
  intros dn. unfold genGaussianRV_double. fold dn.
  destruct (normal_distribution_call dn g) as [[x0 d0] g0] eqn:Hcall.
  cbv beta iota. split.
  - intros Hloop.
    apply genGaussianRV_loop_first in Hloop
      as [(Hin & -> & ->) | (Hout & k & d' & Hk & Hat & Hin & Hbefore)].
    + exists 0%nat, d0. split; [lia |]. split; [by simpl; rewrite Hcall |].
      split; [by apply outside_limit_false | intros j Hj; lia].
    + exists (S k), d'. split; [lia |]. split; [by simpl; rewrite Hcall |]. split.
      * by apply outside_limit_false.
      * intros [| j] Hj; apply outside_limit_true; simpl; rewrite Hcall; [done |].
        apply Hbefore. lia.
  - intros (k & d' & Hk & Hat & Hin%outside_limit_false & Hbefore).
    destruct k as [| k].
    + simpl in Hat. rewrite Hcall in Hat. injection Hat as -> -> ->.
      destruct fuel; simpl; fold (outside_limit (randParams.max params) v); by rewrite Hin.
    + simpl in Hat. rewrite Hcall in Hat.
      apply (genGaussianRV_loop_complete _ _ _ _ _ k v d'); [| lia | done | done |].
      * specialize (Hbefore 0%nat ltac:(lia)). apply outside_limit_true in Hbefore.
        simpl in Hbefore. by rewrite Hcall in Hbefore.
      * intros j Hj. specialize (Hbefore (S j) ltac:(lia)). apply outside_limit_true in Hbefore.
        simpl in Hbefore. by rewrite Hcall in Hbefore.
Qed.

(** ** One pose *)

Section OnePoseFacts.
Context `{StdRandom}.

Lemma first_draw_is_Some {V} name (draws : list (string * V)) :
  is_Some (first_draw name draws) <-> name ∈ draws.*1.
Proof.
  induction draws as [| [n v] rest IH]; simpl.
  - split; [by intros [? ?] | by intros ?%elem_of_nil].
  - destruct (String.eqb_spec n name) as [-> | Hne].
    + split; [intros _; by left | by eauto].
    + rewrite IH, elem_of_cons. split; [by right | by intros [? | ?]].
Qed.

Lemma sensor_loop_Throw_name fuel params sensorNames aPose g e g' :
  sensor_loop fuel params sensorNames aPose g = Throw e g' ->
  sensorNames <> [] /\
  exists rParams,
    rParams ∈ [perturbParams.sensor_yaw params; perturbParams.sensor_pitch params;
               perturbParams.sensor_roll params] /\
    e = UnknownDistribution (randParams.distribution rParams) /\
    known_distribution (randParams.distribution rParams) = false.
Proof.
  revert aPose g. induction sensorNames as [| n rest IH]; intros aPose g; simpl.
  - discriminate.
  - intros Hthrow. split; [done |]. revert Hthrow.
    rewrite bind_Throw. intros [Hr | (? & ? & _ & H1)].
    { exists (perturbParams.sensor_yaw params). split; [by left |].
      by apply getRandom_Throw_unknown in Hr as (-> & _ & ?). }
    apply bind_Throw in H1 as [Hr | (? & ? & _ & H1)].
    { exists (perturbParams.sensor_pitch params). split; [right; by left |].
      by apply getRandom_Throw_unknown in Hr as (-> & _ & ?). }
    apply bind_Throw in H1 as [Hr | (? & ? & _ & H1)].
    { exists (perturbParams.sensor_roll params). split; [right; right; by left |].
      by apply getRandom_Throw_unknown in Hr as (-> & _ & ?). }
    by apply IH in H1 as [_ ?].
Qed.

End OnePoseFacts.

Section UnknownFacts.
Context `{StdRandom}.

(** The parameter sets of a rule that name a distribution. *)
Lemma generateOnePose_Throw_unknown sensorNames fuel params g e g' :
  generateOnePose sensorNames fuel params g = Throw e g' ->
  exists rParams,
    rParams ∈ [perturbParams.shift params; perturbParams.rotation params;
               perturbParams.forward params] ++
              (if decide (sensorNames = []) then []
               else [perturbParams.sensor_yaw params; perturbParams.sensor_pitch params;
                     perturbParams.sensor_roll params]) /\
    e = UnknownDistribution (randParams.distribution rParams) /\
    known_distribution (randParams.distribution rParams) = false.
Proof.
  unfold generateOnePose. rewrite bind_Throw. intros [Hr | (? & ? & _ & H1)].
  { exists (perturbParams.shift params). split; [by left |].
    by apply getRandom_Throw_unknown in Hr as (-> & _ & ?). }
  apply bind_Throw in H1 as [Hr | (? & ? & _ & H1)].
  { exists (perturbParams.rotation params). split; [right; by left |].
    by apply getRandom_Throw_unknown in Hr as (-> & _ & ?). }
  apply bind_Throw in H1 as [Hr | (? & ? & _ & H1)].
  { exists (perturbParams.forward params). split; [right; right; by left |].
    by apply getRandom_Throw_unknown in Hr as (-> & _ & ?). }
  apply bind_Throw in H1 as [Hr | (? & ? & _ & H1)]; [| discriminate].
  apply sensor_loop_Throw_name in Hr as (Hne & rParams & Hin & -> & Hunknown).
  exists rParams. split; [| done].
  destruct (decide (sensorNames = [])); [done |].
  by do 3 right.
Qed.

Lemma synthesize_Throw_unknown sensorNames fuel params index n g e g' :
  synthesize sensorNames fuel params index n g = Throw e g' ->
  exists g0, generateOnePose sensorNames fuel params g0 = Throw e g'.
Proof.
  revert g. induction n as [| n IH]; intros g; simpl; [discriminate |].
  rewrite bind_Throw. intros [Hr | (? & g1 & _ & H1)]; [eauto |].
  apply bind_Throw in H1 as [Hr | (? & ? & _ & H1)]; [by eapply IH | discriminate].
Qed.

(** An [UnknownDistribution] from the frame planner comes from the first
    matching rule of the frame, whose use count is positive. *)
Lemma generatePoses4oneFrame_Throw_unknown rules sensorNames fuel useCount index trace
    g e g' :
  generatePoses4oneFrame rules sensorNames fuel useCount index trace g = Throw e g' ->
  is_UnknownDistribution e ->
  useCount <> 0%N /\
  exists rule g0,
    first_rule rules index trace = Some rule /\
    generateOnePose sensorNames fuel rule.2 g0 = Throw e g'.
Proof.
  intros Hrun He. destruct (N.eq_dec useCount 0%N) as [-> | Hcount]; [discriminate |].
  split; [done |].
  destruct (first_rule rules index trace) as [rule |] eqn:Hrule.
  - rewrite (generatePoses4oneFrame_matched _ _ _ _ _ _ rule) in Hrun by done.
    rewrite poses_loop_synthesize in Hrun.
    apply bind_Throw in Hrun as [Hs | (? & ? & _ & ?)]; [| discriminate].
    apply synthesize_Throw_unknown in Hs as [g0 Hone]. eauto.
  - rewrite generatePoses4oneFrame_unmatched in Hrun by done.
    apply throw_no_rule_found_Throw in Hrun as (-> & _). destruct He.
Qed.

Lemma frames_loop_Throw_unknown rules sensorNames fuel vecUseCounts trace n i vecVecPoses
    g e g' :
  frames_loop rules sensorNames fuel vecUseCounts trace n i vecVecPoses g = Throw e g' ->
  is_UnknownDistribution e ->
  exists k useCount rule g0,
    (i <= k < i + N.of_nat n)%N /\
    vecUseCounts !! N.to_nat k = Some useCount /\ useCount <> 0%N /\
    first_rule rules k trace = Some rule /\
    generateOnePose sensorNames fuel rule.2 g0 = Throw e g'.
Proof.
  revert i vecVecPoses g. induction n as [| n IH]; intros i vecVecPoses g; simpl.
  - discriminate.
  - destruct (vecUseCounts !! N.to_nat i) as [useCount |] eqn:Hat.
    + rewrite bind_Throw. intros [Hone | (Poses & g1 & Hone & Hrest)] He.
      * apply generatePoses4oneFrame_Throw_unknown in Hone
          as (Hcount & rule & g0 & Hrule & Hthrow); [| done].
        exists i, useCount, rule, g0. split_and!; [lia | lia | done ..].
      * destruct (IH _ _ _ Hrest He) as (k & c & rule & g0 & Hk & Hrest').
        exists k, c, rule, g0. split; [lia | done].
    + intros [= <- <-] He. destruct He.
Qed.

Lemma generatePoses4vecFrames_Throw_unknown files rules sensorNames fuel vecUseCounts name
    g e g' :
  generatePoses4vecFrames files rules sensorNames fuel vecUseCounts name g = Throw e g' ->
  is_UnknownDistribution e ->
  exists trace k useCount rule g0,
    files name = Some trace /\
    (k < getNumDatapoints trace)%N /\
    vecUseCounts !! N.to_nat k = Some useCount /\ useCount <> 0%N /\
    first_rule rules k trace = Some rule /\
    generateOnePose sensorNames fuel rule.2 g0 = Throw e g'.
Proof.
  unfold generatePoses4vecFrames.
  destruct (files name) as [trace |] eqn:Hfile; [| intros [= <- <-] He; destruct He].
  destruct (N.eqb_spec (getNumDatapoints trace) (to_uint32 (N.of_nat (length vecUseCounts))))
    as [Hnum | _]; [| intros [= <- <-] He; destruct He].
  simpl. rewrite bind_Throw. intros [Hloop | (vv & g1 & Hloop & Hsize)] He.
  - destruct (frames_loop_Throw_unknown _ _ _ _ _ _ _ _ _ _ _ Hloop He)
      as (k & c & rule & g0 & Hk & Hrest).
    exists trace, k, c, rule, g0. split; [done |]. split; [rewrite Hnum; lia | done].
  - destruct (negb _); [| discriminate]. injection Hsize as <- <-. destruct He.
Qed.

End UnknownFacts.

(** X9. The three sensor maps of a generated pose have exactly the
    configured sensor names as their keys: every listed sensor has a yaw,
    a pitch and a roll entry, and no other key is present (a name listed
    more than once is one key). *)
Theorem generateOnePose_sensor_keys `{StdRandom}
    (sensorNames : list string) (fuel : nat) (params : perturbParams.t)
    (g : mt19937_64) (pose : Pose.t) (g' : mt19937_64) :
  generateOnePose sensorNames fuel params g = Ok pose g' ->
  dom (Pose.sensor_yaw pose) = list_to_set (C := gset string) sensorNames /\
  dom (Pose.sensor_pitch pose) = list_to_set (C := gset string) sensorNames /\
  dom (Pose.sensor_roll pose) = list_to_set (C := gset string) sensorNames.
Proof.
  intros Hrun.
  apply generateOnePose_draws in Hrun
    as (scalars & g1 & draws & _ & _ & Hnames & _ & _ & _ & Hmaps).
  split_and!; apply set_eq; intros name; destruct (Hmaps name) as (Hy & Hp & Hr);
    rewrite elem_of_dom, elem_of_list_to_set, <- Hnames, <- first_draw_is_Some;
    [rewrite Hy | rewrite Hp | rewrite Hr]; by rewrite fmap_is_Some.
Qed.

Lemma generateOnePose_sensor_keys_witness :
  exists pose g',
    @generateOnePose (Scripted.random (fun _ => [])) Fixture.twiceSensor 0
      Fixture.uniformParams Fixture.twiceTape = Ok pose g' /\
    dom (Pose.sensor_yaw pose) = ({[ "c" ]} : gset string) /\
    dom (Pose.sensor_pitch pose) = ({[ "c" ]} : gset string) /\
    dom (Pose.sensor_roll pose) = ({[ "c" ]} : gset string).
Proof.
  destruct (returns_Ok
    (@generateOnePose (Scripted.random (fun _ => [])) Fixture.twiceSensor 0
       Fixture.uniformParams Fixture.twiceTape) ltac:(vm_compute; reflexivity))
    as (pose & g' & Hrun).
  exists pose, g'. split; [exact Hrun |].
  destruct (@generateOnePose_sensor_keys (Scripted.random (fun _ => []))
              Fixture.twiceSensor 0 Fixture.uniformParams Fixture.twiceTape pose g' Hrun)
    as (-> & -> & ->).
  assert (Hset : list_to_set (C := gset string) Fixture.twiceSensor = {[ "c" ]})
    by (apply set_eq; intros x; unfold Fixture.twiceSensor; set_solver).
  by rewrite Hset.
Defined.

(** X10. [generateOnePose] throws only [UnknownDistribution], and only
    for the distribution name of a parameter set that it consults: shift,
    rotation and forward always, sensor_yaw, sensor_pitch and sensor_roll
    when at least one sensor is configured.  The name it reports is not
    one of the three known names, so with all consulted names known it
    does not throw; and an unknown name for shift, the first field drawn,
    is reported before any draw. *)
Theorem generateOnePose_Throw_names `{StdRandom}
    (sensorNames : list string) (fuel : nat) (params : perturbParams.t) (g : mt19937_64) :
  (forall e g',
     generateOnePose sensorNames fuel params g = Throw e g' ->
     exists rParams,
       rParams ∈ [perturbParams.shift params; perturbParams.rotation params;
                  perturbParams.forward params] ++
                 (if decide (sensorNames = []) then []
                  else [perturbParams.sensor_yaw params; perturbParams.sensor_pitch params;
                        perturbParams.sensor_roll params]) /\
       e = UnknownDistribution (randParams.distribution rParams) /\
       known_distribution (randParams.distribution rParams) = false) /\
  (known_distribution (randParams.distribution (perturbParams.shift params)) = false ->
   generateOnePose sensorNames fuel params g =
   Throw (UnknownDistribution (randParams.distribution (perturbParams.shift params))) g).
Proof.
  split.
  - intros e g'. apply generateOnePose_Throw_unknown.
  - intros Hunknown. unfold generateOnePose, bind.
    by rewrite (getRandom_unknown fuel _ g Hunknown).
Qed.

Lemma generateOnePose_Throw_names_witness :
  let run := @generateOnePose (Scripted.random (fun _ => [])) Fixture.oneSensor 0
               Cases.poissonYaw [1; 2; 3; 4]%N in
  run = Throw (UnknownDistribution "poisson") [4%N] /\
  exists rParams,
    rParams ∈ [perturbParams.shift Cases.poissonYaw; perturbParams.rotation Cases.poissonYaw;
               perturbParams.forward Cases.poissonYaw] ++
              (if decide (Fixture.oneSensor = []) then []
               else [perturbParams.sensor_yaw Cases.poissonYaw;
                     perturbParams.sensor_pitch Cases.poissonYaw;
                     perturbParams.sensor_roll Cases.poissonYaw]) /\
    UnknownDistribution "poisson" = UnknownDistribution (randParams.distribution rParams) /\
    known_distribution (randParams.distribution rParams) = false.
Proof.
  intros run.
  assert (Hrun : run = Throw (UnknownDistribution "poisson") [4%N])
    by (vm_compute; reflexivity).
  split; [exact Hrun |].
  exact (proj1 (@generateOnePose_Throw_names (Scripted.random (fun _ => []))
                  Fixture.oneSensor 0 Cases.poissonYaw [1; 2; 3; 4]%N) _ _ Hrun).
Defined.

(** X11. [flipPose] is not its own inverse: flipping a pose twice gives
    back its shift and rotation, with every other field kept, but the
    flip flag stays set. *)
Theorem flipPose_twice (pose : Pose.t) :
  flipPose (flipPose pose) =
  {| Pose.shift := Pose.shift pose;
     Pose.rotation := Pose.rotation pose;
     Pose.forward := Pose.forward pose;
     Pose.sensor_yaw := Pose.sensor_yaw pose;
     Pose.sensor_pitch := Pose.sensor_pitch pose;
     Pose.sensor_roll := Pose.sensor_roll pose;
     Pose.flip := true;
     Pose.srcFrame := Pose.srcFrame pose |}.
Proof.
  unfold flipPose. cbn [Pose.shift Pose.rotation Pose.forward Pose.sensor_yaw
    Pose.sensor_pitch Pose.sensor_roll Pose.flip Pose.srcFrame].
  rewrite !Qmult_minus_one.
  assert (Hopp : forall x : Q, - - x = x).
  { intros [n d]. unfold Qopp. simpl. by rewrite Z.opp_involutive. }
  by rewrite !Hopp.
Qed.

(** X12. When all six distributions are uniform, with hard limits that
    are doubles, not negative and at most [FLT_MAX], [generateOnePose]
    always returns, takes exactly 3 + 3 * n engine outputs for n
    configured sensor names (whether or not names repeat), and spends
    them in a fixed order: the first three on shift, rotation and
    forward, and the next three on the yaw, pitch and roll of each sensor
    name in turn.  The field holds what [genUniformRV] returns for its
    output: the value of the distribution for that output, computed in
    binary64 operation by operation and converted to [float], which is
    finite.  A sensor map holds, under a name, the value of the outputs
    spent on the first position that carries the name. *)
Theorem generateOnePose_uniform_layout `{StdRandom}
    (sensorNames : list string) (fuel : nat) (params : perturbParams.t) (g : mt19937_64) :
  uniform_params params ->
  (exists pose,
     generateOnePose sensorNames fuel params g =
       Ok pose (mt19937_64_discard (3 + 3 * length sensorNames) g) /\
     Pose.shift pose = uniform_value (perturbParams.shift params) (mt19937_64_output 0 g) /\
     Pose.rotation pose =
       uniform_value (perturbParams.rotation params) (mt19937_64_output 1 g) /\
     Pose.forward pose =
       uniform_value (perturbParams.forward params) (mt19937_64_output 2 g) /\
     forall (i : nat) name,
       sensorNames !! i = Some name ->
       (forall k, (k < i)%nat -> sensorNames !! k <> Some name) ->
       Pose.sensor_yaw pose !! name =
         Some (uniform_value (perturbParams.sensor_yaw params)
                 (mt19937_64_output (3 + 3 * i) g)) /\
       Pose.sensor_pitch pose !! name =
         Some (uniform_value (perturbParams.sensor_pitch params)
                 (mt19937_64_output (3 + 3 * i + 1) g)) /\
       Pose.sensor_roll pose !! name =
         Some (uniform_value (perturbParams.sensor_roll params)
                 (mt19937_64_output (3 + 3 * i + 2) g))) /\
  forall rParams w,
    rParams ∈ [perturbParams.shift params; perturbParams.rotation params;
               perturbParams.forward params; perturbParams.sensor_yaw params;
               perturbParams.sensor_pitch params; perturbParams.sensor_roll params] ->
    Qabs (uniform_value rParams w) <= FLT_MAX.
Proof.
  intros Hall. split.
  - by apply generateOnePose_uniform_fields, uniform_params_uniform.
  - intros rParams w Hin. apply uniform_value_finite.
    unfold uniform_params in Hall. rewrite Forall_forall in Hall. by apply Hall.
Qed.

Lemma generateOnePose_uniform_layout_witness :
  uniform_params Fixture.uniformParams /\
  exists pose,
    @generateOnePose (Scripted.random (fun _ => [])) Fixture.twiceSensor 0
      Fixture.uniformParams Fixture.twiceTape =
      Ok pose (@mt19937_64_discard (Scripted.random (fun _ => [])) (3 + 3 * 2)
                 Fixture.twiceTape) /\
    Pose.shift pose =
      uniform_value (perturbParams.shift Fixture.uniformParams)
        (@mt19937_64_output (Scripted.random (fun _ => [])) 0 Fixture.twiceTape) /\
    Pose.sensor_yaw pose !! "c" =
      Some (uniform_value (perturbParams.sensor_yaw Fixture.uniformParams)
              (@mt19937_64_output (Scripted.random (fun _ => [])) 3 Fixture.twiceTape)).
Proof.
  assert (Hrange : uniform_in_range (randParams.mk "uniform" 1 1)).
  { split; [reflexivity |]. split; [vm_compute; reflexivity |].
    split; discriminate. }
  assert (Huniform : uniform_params Fixture.uniformParams)
    by (repeat (constructor; [exact Hrange |]); constructor).
  split; [exact Huniform |].
  destruct (@generateOnePose_uniform_layout (Scripted.random (fun _ => []))
              Fixture.twiceSensor 0 Fixture.uniformParams Fixture.twiceTape Huniform)
    as ((pose & Hrun & Hshift & _ & _ & Hsensors) & _).
  exists pose. split; [exact Hrun |]. split; [exact Hshift |].
  destruct (Hsensors 0%nat "c" eq_refl ltac:(intros k Hk; lia)) as (Hyaw & _ & _).
  exact Hyaw.
Defined.

(** ** One frame *)

Section FlipStep.
Context `{StdRandom}.

Lemma emit_srcFrame flip i pose : Pose.srcFrame (emit flip i pose) = Pose.srcFrame pose.
Proof. unfold emit. by destruct (flip && _). Qed.

Lemma generatePoses4oneFrame_srcFrame rules sensorNames fuel useCount index trace g poses g' :
  generatePoses4oneFrame rules sensorNames fuel useCount index trace g = Ok poses g' ->
  Forall (fun pose => Pose.srcFrame pose = index) poses.
Proof.
  intros Hrun. destruct (N.eq_dec useCount 0%N) as [-> | Hcount].
  - injection Hrun as <- _. constructor.
  - destruct (first_rule rules index trace) as [rule |] eqn:Hrule.
    + rewrite (generatePoses4oneFrame_matched _ _ _ _ _ _ rule) in Hrun by done.
      apply poses_loop_Ok in Hrun as (synth & Hsynth & ->).
      apply synthesize_Ok in Hsynth as [_ Hall]. rewrite app_nil_l.
      apply Forall_lookup. intros j pose. rewrite lookup_emit_all.
      destruct (synth !! j) as [s |] eqn:Hs; [| done]. intros [= <-].
      rewrite emit_srcFrame. rewrite Forall_lookup in Hall. by destruct (Hall j s Hs).
    + by apply generatePoses4oneFrame_unmatched_Ok in Hrun.
Qed.

(** Flipped poses among [n] poses emitted from loop counter [i] on. *)
Lemma emit_all_flip_count i synth :
  Forall (fun s => Pose.flip s = false) synth ->
  length (List.filter Pose.flip (emit_all true i synth)) =
  ((length synth + N.to_nat (i mod 2)) / 2)%nat /\
  length (List.filter Pose.flip (emit_all false i synth)) = 0%nat.
Proof.
  intros Hall. revert i. induction Hall as [| s synth Hs _ IH]; intros i.
  - cbn [emit_all List.filter length Nat.add]. split; [| done].
    assert (i mod 2 < 2)%N by (apply N.mod_lt; lia).
    symmetry. apply Nat.div_small. lia.
  - destruct (IH (i + 1)%N) as [IHt IHf]. cbn [emit_all List.filter]. unfold emit.
    cbn [andb]. split; [| by rewrite Hs].
    assert (Hi : (i mod 2 = 0 \/ i mod 2 = 1)%N).
    { assert (Hlt : (i mod 2 < 2)%N) by (apply N.mod_lt; lia).
      revert Hlt. generalize (i mod 2)%N. intros r Hlt. lia. }
    assert (Hnext : ((i + 1) mod 2 = 1 - i mod 2)%N).
    { destruct Hi as [Hi | Hi]; rewrite N.Div0.add_mod, Hi by lia; reflexivity. }
    rewrite Hnext in IHt.
    destruct Hi as [Hi | Hi]; rewrite Hi in *; simpl negb; cbn [length].
    + rewrite Hs, IHt. change (N.to_nat (1 - 0)) with 1%nat.
      change (N.to_nat 0) with 0%nat. f_equal. lia.
    + change (Pose.flip (flipPose s)) with true. cbn [length]. rewrite IHt.
      change (N.to_nat (1 - 1)) with 0%nat. change (N.to_nat 1) with 1%nat.
      replace (S (length synth) + 1)%nat with (length synth + 0 + 1 * 2)%nat by lia.
      rewrite Nat.div_add by lia. lia.
Qed.

Lemma sensor_loop_params fuel p p' sensorNames aPose g :
  same_draw_params p p' ->
  sensor_loop fuel p sensorNames aPose g = sensor_loop fuel p' sensorNames aPose g.
Proof.
  intros (_ & _ & _ & Hy & Hp & Hr). revert aPose g.
  induction sensorNames as [| n rest IH]; intros aPose g; [done |].
  cbn [sensor_loop]. rewrite Hy, Hp, Hr.
  apply bind_ext. intros yaw g1 _. apply bind_ext. intros pitch g2 _.
  apply bind_ext. intros roll g3 _. apply IH.
Qed.

Lemma generateOnePose_params sensorNames fuel p p' g :
  same_draw_params p p' ->
  generateOnePose sensorNames fuel p g = generateOnePose sensorNames fuel p' g.
Proof.
  intros Hsame. pose proof Hsame as (Hs & Hr & Hf & _). unfold generateOnePose.
  rewrite Hs, Hr, Hf.
  apply bind_ext. intros shift g1 _. apply bind_ext. intros rotation g2 _.
  apply bind_ext. intros forward g3 _. unfold bind.
  by rewrite (sensor_loop_params fuel p p').
Qed.

Lemma synthesize_params sensorNames fuel p p' index n g :
  same_draw_params p p' ->
  synthesize sensorNames fuel p index n g = synthesize sensorNames fuel p' index n g.
Proof.
  intros Hsame. revert g. induction n as [| n IH]; intros g; [done |].
  cbn [synthesize]. unfold bind at 1 3.
  rewrite (generateOnePose_params sensorNames fuel p p') by done.
  destruct (generateOnePose sensorNames fuel p' g) as [pose g1 | | |]; [| done ..].
  unfold bind. by rewrite IH.
Qed.

Lemma emit_all_false i poses : emit_all false i poses = poses.
Proof.
  revert i. induction poses as [| p poses IH]; intros i; [done |].
  cbn [emit_all]. by rewrite IH.
Qed.

End FlipStep.

(** X13. Among the poses that the frame planner returns for a matched
    rule, the flipped ones number half the use count, rounded down, when
    the rule enables flip, and none otherwise. *)
Theorem generatePoses4oneFrame_flip_count `{StdRandom}
    (rules : list Rule) (sensorNames : list string) (fuel : nat) (useCount index : N)
    (trace : projMetaTrace) (rule : Rule) (g : mt19937_64)
    (poses : list Pose.t) (g' : mt19937_64) :
  first_rule rules index trace = Some rule ->
  generatePoses4oneFrame rules sensorNames fuel useCount index trace g = Ok poses g' ->
  N.of_nat (length (List.filter Pose.flip poses)) =
  if perturbParams.flip rule.2 then (useCount / 2)%N else 0%N.
Proof.
  intros Hrule Hrun. destruct (N.eq_dec useCount 0%N) as [-> | Hcount].
  - injection Hrun as <- _. by destruct (perturbParams.flip rule.2).
  - rewrite (generatePoses4oneFrame_matched _ _ _ _ _ _ rule) in Hrun by done.
    apply poses_loop_Ok in Hrun as (synth & Hsynth & ->).
    apply synthesize_Ok in Hsynth as [Hlen Hall]. rewrite app_nil_l.
    assert (Hflips : Forall (fun s => Pose.flip s = false) synth).
    { eapply Forall_impl; [exact Hall |]. by intros s [? _]. }
    destruct (emit_all_flip_count 0 synth Hflips) as [Ht Hf].
    destruct (perturbParams.flip rule.2).
    + rewrite Ht, Hlen. change (N.to_nat (0 mod 2)) with 0%nat. rewrite Nat.add_0_r.
      change 2%nat with (N.to_nat 2). rewrite <- N2Nat.inj_div. apply N2Nat.id.
    + by rewrite Hf.
Qed.

Lemma generatePoses4oneFrame_flip_count_witness :
  let rules := [(Fixture.highway, Fixture.perturbParams1);
                (Fixture.local, Fixture.perturbParams2)] in
  exists poses g',
    first_rule rules 0 Fixture.trace = Some (Fixture.highway, Fixture.perturbParams1) /\
    @generatePoses4oneFrame Fixture.engine rules Fixture.oneSensor 5 3 0 Fixture.trace
      (Fixture.book 1) = Ok poses g' /\
    N.of_nat (length (List.filter Pose.flip poses)) = 1%N.
Proof.
  intros rules.
  assert (Hrule : first_rule rules 0 Fixture.trace =
                  Some (Fixture.highway, Fixture.perturbParams1))
    by (vm_compute; reflexivity).
  destruct (returns_Ok
    (@generatePoses4oneFrame Fixture.engine rules Fixture.oneSensor 5 3 0 Fixture.trace
       (Fixture.book 1)) ltac:(vm_compute; reflexivity)) as (poses & g' & Hrun).
  exists poses, g'. split; [exact Hrule |]. split; [exact Hrun |].
  exact (@generatePoses4oneFrame_flip_count Fixture.engine rules Fixture.oneSensor 5 3%N 0%N
           Fixture.trace (Fixture.highway, Fixture.perturbParams1) (Fixture.book 1)
           poses g' Hrule Hrun).
Defined.

(** X14. The flip setting of a rule does not touch the random stream.
    Take two rule tables whose first matching rules for the frame have the
    same six parameter sets, the second with flip disabled: the frame
    planner makes the same draws, leaves the engine in the same state and
    fails in the same way on both, and what it returns on the first is
    what it returns on the second with the flip step applied (the poses
    at odd positions passed through [flipPose] when flip is enabled). *)
Theorem generatePoses4oneFrame_flip_keeps_draws `{StdRandom}
    (rules rules' : list Rule) (rule rule' : Rule)
    (sensorNames : list string) (fuel : nat) (useCount index : N)
    (trace : projMetaTrace) (g : mt19937_64) :
  first_rule rules index trace = Some rule ->
  first_rule rules' index trace = Some rule' ->
  same_draw_params rule.2 rule'.2 ->
  perturbParams.flip rule'.2 = false ->
  generatePoses4oneFrame rules sensorNames fuel useCount index trace g =
  bind (generatePoses4oneFrame rules' sensorNames fuel useCount index trace)
    (fun poses => ret (emit_all (perturbParams.flip rule.2) 0 poses)) g.
Proof.
  intros Hrule Hrule' Hsame Hflip.
  destruct (N.eq_dec useCount 0%N) as [-> | Hcount]; [reflexivity |].
  rewrite (generatePoses4oneFrame_matched _ _ _ _ _ _ rule) by done.
  unfold bind at 1.
  rewrite (generatePoses4oneFrame_matched _ _ _ _ _ _ rule') by done.
  rewrite !poses_loop_synthesize. unfold bind, ret.
  rewrite (synthesize_params sensorNames fuel rule.2 rule'.2) by done.
  destruct (synthesize sensorNames fuel rule'.2 index (N.to_nat useCount) g);
    [| done ..].
  by rewrite Hflip, emit_all_false.
Qed.

Lemma generatePoses4oneFrame_flip_keeps_draws_witness :
  let rule : Rule := (Fixture.highway, Fixture.perturbParams1) in
  let rule' : Rule := (Fixture.highway, Cases.unflipped1) in
  same_draw_params rule.2 rule'.2 /\
  @generatePoses4oneFrame Fixture.engine [rule] Fixture.oneSensor 5 3 0 Fixture.trace
    (Fixture.book 1) =
  bind (@generatePoses4oneFrame Fixture.engine [rule'] Fixture.oneSensor 5 3 0
          Fixture.trace)
    (fun poses => ret (emit_all true 0 poses)) (Fixture.book 1).
Proof.
  intros rule rule'.
  assert (Hsame : same_draw_params rule.2 rule'.2) by (by split_and!).
  split; [exact Hsame |].
  exact (@generatePoses4oneFrame_flip_keeps_draws Fixture.engine [rule] [rule'] rule rule'
           Fixture.oneSensor 5 3%N 0%N Fixture.trace (Fixture.book 1)
           ltac:(vm_compute; reflexivity) ltac:(vm_compute; reflexivity) Hsame eq_refl).
Defined.

Section WithinFields.
Context `{StdRandom}.

Lemma sensor_draws_within_fields fuel params sensorNames g draws g' :
  sensor_draws fuel params sensorNames g = Ok draws g' ->
  Forall (fun d : string * (float * float * float) =>
            (limit_representable (perturbParams.sensor_yaw params) ->
             Qabs d.2.1.1 <= randParams.max (perturbParams.sensor_yaw params)) /\
            (limit_representable (perturbParams.sensor_pitch params) ->
             Qabs d.2.1.2 <= randParams.max (perturbParams.sensor_pitch params)) /\
            (limit_representable (perturbParams.sensor_roll params) ->
             Qabs d.2.2 <= randParams.max (perturbParams.sensor_roll params))) draws.
Proof.
  revert g draws. induction sensorNames as [| n rest IH]; intros g draws; simpl.
  - intros [= <- <-]. constructor.
  - rewrite bind_Ok. intros (yaw & g1 & Hyaw & H1).
    apply bind_Ok in H1 as (pitch & g2 & Hpitch & H1).
    apply bind_Ok in H1 as (roll & g3 & Hroll & H1).
    apply bind_Ok in H1 as (ds & g4 & Hds & [= <- <-]).
    constructor; [| by eapply IH].
    simpl. split_and!; intros Hrep; by eapply getRandom_within.
Qed.

Lemma generateOnePose_within_fields sensorNames fuel params g pose g' :
  generateOnePose sensorNames fuel params g = Ok pose g' ->
  pose_within_representable params pose.
Proof.
  intros Hrun.
  apply generateOnePose_draws in Hrun
    as (scalars & g1 & draws & Hscalars & Hdraws & _ & Hsh & Hro & Hfo & Hmaps).
  pose proof (sensor_draws_within_fields _ _ _ _ _ _ Hdraws) as Hall.
  rewrite Forall_forall in Hall.
  unfold scalar_draws in Hscalars. apply bind_Ok in Hscalars as (shift & ga & Hshift & H1).
  apply bind_Ok in H1 as (rotation & gb & Hrot & H1).
  apply bind_Ok in H1 as (forward & gc & Hfwd & [= <- <-]).
  unfold pose_within_representable. rewrite Hsh, Hro, Hfo. simpl.
  split_and!; try (intros Hrep; by eapply getRandom_within);
    intros Hrep name v Hv; destruct (Hmaps name) as (Hy & Hp & Hro').
  - pose proof (eq_trans (eq_sym Hy) Hv) as Hfd.
    destruct (first_draw name draws) as [d |] eqn:Hd; [| done].
    injection Hfd as <-.
    destruct (Hall _ (first_draw_elem _ _ _ Hd)) as (Hb & _ & _). by apply Hb.
  - pose proof (eq_trans (eq_sym Hp) Hv) as Hfd.
    destruct (first_draw name draws) as [d |] eqn:Hd; [| done].
    injection Hfd as <-.
    destruct (Hall _ (first_draw_elem _ _ _ Hd)) as (_ & Hb & _). by apply Hb.
  - pose proof (eq_trans (eq_sym Hro') Hv) as Hfd.
    destruct (first_draw name draws) as [d |] eqn:Hd; [| done].
    injection Hfd as <-.
    destruct (Hall _ (first_draw_elem _ _ _ Hd)) as (_ & _ & Hb). by apply Hb.
Qed.

Lemma flipPose_within_fields params pose :
  pose_within_representable params pose ->
  pose_within_representable params (flipPose pose).
Proof.
  intros (Hs & Hr & Hf & Hy & Hp & Hro). unfold pose_within_representable.
  cbn [flipPose Pose.shift Pose.rotation Pose.forward Pose.sensor_yaw Pose.sensor_pitch
       Pose.sensor_roll].
  rewrite !Qmult_minus_one, !Qabs_opp. by split_and!.
Qed.

Lemma set_srcFrame_within_fields params index pose :
  pose_within_representable params pose ->
  pose_within_representable params (set_srcFrame index pose).
Proof. done. Qed.

Lemma synthesize_within_fields sensorNames fuel params index n g synth g' :
  synthesize sensorNames fuel params index n g = Ok synth g' ->
  Forall (pose_within_representable params) synth.
Proof.
  revert g synth. induction n as [| n IH]; intros g synth; simpl.
  - intros [= <- <-]. constructor.
  - rewrite bind_Ok. intros (onePose & g1 & Hone & Hrest).
    apply bind_Ok in Hrest as (rest & g2 & Hrest & [= <- <-]).
    constructor; [| by eapply IH].
    apply set_srcFrame_within_fields. by eapply generateOnePose_within_fields.
Qed.

Lemma generatePoses4oneFrame_within_fields rules sensorNames fuel useCount index trace rule g
    poses g' :
  first_rule rules index trace = Some rule ->
  generatePoses4oneFrame rules sensorNames fuel useCount index trace g = Ok poses g' ->
  Forall (pose_within_representable rule.2) poses.
Proof.
  intros Hrule Hrun.
  destruct (N.eq_dec useCount 0%N) as [-> | Hcount].
  - injection Hrun as <- _. constructor.
  - rewrite (generatePoses4oneFrame_matched _ _ _ _ _ _ rule) in Hrun by done.
    apply poses_loop_Ok in Hrun as (synth & Hsynth & ->).
    rewrite app_nil_l. apply synthesize_within_fields in Hsynth.
    generalize 0%N. induction Hsynth as [| s synth Hs _ IH]; intros i; simpl;
      constructor; [| apply IH].
    unfold emit. destruct (_ && _); [by apply flipPose_within_fields | done].
Qed.

End WithinFields.

(** ** All frames *)

Section FrameLoop.
Context `{StdRandom}.

Lemma first_rule_elem rules index trace rule :
  first_rule rules index trace = Some rule ->
  rule ∈ rules /\ doLabelsMatch trace index rule.1 = true.
Proof.
  unfold first_rule. intros [Hin Hmatch]%find_some. split; [| done].
  by apply list_elem_of_In.
Qed.

(** The frame loop run in two stretches. *)
Lemma frames_loop_add rules sensorNames fuel vecUseCounts trace n1 n2 i vecVecPoses g :
  frames_loop rules sensorNames fuel vecUseCounts trace (n1 + n2) i vecVecPoses g =
  bind (frames_loop rules sensorNames fuel vecUseCounts trace n1 i vecVecPoses)
    (fun vv => frames_loop rules sensorNames fuel vecUseCounts trace n2
                 (i + N.of_nat n1)%N vv) g.
Proof.
  revert i vecVecPoses g. induction n1 as [| n1 IH]; intros i vecVecPoses g.
  - simpl. unfold bind, ret. by rewrite N.add_0_r.
  - cbn [Nat.add frames_loop].
    destruct (vecUseCounts !! N.to_nat i) as [useCount |]; [| done].
    rewrite bind_assoc. apply bind_ext. intros Poses g1 _. rewrite IH.
    by replace (i + 1 + N.of_nat n1)%N with (i + N.of_nat (S n1))%N by lia.
Qed.

(** Where the frame loop throws [NoMatchingRule]: at the first frame
    that has a positive use count and no matching rule, with the engine
    as the frames before it left it. *)
Lemma frames_loop_NoMatchingRule rules sensorNames fuel vecUseCounts trace n i vecVecPoses
    g k g' :
  frames_loop rules sensorNames fuel vecUseCounts trace n i vecVecPoses g
    = Throw (NoMatchingRule k) g' ->
  (i <= k < i + N.of_nat n)%N /\
  (exists useCount,
     vecUseCounts !! N.to_nat k = Some useCount /\ useCount <> 0%N /\
     first_rule rules k trace = None) /\
  exists vv,
    frames_loop rules sensorNames fuel vecUseCounts trace (N.to_nat (k - i)) i vecVecPoses g
      = Ok vv g'.
Proof.
  revert i vecVecPoses g. induction n as [| n IH]; intros i vecVecPoses g; simpl.
  - discriminate.
  - destruct (vecUseCounts !! N.to_nat i) as [useCount |] eqn:Hat; [| discriminate].
    rewrite bind_Throw. intros [Hone | (Poses & g1 & Hone & Hrest)].
    + apply generatePoses4oneFrame_Throw in Hone as [(Hk & -> & Hcount & Hnone) | Hk];
        [| destruct Hk].
      injection Hk as ->. split; [lia |]. split; [by exists useCount |].
      exists vecVecPoses. by rewrite N.sub_diag.
    + apply IH in Hrest as (Hrange & Hframe & vv & Hvv).
      split; [lia |]. split; [done |]. exists vv.
      replace (N.to_nat (k - i)) with (S (N.to_nat (k - (i + 1)))) by lia.
      cbn [frames_loop]. rewrite Hat. unfold bind. by rewrite Hone.
Qed.

Lemma frames_loop_no_OutOfRange rules sensorNames fuel vecUseCounts trace n i vecVecPoses
    g e g' :
  (N.to_nat i + n <= length vecUseCounts)%nat ->
  frames_loop rules sensorNames fuel vecUseCounts trace n i vecVecPoses g = Throw e g' ->
  (exists k, e = NoMatchingRule k) \/ is_UnknownDistribution e.
Proof.
  revert i vecVecPoses g. induction n as [| n IH]; intros i vecVecPoses g Hlen; simpl.
  - discriminate.
  - destruct (lookup_lt_is_Some_2 vecUseCounts (N.to_nat i) ltac:(lia)) as [useCount ->].
    rewrite bind_Throw. intros [Hone | (Poses & g1 & Hone & Hrest)].
    + apply generatePoses4oneFrame_Throw in Hone as [(-> & _) | Hk]; [left; eauto | by right].
    + apply IH in Hrest; [done | lia].
Qed.

Lemma frames_loop_zero rules sensorNames fuel vecUseCounts trace n i vecVecPoses g :
  (forall j, (j < n)%nat -> vecUseCounts !! (N.to_nat i + j)%nat = Some 0%N) ->
  frames_loop rules sensorNames fuel vecUseCounts trace n i vecVecPoses g =
  Ok (vecVecPoses ++ replicate n []) g.
Proof.
  revert i vecVecPoses. induction n as [| n IH]; intros i vecVecPoses Hzero; simpl.
  - by rewrite app_nil_r.
  - pose proof (Hzero 0%nat ltac:(lia)) as H0. rewrite Nat.add_0_r in H0. rewrite H0.
    unfold bind. rewrite generatePoses4oneFrame_zero, IH.
    + by rewrite <- app_assoc.
    + intros j Hj. replace (N.to_nat (i + 1) + j)%nat with (N.to_nat i + S j)%nat by lia.
      apply Hzero. lia.
Qed.

Lemma to_uint32_le (n : nat) : (N.to_nat (to_uint32 (N.of_nat n)) <= n)%nat.
Proof.
  unfold to_uint32.
  assert ((N.of_nat n mod 2 ^ 32 <= N.of_nat n)%N) by (apply N.Div0.mod_le). lia.
Qed.

End FrameLoop.

Lemma vecFrames_srcFrame_tag `{StdRandom}
    files rules sensorNames fuel vecUseCounts labelsFileName g vecVecPoses g' :
  generatePoses4vecFrames files rules sensorNames fuel vecUseCounts labelsFileName g
    = Ok vecVecPoses g' ->
  forall (i : nat) Poses pose,
    vecVecPoses !! i = Some Poses -> pose ∈ Poses ->
    Pose.srcFrame pose = N.of_nat (0 + i).
Proof.
  intros (trace & _ & _ & Hloop)%generatePoses4vecFrames_Ok i Poses pose Hi Hin.
  apply frames_loop_Ok in Hloop as (new & -> & _ & Hnew). rewrite app_nil_l in Hi.
  apply Hnew in Hi as (useCount & ga & gb & _ & Hone).
  apply generatePoses4oneFrame_srcFrame in Hone. rewrite Forall_forall in Hone.
  rewrite (Hone pose Hin). lia.
Qed.

(** X15. Every pose that [generatePoses4vecFrames] returns carries the
    index of its frame: the poses of the list at position [i] have
    [srcFrame = i], flipped or not. *)
Theorem generatePoses4vecFrames_srcFrame `{StdRandom}
    (files : TraceFiles) (rules : list Rule) (sensorNames : list string) (fuel : nat)
    (vecUseCounts : list N) (labelsFileName : string) (g : mt19937_64)
    (vecVecPoses : list (list Pose.t)) (g' : mt19937_64) :
  generatePoses4vecFrames files rules sensorNames fuel vecUseCounts labelsFileName g
    = Ok vecVecPoses g' ->
  forall (i : nat) Poses pose,
    vecVecPoses !! i = Some Poses -> pose ∈ Poses -> Pose.srcFrame pose = N.of_nat i.
Proof.
  intros Hrun i Poses pose Hi Hin.
  exact (vecFrames_srcFrame_tag _ _ _ _ _ _ _ _ _ Hrun i Poses pose Hi Hin).
Qed.

Lemma generatePoses4vecFrames_srcFrame_witness :
  let rules := [(Fixture.highway, Fixture.perturbParams1);
                (Fixture.local, Fixture.perturbParams2)] in
  exists vecVecPoses g',
    @generatePoses4vecFrames Fixture.engine Fixture.files rules Fixture.oneSensor 5
      [0; 2; 1]%N "labels.csv" (Fixture.book 1) = Ok vecVecPoses g' /\
    forall (i : nat) Poses pose,
      vecVecPoses !! i = Some Poses -> pose ∈ Poses -> Pose.srcFrame pose = N.of_nat i.
Proof.
  intros rules.
  destruct (returns_Ok
    (@generatePoses4vecFrames Fixture.engine Fixture.files rules Fixture.oneSensor 5
       [0; 2; 1]%N "labels.csv" (Fixture.book 1)) ltac:(vm_compute; reflexivity))
    as (vecVecPoses & g' & Hrun).
  exists vecVecPoses, g'. split; [exact Hrun |].
  exact (@generatePoses4vecFrames_srcFrame Fixture.engine Fixture.files rules
           Fixture.oneSensor 5 [0; 2; 1]%N "labels.csv" (Fixture.book 1) vecVecPoses g'
           Hrun).
Defined.

(** X16. Every numeric field of every pose that
    [generatePoses4vecFrames] returns is within the hard limit that the
    first matching rule of the pose's frame sets for the field, provided
    that this limit is a [float]: a number of the binary32 grid that is
    not negative and at most [FLT_MAX].  The limits of the other fields
    and of the other rules do not matter. *)
Theorem generatePoses4vecFrames_within `{StdRandom}
    (files : TraceFiles) (rules : list Rule) (sensorNames : list string) (fuel : nat)
    (vecUseCounts : list N) (labelsFileName : string) (g : mt19937_64)
    (vecVecPoses : list (list Pose.t)) (g' : mt19937_64) :
  generatePoses4vecFrames files rules sensorNames fuel vecUseCounts labelsFileName g
    = Ok vecVecPoses g' ->
  exists trace,
    files labelsFileName = Some trace /\
    forall (i : nat) Poses pose,
      vecVecPoses !! i = Some Poses -> pose ∈ Poses ->
      exists rule,
        first_rule rules (N.of_nat i) trace = Some rule /\
        pose_within_representable rule.2 pose.
Proof.
  intros (trace & Hfile & _ & Hloop)%generatePoses4vecFrames_Ok.
  exists trace. split; [done |]. intros i Poses pose Hi Hin.
  apply frames_loop_Ok in Hloop as (new & -> & _ & Hnew). rewrite app_nil_l in Hi.
  apply Hnew in Hi as (useCount & ga & gb & _ & Hone). rewrite N.add_0_l in Hone.
  destruct (first_rule rules (N.of_nat i) trace) as [rule |] eqn:Hrule.
  - exists rule. split; [done |].
    pose proof (generatePoses4oneFrame_within_fields _ _ _ _ _ _ _ _ _ _ Hrule Hone) as Hall.
    rewrite Forall_forall in Hall. by apply Hall.
  - destruct (N.eq_dec useCount 0%N) as [-> | Hcount].
    + injection Hone as <- _. by apply elem_of_nil in Hin.
    + by apply generatePoses4oneFrame_unmatched_Ok in Hone.
Qed.

Lemma generatePoses4vecFrames_within_witness :
  exists vecVecPoses g',
    @generatePoses4vecFrames Fixture.engine Fixture.files [Cases.anyFrame]
      Fixture.oneSensor 0 [1; 1; 1]%N "labels.csv" (Fixture.book 1) = Ok vecVecPoses g' /\
    forall (i : nat) Poses pose,
      vecVecPoses !! i = Some Poses -> pose ∈ Poses ->
      Qabs (Pose.shift pose) <= 1.
Proof.
  destruct (returns_Ok
    (@generatePoses4vecFrames Fixture.engine Fixture.files [Cases.anyFrame]
       Fixture.oneSensor 0 [1; 1; 1]%N "labels.csv" (Fixture.book 1))
    ltac:(vm_compute; reflexivity)) as (vecVecPoses & g' & Hrun).
  exists vecVecPoses, g'. split; [exact Hrun |].
  destruct (@generatePoses4vecFrames_within Fixture.engine Fixture.files [Cases.anyFrame]
              Fixture.oneSensor 0 [1; 1; 1]%N "labels.csv" (Fixture.book 1) vecVecPoses g'
              Hrun) as (trace & Hfile & Hall).
  intros i Poses pose Hi Hin.
  destruct (Hall i Poses pose Hi Hin) as (rule & Hrule & Hshift & _).
  assert (Hany : rule = Cases.anyFrame).
  { unfold first_rule in Hrule. simpl in Hrule.
    destruct (doLabelsMatch trace (N.of_nat i) ∅); [by injection Hrule | discriminate]. }
  rewrite Hany in Hshift. apply Hshift.
  split; [discriminate | split; [reflexivity | discriminate]].
Defined.

(** X17. [generatePoses4vecFrames] never throws from its defensive size
    check and never from [vecUseCounts.at(i)]: the result of the frame
    loop always has [numFrames] entries and the loop counter never passes
    the end of the use counts.  Whatever it throws is a trace that does
    not load, a frame-count mismatch, a frame without a matching rule or
    an unknown distribution name. *)
Theorem generatePoses4vecFrames_Throw_kinds `{StdRandom}
    (files : TraceFiles) (rules : list Rule) (sensorNames : list string) (fuel : nat)
    (vecUseCounts : list N) (labelsFileName : string) (g : mt19937_64)
    (e : Error) (g' : mt19937_64) :
  generatePoses4vecFrames files rules sensorNames fuel vecUseCounts labelsFileName g
    = Throw e g' ->
  e <> InternalInconsistency /\ e <> OutOfRange /\
  ((e = TraceLoadError /\ files labelsFileName = None /\ g' = g) \/
   (is_FrameCountMismatch e /\ g' = g) \/
   (exists k, e = NoMatchingRule k) \/
   is_UnknownDistribution e).
Proof.
  unfold generatePoses4vecFrames.
  destruct (files labelsFileName) as [trace |] eqn:Hfile.
  - destruct (negb _) eqn:Hcheck.
    + intros [= <- <-]. split_and!; [done | done |]. right. left. by split.
    + rewrite bind_Throw. intros [Hloop | (vv & g1 & Hloop & Hsize)].
      * apply frames_loop_no_OutOfRange in Hloop.
        -- destruct Hloop as [[k ->] | Hk].
           ++ split_and!; [done | done |]. right. right. left. eauto.
           ++ split_and!; [by destruct e | by destruct e |]. by do 3 right.
        -- pose proof (to_uint32_le (length vecUseCounts)). simpl. lia.
      * apply frames_loop_Ok in Hloop as (new & -> & Hlen & _).
        rewrite app_nil_l, Hlen, N2Nat.id, N.eqb_refl in Hsize. discriminate.
  - intros [= <- <-]. split_and!; [done | done |]. by left.
Qed.

Lemma generatePoses4vecFrames_Throw_kinds_witness :
  exists e g',
    @generatePoses4vecFrames Fixture.engine Fixture.files Cases.highwayOnly
      Fixture.oneSensor 5 [1; 1; 1]%N "labels.csv" (Fixture.book 1) = Throw e g' /\
    e = NoMatchingRule 2 /\
    e <> InternalInconsistency /\ e <> OutOfRange.
Proof.
  evaluate Hrun
    (@generatePoses4vecFrames Fixture.engine Fixture.files Cases.highwayOnly
       Fixture.oneSensor 5 [1; 1; 1]%N "labels.csv" (Fixture.book 1)).
  eexists _, _. split; [exact Hrun |]. split; [reflexivity |].
  destruct (@generatePoses4vecFrames_Throw_kinds Fixture.engine Fixture.files
              Cases.highwayOnly Fixture.oneSensor 5 [1; 1; 1]%N "labels.csv"
              (Fixture.book 1) _ _ Hrun) as (Hinternal & Hrange & _).
  by split.
Defined.

(** X18. A [NoMatchingRule] from [generatePoses4vecFrames] names a frame
    inside the trace that has a positive use count and that no rule
    matches, and the call is not rolled back: the engine is left as the
    frame loop over the frames before that one left it, so the draws made
    for them are spent. *)
Theorem generatePoses4vecFrames_NoMatchingRule `{StdRandom}
    (files : TraceFiles) (rules : list Rule) (sensorNames : list string) (fuel : nat)
    (vecUseCounts : list N) (labelsFileName : string) (g : mt19937_64)
    (k : N) (g' : mt19937_64) :
  generatePoses4vecFrames files rules sensorNames fuel vecUseCounts labelsFileName g
    = Throw (NoMatchingRule k) g' ->
  exists trace useCount vecVecPoses,
    files labelsFileName = Some trace /\
    (k < getNumDatapoints trace)%N /\
    vecUseCounts !! N.to_nat k = Some useCount /\ useCount <> 0%N /\
    Forall (fun rule : Rule => doLabelsMatch trace k rule.1 = false) rules /\
    frames_loop rules sensorNames fuel vecUseCounts trace (N.to_nat k) 0 [] g
      = Ok vecVecPoses g' /\
    length vecVecPoses = N.to_nat k.
Proof.
  unfold generatePoses4vecFrames.
  destruct (files labelsFileName) as [trace |] eqn:Hfile; [| discriminate].
  destruct (N.eqb_spec (getNumDatapoints trace) (to_uint32 (N.of_nat (length vecUseCounts))))
    as [Hnum | _]; [| discriminate].
  simpl. rewrite bind_Throw. intros [Hloop | (vv & g1 & Hloop & Hsize)].
  - apply frames_loop_NoMatchingRule in Hloop
      as (Hrange & (useCount & Hat & Hcount & Hnone) & vv & Hvv).
    rewrite N.sub_0_r in Hvv.
    exists trace, useCount, vv. split_and!; try done.
    + rewrite Hnum. lia.
    + by apply first_rule_None.
    + apply frames_loop_Ok in Hvv as (new & -> & Hlen & _). by rewrite app_nil_l.
  - destruct (negb _); [discriminate | discriminate].
Qed.

Lemma generatePoses4vecFrames_NoMatchingRule_witness :
  exists g' vecVecPoses,
    @generatePoses4vecFrames Fixture.engine Fixture.files Cases.highwayOnly
      Fixture.oneSensor 5 [1; 1; 1]%N "labels.csv" (Fixture.book 1)
      = Throw (NoMatchingRule 2) g' /\
    @frames_loop Fixture.engine Cases.highwayOnly Fixture.oneSensor 5 [1; 1; 1]%N
      Fixture.trace 2 0 [] (Fixture.book 1) = Ok vecVecPoses g' /\
    length vecVecPoses = 2%nat /\
    g' <> Fixture.book 1.
Proof.
  evaluate Hrun
    (@generatePoses4vecFrames Fixture.engine Fixture.files Cases.highwayOnly
       Fixture.oneSensor 5 [1; 1; 1]%N "labels.csv" (Fixture.book 1)).
  destruct (@generatePoses4vecFrames_NoMatchingRule Fixture.engine Fixture.files
              Cases.highwayOnly Fixture.oneSensor 5 [1; 1; 1]%N "labels.csv"
              (Fixture.book 1) _ _ Hrun)
    as (trace & useCount & vecVecPoses & Hfile & _ & _ & _ & _ & Hloop & Hlen).
  injection Hfile as <-.
  eexists _, vecVecPoses. split; [exact Hrun |]. split; [exact Hloop |].
  split; [exact Hlen |]. vm_compute. discriminate.
Defined.

(** X19. Distribution names are checked only when a pose is drawn.  An
    [UnknownDistribution] from [generatePoses4vecFrames] names a
    distribution of the first matching rule of a frame of the trace that
    has a positive use count, from a parameter set that
    [generateOnePose] consults, and the name is none of the three known
    ones; a rule that is never the first match of such a frame cannot
    make the call fail. *)
Theorem generatePoses4vecFrames_UnknownDistribution `{StdRandom}
    (files : TraceFiles) (rules : list Rule) (sensorNames : list string) (fuel : nat)
    (vecUseCounts : list N) (labelsFileName : string) (g : mt19937_64)
    (name : string) (g' : mt19937_64) :
  generatePoses4vecFrames files rules sensorNames fuel vecUseCounts labelsFileName g
    = Throw (UnknownDistribution name) g' ->
  known_distribution name = false /\
  exists trace k useCount rule rParams,
    files labelsFileName = Some trace /\
    (k < getNumDatapoints trace)%N /\
    vecUseCounts !! N.to_nat k = Some useCount /\ useCount <> 0%N /\
    first_rule rules k trace = Some rule /\
    rParams ∈ [perturbParams.shift rule.2; perturbParams.rotation rule.2;
               perturbParams.forward rule.2] ++
              (if decide (sensorNames = []) then []
               else [perturbParams.sensor_yaw rule.2; perturbParams.sensor_pitch rule.2;
                     perturbParams.sensor_roll rule.2]) /\
    randParams.distribution rParams = name.
Proof.
  intros Hrun.
  destruct (generatePoses4vecFrames_Throw_unknown _ _ _ _ _ _ _ _ _ Hrun I)
    as (trace & k & c & rule & g0 & Hfile & Hk & Hat & Hc & Hrule & Hone).
  apply generateOnePose_Throw_unknown in Hone as (rParams & Hin & [= ->] & Hunknown).
  split; [done |]. exists trace, k, c, rule, rParams. by split_and!.
Qed.

Lemma generatePoses4vecFrames_UnknownDistribution_witness :
  exists g',
    @generatePoses4vecFrames Fixture.engine Fixture.files [(∅, Cases.poissonYaw)]
      Fixture.oneSensor 5 [0; 1; 1]%N "labels.csv" (Fixture.book 1)
      = Throw (UnknownDistribution "poisson") g' /\
    known_distribution "poisson" = false.
Proof.
  evaluate Hrun
    (@generatePoses4vecFrames Fixture.engine Fixture.files [(∅, Cases.poissonYaw)]
       Fixture.oneSensor 5 [0; 1; 1]%N "labels.csv" (Fixture.book 1)).
  eexists. split; [exact Hrun |].
  exact (proj1 (@generatePoses4vecFrames_UnknownDistribution Fixture.engine Fixture.files
                  [(∅, Cases.poissonYaw)] Fixture.oneSensor 5 [0; 1; 1]%N "labels.csv"
                  (Fixture.book 1) _ _ Hrun)).
Defined.

(** X20. With every use count zero and a trace of matching length, the
    call returns one empty list per frame without consulting any rule
    and without a draw, whatever the rule table holds (it may be empty),
    and [generateShuffledPoses] then returns the empty sequence without
    shuffling. *)
Theorem generatePoses4vecFrames_all_zero `{StdRandom}
    (files : TraceFiles) (rules : list Rule) (sensorNames : list string) (fuel : nat)
    (vecUseCounts : list N) (labelsFileName : string) (trace : projMetaTrace)
    (g : mt19937_64) :
  files labelsFileName = Some trace ->
  (N.of_nat (length vecUseCounts) < 2 ^ 32)%N ->
  getNumDatapoints trace = N.of_nat (length vecUseCounts) ->
  Forall (fun useCount => useCount = 0%N) vecUseCounts ->
  generatePoses4vecFrames files rules sensorNames fuel vecUseCounts labelsFileName g
    = Ok (replicate (length vecUseCounts) []) g /\
  generateShuffledPoses files rules sensorNames fuel vecUseCounts labelsFileName g
    = Ok [] g.
Proof.
  intros Hfile Hsmall Hnum Hzero.
  assert (Hvec : generatePoses4vecFrames files rules sensorNames fuel vecUseCounts
                   labelsFileName g = Ok (replicate (length vecUseCounts) []) g).
  { unfold generatePoses4vecFrames. rewrite Hfile. unfold to_uint32.
    rewrite N.mod_small by done. rewrite Hnum, N.eqb_refl. simpl.
    unfold bind. rewrite Nat2N.id, frames_loop_zero.
    - rewrite app_nil_l, length_replicate, N.eqb_refl. reflexivity.
    - intros j Hj. simpl. rewrite Forall_lookup in Hzero.
      destruct (lookup_lt_is_Some_2 vecUseCounts j Hj) as [c Hc].
      by rewrite Hc, (Hzero j c Hc). }
  split; [exact Hvec |].
  unfold generateShuffledPoses, bind. rewrite Hvec.
  assert (Hflat : forall n, concat (replicate n (@nil Pose.t)) = []).
  { intros n. induction n as [| n IH]; [done |]. simpl. exact IH. }
  by rewrite Hflat.
Qed.

Lemma generatePoses4vecFrames_all_zero_witness :
  Fixture.files "labels.csv" = Some Fixture.trace /\
  @generatePoses4vecFrames Fixture.engine Fixture.files [] Fixture.testSensorNames 0
    [0; 0; 0]%N "labels.csv" (Fixture.book 1) = Ok [[]; []; []] (Fixture.book 1) /\
  @generateShuffledPoses Fixture.engine Fixture.files [] Fixture.testSensorNames 0
    [0; 0; 0]%N "labels.csv" (Fixture.book 1) = Ok [] (Fixture.book 1).
Proof.
  split; [reflexivity |].
  exact (@generatePoses4vecFrames_all_zero Fixture.engine Fixture.files []
           Fixture.testSensorNames 0 [0; 0; 0]%N "labels.csv" Fixture.trace (Fixture.book 1)
           eq_refl ltac:(reflexivity) eq_refl ltac:(repeat constructor)).
Defined.

Section DrawBudget.
Context `{StdRandom}.

Lemma generateOnePose_uniform_Ok sensorNames fuel params g :
  Forall (fun rParams => randParams.distribution rParams = "uniform")
    [perturbParams.shift params; perturbParams.rotation params;
     perturbParams.forward params; perturbParams.sensor_yaw params;
     perturbParams.sensor_pitch params; perturbParams.sensor_roll params] ->
  exists pose,
    generateOnePose sensorNames fuel params g =
    Ok pose (mt19937_64_discard (3 + 3 * length sensorNames) g).
Proof.
  intros Hall.
  apply Forall_cons_1 in Hall as [Hs Hall]. apply Forall_cons_1 in Hall as [Hr Hall].
  apply Forall_cons_1 in Hall as [Hf Hall]. apply Forall_cons_1 in Hall as [Hy Hall].
  apply Forall_cons_1 in Hall as [Hp Hall]. apply Forall_cons_1 in Hall as [Hro _].
  destruct (sensor_draws_uniform fuel params sensorNames (mt19937_64_discard 3 g) Hy Hp Hro)
    as (draws & Hdraws & _).
  cbn [mt19937_64_discard] in Hdraws.
  unfold generateOnePose. unfold bind at 1. rewrite (getRandom_uniform_value _ _ _ Hs).
  unfold bind at 1. rewrite (getRandom_uniform_value _ _ _ Hr).
  unfold bind at 1. rewrite (getRandom_uniform_value _ _ _ Hf).
  unfold bind at 1. rewrite sensor_loop_draws. unfold bind at 1. rewrite Hdraws.
  unfold ret. eexists. reflexivity.
Qed.

Lemma synthesize_uniform_state sensorNames fuel params index n g synth g' :
  Forall (fun rParams => randParams.distribution rParams = "uniform")
    [perturbParams.shift params; perturbParams.rotation params;
     perturbParams.forward params; perturbParams.sensor_yaw params;
     perturbParams.sensor_pitch params; perturbParams.sensor_roll params] ->
  synthesize sensorNames fuel params index n g = Ok synth g' ->
  g' = mt19937_64_discard (n * (3 + 3 * length sensorNames)) g.
Proof.
  intros Hall. revert g synth. induction n as [| n IH]; intros g synth.
  - by intros [= _ <-].
  - cbn [synthesize]. rewrite bind_Ok. intros (onePose & g1 & Hone & Hrest).
    apply bind_Ok in Hrest as (rest & g2 & Hrest & [= _ <-]).
    destruct (generateOnePose_uniform_Ok sensorNames fuel params g Hall) as [pose Hpose].
    rewrite Hpose in Hone.
    assert (Hg1 : g1 = mt19937_64_discard (3 + 3 * length sensorNames) g) by congruence.
    subst g1. apply IH in Hrest as ->.
    replace (S n * (3 + 3 * length sensorNames))%nat
      with ((3 + 3 * length sensorNames) + n * (3 + 3 * length sensorNames))%nat by lia.
    by rewrite (mt19937_64_discard_add (3 + 3 * length sensorNames)
                  (n * (3 + 3 * length sensorNames))).
Qed.

Lemma generatePoses4oneFrame_uniform_state rules sensorNames fuel useCount index trace g
    poses g' :
  Forall uniform_rule rules ->
  generatePoses4oneFrame rules sensorNames fuel useCount index trace g = Ok poses g' ->
  g' = mt19937_64_discard (N.to_nat useCount * (3 + 3 * length sensorNames)) g.
Proof.
  intros Hrules Hrun. destruct (N.eq_dec useCount 0%N) as [-> | Hcount].
  - by injection Hrun as _ <-.
  - destruct (first_rule rules index trace) as [rule |] eqn:Hrule.
    + rewrite (generatePoses4oneFrame_matched _ _ _ _ _ _ rule) in Hrun by done.
      apply poses_loop_Ok in Hrun as (synth & Hsynth & _).
      apply first_rule_elem in Hrule as [Hin _]. rewrite Forall_forall in Hrules.
      by eapply synthesize_uniform_state; [apply Hrules |].
    + by apply generatePoses4oneFrame_unmatched_Ok in Hrun.
Qed.

Lemma frames_loop_uniform_state rules sensorNames fuel vecUseCounts trace n i vecVecPoses
    g vv g' :
  Forall uniform_rule rules ->
  frames_loop rules sensorNames fuel vecUseCounts trace n i vecVecPoses g = Ok vv g' ->
  g' = mt19937_64_discard
         (N.to_nat (foldr N.add 0%N (take n (drop (N.to_nat i) vecUseCounts)))
          * (3 + 3 * length sensorNames)) g.
Proof.
  intros Hrules. revert i vecVecPoses g. induction n as [| n IH]; intros i vecVecPoses g.
  - by intros [= _ <-].
  - cbn [frames_loop].
    destruct (vecUseCounts !! N.to_nat i) as [useCount |] eqn:Hat; [| discriminate].
    rewrite bind_Ok. intros (Poses & g1 & Hone & Hrest).
    apply generatePoses4oneFrame_uniform_state in Hone as ->; [| done].
    apply IH in Hrest as ->.
    rewrite (drop_S _ _ _ Hat). cbn [take foldr].
    replace (N.to_nat (i + 1)) with (S (N.to_nat i)) by lia.
    rewrite <- mt19937_64_discard_add. f_equal. lia.
Qed.

Lemma first_rule_without rules1 (rule : Rule) rules2 index trace :
  doLabelsMatch trace index rule.1 = false ->
  first_rule (rules1 ++ rule :: rules2) index trace = first_rule (rules1 ++ rules2) index trace.
Proof.
  intros Hrule. unfold first_rule. induction rules1 as [| r rules1 IH]; simpl.
  - by rewrite Hrule.
  - by destruct (doLabelsMatch trace index r.1).
Qed.

Lemma generatePoses4oneFrame_first_rule_eq rules rules' sensorNames fuel useCount index
    trace g :
  first_rule rules index trace = first_rule rules' index trace ->
  generatePoses4oneFrame rules sensorNames fuel useCount index trace g =
  generatePoses4oneFrame rules' sensorNames fuel useCount index trace g.
Proof. intros Heq. unfold generatePoses4oneFrame. by rewrite Heq. Qed.

Lemma frames_loop_first_rule_eq rules rules' sensorNames fuel vecUseCounts trace n i
    vecVecPoses g :
  (forall k, (i <= k < i + N.of_nat n)%N ->
     first_rule rules k trace = first_rule rules' k trace) ->
  frames_loop rules sensorNames fuel vecUseCounts trace n i vecVecPoses g =
  frames_loop rules' sensorNames fuel vecUseCounts trace n i vecVecPoses g.
Proof.
  revert i vecVecPoses g. induction n as [| n IH]; intros i vecVecPoses g Heq; [done |].
  cbn [frames_loop]. destruct (vecUseCounts !! N.to_nat i) as [useCount |]; [| done].
  unfold bind.
  rewrite (generatePoses4oneFrame_first_rule_eq rules rules') by (apply Heq; lia).
  destruct (generatePoses4oneFrame rules' _ _ _ _ _ g) as [Poses g1 | | |]; [| done ..].
  apply IH. intros k Hk. apply Heq. lia.
Qed.

End DrawBudget.

(** X21. When every rule draws all six fields uniformly, a call of
    [generatePoses4vecFrames] that returns has taken exactly
    (3 + 3 * n) engine outputs per pose, for n configured sensor names:
    the engine is left where the sum of the use counts times 3 + 3 * n
    outputs leave it (for fewer than 2^32 use counts). *)
Theorem generatePoses4vecFrames_uniform_draws `{StdRandom}
    (files : TraceFiles) (rules : list Rule) (sensorNames : list string) (fuel : nat)
    (vecUseCounts : list N) (labelsFileName : string) (g : mt19937_64)
    (vecVecPoses : list (list Pose.t)) (g' : mt19937_64) :
  Forall uniform_rule rules ->
  (N.of_nat (length vecUseCounts) < 2 ^ 32)%N ->
  generatePoses4vecFrames files rules sensorNames fuel vecUseCounts labelsFileName g
    = Ok vecVecPoses g' ->
  g' = mt19937_64_discard
         (N.to_nat (foldr N.add 0%N vecUseCounts) * (3 + 3 * length sensorNames)) g.
Proof.
  intros Hrules Hsmall (trace & _ & _ & Hloop)%generatePoses4vecFrames_Ok.
  unfold to_uint32 in Hloop. rewrite N.mod_small, Nat2N.id in Hloop by done.
  apply frames_loop_uniform_state in Hloop; [| done].
  by rewrite drop_0, firstn_all in Hloop.
Qed.

Lemma generatePoses4vecFrames_uniform_draws_witness :
  exists vecVecPoses g',
    @generatePoses4vecFrames Fixture.engine Fixture.files [Cases.anyFrame]
      Fixture.oneSensor 0 [1; 0; 2]%N "labels.csv" (Fixture.book 1) = Ok vecVecPoses g' /\
    g' = @mt19937_64_discard Fixture.engine 18 (Fixture.book 1).
Proof.
  destruct (returns_Ok
    (@generatePoses4vecFrames Fixture.engine Fixture.files [Cases.anyFrame]
       Fixture.oneSensor 0 [1; 0; 2]%N "labels.csv" (Fixture.book 1))
    ltac:(vm_compute; reflexivity)) as (vecVecPoses & g' & Hrun).
  exists vecVecPoses, g'. split; [exact Hrun |].
  exact (@generatePoses4vecFrames_uniform_draws Fixture.engine Fixture.files
           [Cases.anyFrame] Fixture.oneSensor 0 [1; 0; 2]%N "labels.csv" (Fixture.book 1)
           vecVecPoses g' ltac:(repeat constructor) ltac:(reflexivity) Hrun).
Defined.

(** X22. A rule that matches no frame of the trace is dead weight: with
    it or without it in the table, wherever it stands,
    [generatePoses4vecFrames] returns the same poses, leaves the engine
    in the same state and fails in the same way. *)
Theorem generatePoses4vecFrames_unmatched_rule `{StdRandom}
    (files : TraceFiles) (rules1 : list Rule) (rule : Rule) (rules2 : list Rule)
    (sensorNames : list string) (fuel : nat)
    (vecUseCounts : list N) (labelsFileName : string) (trace : projMetaTrace)
    (g : mt19937_64) :
  files labelsFileName = Some trace ->
  (forall index, (index < getNumDatapoints trace)%N ->
     doLabelsMatch trace index rule.1 = false) ->
  generatePoses4vecFrames files (rules1 ++ rule :: rules2) sensorNames fuel vecUseCounts
    labelsFileName g =
  generatePoses4vecFrames files (rules1 ++ rules2) sensorNames fuel vecUseCounts
    labelsFileName g.
Proof.
  intros Hfile Hdead. unfold generatePoses4vecFrames. rewrite Hfile.
  destruct (N.eqb_spec (getNumDatapoints trace) (to_uint32 (N.of_nat (length vecUseCounts))))
    as [Hnum | _]; [| done].
  simpl. unfold bind.
  rewrite (frames_loop_first_rule_eq (rules1 ++ rule :: rules2) (rules1 ++ rules2)); [done |].
  intros k Hk. apply first_rule_without, Hdead. lia.
Qed.

Lemma generatePoses4vecFrames_unmatched_rule_witness :
  let rules1 := [(Fixture.highway, Fixture.perturbParams1)] in
  let rules2 := [(Fixture.local, Fixture.perturbParams2)] in
  (forall index, (index < getNumDatapoints Fixture.trace)%N ->
     doLabelsMatch Fixture.trace index Cases.deadRule.1 = false) /\
  @generatePoses4vecFrames Fixture.engine Fixture.files (rules1 ++ Cases.deadRule :: rules2)
    Fixture.oneSensor 5 [2; 2; 2]%N "labels.csv" (Fixture.book 1) =
  @generatePoses4vecFrames Fixture.engine Fixture.files (rules1 ++ rules2)
    Fixture.oneSensor 5 [2; 2; 2]%N "labels.csv" (Fixture.book 1).
Proof.
  intros rules1 rules2.
  assert (Hdead : forall index, (index < getNumDatapoints Fixture.trace)%N ->
            doLabelsMatch Fixture.trace index Cases.deadRule.1 = false).
  { intros index _.
    assert (Hroad : Cases.deadRule.1 !! "road_type" = Some "dirt")
      by (vm_compute; reflexivity).
    unfold Fixture.trace. cbn [doLabelsMatch]. rewrite Hroad.
    by destruct (index <? 2)%N. }
  split; [exact Hdead |].
  exact (@generatePoses4vecFrames_unmatched_rule Fixture.engine Fixture.files rules1
           Cases.deadRule rules2 Fixture.oneSensor 5 [2; 2; 2]%N "labels.csv"
           Fixture.trace (Fixture.book 1) eq_refl Hdead).
Defined.

(** ** The shuffle stage *)

Section ShuffleStage.
Context `{StdRandom}.

(** What [std::shuffle] guarantees: the result is a rearrangement of
    the input. *)
Hypothesis shuffle_Permutation :
  forall (l : list Pose.t) (g : mt19937_64), (shuffle l g).1 ≡ₚ l.

Lemma reshuffle_loop_Permutation fuel flattenedPoses g poses g' :
  reshuffle_loop fuel flattenedPoses g = Ok poses g' -> poses ≡ₚ flattenedPoses.
Proof.
  revert flattenedPoses g. induction fuel as [| fuel IH]; intros [| first rest] g; simpl;
    try discriminate.
  - destruct (Pose.flip first); [discriminate |]. by intros [= <- <-].
  - destruct (Pose.flip first).
    + pose proof (shuffle_Permutation (first :: rest) g) as Hperm.
      destruct (shuffle (first :: rest) g) as [l g1]. simpl in Hperm.
      intros Hloop%IH. by rewrite Hloop.
    + by intros [= <- <-].
Qed.

Lemma reshuffle_loop_no_throw fuel flattenedPoses g e g' :
  flattenedPoses <> [] -> reshuffle_loop fuel flattenedPoses g <> Throw e g'.
Proof.
  revert flattenedPoses g. induction fuel as [| fuel IH]; intros [| first rest] g Hne; simpl;
    try done.
  - by destruct (Pose.flip first).
  - destruct (Pose.flip first); [| done].
    pose proof (shuffle_Permutation (first :: rest) g) as Hperm.
    destruct (shuffle (first :: rest) g) as [l g1]. simpl in Hperm.
    apply IH. intros ->. by apply Permutation_nil_cons in Hperm.
Qed.

Lemma generateShuffledPoses_Ok_Permutation files rules sensorNames fuel vecUseCounts name g
    poses g' :
  generateShuffledPoses files rules sensorNames fuel vecUseCounts name g = Ok poses g' ->
  exists vecVecPoses g1,
    generatePoses4vecFrames files rules sensorNames fuel vecUseCounts name g
      = Ok vecVecPoses g1 /\
    poses ≡ₚ concat vecVecPoses.
Proof.
  unfold generateShuffledPoses. rewrite bind_Ok. intros (vv & g1 & Hvec & Hrest).
  exists vv, g1. split; [done |].
  destruct (N.eqb_spec (N.of_nat (length (concat vv))) 0) as [Hempty | _].
  - injection Hrest as <- _. destruct (concat vv); [done | simpl in Hempty; lia].
  - pose proof (shuffle_Permutation (concat vv) g1) as Hperm.
    destruct (shuffle (concat vv) g1) as [l g2]. simpl in Hperm.
    apply reshuffle_loop_Permutation in Hrest. by rewrite Hrest.
Qed.

End ShuffleStage.

Lemma filter_Forall_id {A} (P : A -> Prop) `{forall x, Decision (P x)} (l : list A) :
  Forall P l -> filter P l = l.
Proof.
  induction 1 as [| x l Hx _ IH]; [done |]. by rewrite filter_cons_True, IH.
Qed.

Lemma filter_Forall_nil {A} (P : A -> Prop) `{forall x, Decision (P x)} (l : list A) :
  Forall (fun x => ~ P x) l -> filter P l = [].
Proof.
  induction 1 as [| x l Hx _ IH]; [done |]. by rewrite filter_cons_False, IH.
Qed.

Lemma concat_filter_srcFrame (vecVecPoses : list (list Pose.t)) (off k : nat) :
  (forall (j : nat) Poses pose,
     vecVecPoses !! j = Some Poses -> pose ∈ Poses ->
     Pose.srcFrame pose = N.of_nat (off + j)) ->
  length (filter (fun pose => Pose.srcFrame pose = N.of_nat k) (concat vecVecPoses)) =
  if decide (off <= k)%nat then from_option length 0%nat (vecVecPoses !! (k - off)%nat)
  else 0%nat.
Proof.
  revert off. induction vecVecPoses as [| Poses vv IH]; intros off Htag.
  - simpl. by destruct (decide _).
  - cbn [concat]. rewrite filter_app, length_app.
    rewrite (IH (S off)).
    2:{ intros j Ps pose Hj Hin. rewrite (Htag (S j) Ps pose Hj Hin). f_equal. lia. }
    assert (Hhead : Forall (fun pose => Pose.srcFrame pose = N.of_nat off) Poses).
    { apply Forall_forall. intros pose Hin. rewrite (Htag 0%nat Poses pose eq_refl Hin).
      f_equal. lia. }
    destruct (decide (k = off)) as [-> | Hne].
    + rewrite filter_Forall_id by done.
      destruct (decide (off <= off)%nat); [| lia].
      destruct (decide (S off <= off)%nat); [lia |].
      by rewrite Nat.sub_diag, Nat.add_0_r.
    + rewrite filter_Forall_nil.
      2:{ eapply Forall_impl; [exact Hhead |]. intros pose -> Heq.
          apply Nat2N.inj in Heq. congruence. }
      destruct (decide (off <= k)%nat), (decide (S off <= k)%nat); try lia; [| done].
      replace (k - off)%nat with (S (k - S off)) by lia. done.
Qed.

Section UnflippedRules.
Context `{StdRandom}.

Lemma generatePoses4oneFrame_unflipped rules sensorNames fuel useCount index trace g
    poses g' :
  Forall (fun rule : Rule => perturbParams.flip rule.2 = false) rules ->
  generatePoses4oneFrame rules sensorNames fuel useCount index trace g = Ok poses g' ->
  Forall (fun pose => Pose.flip pose = false) poses.
Proof.
  intros Hrules Hrun. destruct (N.eq_dec useCount 0%N) as [-> | Hcount].
  - injection Hrun as <- _. constructor.
  - destruct (first_rule rules index trace) as [rule |] eqn:Hrule.
    + rewrite (generatePoses4oneFrame_matched _ _ _ _ _ _ rule) in Hrun by done.
      apply poses_loop_Ok in Hrun as (synth & Hsynth & ->).
      apply first_rule_elem in Hrule as [Hin _]. rewrite Forall_forall in Hrules.
      rewrite (Hrules rule Hin), emit_all_false, app_nil_l.
      apply synthesize_Ok in Hsynth as [_ Hall].
      eapply Forall_impl; [exact Hall |]. by intros s [? _].
    + by apply generatePoses4oneFrame_unmatched_Ok in Hrun.
Qed.

Lemma generatePoses4vecFrames_unflipped files rules sensorNames fuel vecUseCounts name g
    vecVecPoses g' :
  Forall (fun rule : Rule => perturbParams.flip rule.2 = false) rules ->
  generatePoses4vecFrames files rules sensorNames fuel vecUseCounts name g
    = Ok vecVecPoses g' ->
  Forall (fun pose => Pose.flip pose = false) (concat vecVecPoses).
Proof.
  intros Hrules (trace & _ & _ & Hloop)%generatePoses4vecFrames_Ok.
  apply frames_loop_Ok in Hloop as (new & -> & _ & Hnew). rewrite app_nil_l.
  apply Forall_concat, Forall_lookup. intros i Poses Hi.
  apply Hnew in Hi as (useCount & ga & gb & _ & Hone).
  by eapply generatePoses4oneFrame_unflipped.
Qed.

End UnflippedRules.

Lemma length_concat_sum (vecVecPoses : list (list Pose.t)) (vecUseCounts : list N) :
  Forall2 (fun (Poses : list Pose.t) useCount => N.of_nat (length Poses) = useCount)
    vecVecPoses vecUseCounts ->
  N.of_nat (length (concat vecVecPoses)) = foldr N.add 0%N vecUseCounts.
Proof.
  induction 1 as [| Poses c vv cs Hc _ IH]; [done |].
  cbn [concat foldr]. rewrite length_app, Nat2N.inj_add, IH, Hc. reflexivity.
Qed.

(** X23. Given that [std::shuffle] rearranges its input, what
    [generateShuffledPoses] returns is a rearrangement of the poses of
    [generatePoses4vecFrames] for the same arguments, frame after frame:
    no pose is lost, repeated or altered by the shuffle stage, so the two
    hold the same poses, as many of each. *)
Theorem generateShuffledPoses_Permutation `{StdRandom}
    (files : TraceFiles) (rules : list Rule) (sensorNames : list string) (fuel : nat)
    (vecUseCounts : list N) (labelsFileName : string) (g : mt19937_64)
    (poses : list Pose.t) (g' : mt19937_64) :
  (forall (l : list Pose.t) (g0 : mt19937_64), (shuffle l g0).1 ≡ₚ l) ->
  generateShuffledPoses files rules sensorNames fuel vecUseCounts labelsFileName g
    = Ok poses g' ->
  exists vecVecPoses g1,
    generatePoses4vecFrames files rules sensorNames fuel vecUseCounts labelsFileName g
      = Ok vecVecPoses g1 /\
    poses ≡ₚ concat vecVecPoses /\
    length poses = length (concat vecVecPoses) /\
    forall pose, pose ∈ poses <-> pose ∈ concat vecVecPoses.
Proof.
  intros Hshuffle Hrun.
  destruct (generateShuffledPoses_Ok_Permutation Hshuffle _ _ _ _ _ _ _ _ _ Hrun)
    as (vecVecPoses & g1 & Hvec & Hperm).
  exists vecVecPoses, g1. split_and!; [done | done | by rewrite Hperm |].
  intros pose. by rewrite Hperm.
Qed.

Lemma generateShuffledPoses_Permutation_witness :
  let rules := [(Fixture.highway, Fixture.perturbParams1);
                (Fixture.local, Fixture.perturbParams2)] in
  exists poses g' vecVecPoses g1,
    @generateShuffledPoses Fixture.engine Fixture.files rules Fixture.oneSensor 5
      [2; 0; 0]%N "labels.csv" (Fixture.book 2) = Ok poses g' /\
    @generatePoses4vecFrames Fixture.engine Fixture.files rules Fixture.oneSensor 5
      [2; 0; 0]%N "labels.csv" (Fixture.book 2) = Ok vecVecPoses g1 /\
    poses ≡ₚ concat vecVecPoses.
Proof.
  intros rules.
  destruct (returns_Ok
    (@generateShuffledPoses Fixture.engine Fixture.files rules Fixture.oneSensor 5
       [2; 0; 0]%N "labels.csv" (Fixture.book 2)) ltac:(vm_compute; reflexivity))
    as (poses & g' & Hrun).
  destruct (@generateShuffledPoses_Permutation Fixture.engine Fixture.files rules
              Fixture.oneSensor 5 [2; 0; 0]%N "labels.csv" (Fixture.book 2) poses g'
              (fun l g0 => StandIn_rotate_shuffle_Permutation Scripted.next Pose.t l g0)
              Hrun) as (vecVecPoses & g1 & Hvec & Hperm & _).
  exists poses, g', vecVecPoses, g1. by split_and!.
Defined.

(** X24. Given that [std::shuffle] rearranges its input, and for fewer
    than 2^32 use counts: the sequence that [generateShuffledPoses]
    returns holds, for every frame, exactly as many poses tagged with the
    frame's index as the frame's use count asks for, and so as many poses
    in all as the use counts add up to. *)
Theorem generateShuffledPoses_counts `{StdRandom}
    (files : TraceFiles) (rules : list Rule) (sensorNames : list string) (fuel : nat)
    (vecUseCounts : list N) (labelsFileName : string) (g : mt19937_64)
    (poses : list Pose.t) (g' : mt19937_64) :
  (forall (l : list Pose.t) (g0 : mt19937_64), (shuffle l g0).1 ≡ₚ l) ->
  (N.of_nat (length vecUseCounts) < 2 ^ 32)%N ->
  generateShuffledPoses files rules sensorNames fuel vecUseCounts labelsFileName g
    = Ok poses g' ->
  (forall (i : nat) useCount, vecUseCounts !! i = Some useCount ->
     N.of_nat (length (filter (fun pose => Pose.srcFrame pose = N.of_nat i) poses))
       = useCount) /\
  N.of_nat (length poses) = foldr N.add 0%N vecUseCounts.
Proof.
  intros Hshuffle Hsmall Hrun.
  destruct (generateShuffledPoses_Ok_Permutation Hshuffle _ _ _ _ _ _ _ _ _ Hrun)
    as (vv & g1 & Hvec & Hperm).
  pose proof (generatePoses4vecFrames_lengths_mod _ _ _ _ _ _ _ _ _ Hvec)
    as (trace & _ & _ & Hmod & Hinner).
  rewrite N.mod_small in Hmod by done. apply Nat2N.inj in Hmod.
  split.
  - intros i useCount Hi. rewrite Hperm.
    rewrite (concat_filter_srcFrame vv 0 i).
    + destruct (decide (0 <= i)%nat); [| lia]. rewrite Nat.sub_0_r.
      destruct (lookup_lt_is_Some_2 vv i) as [Poses HPoses].
      { rewrite Hmod. by eapply lookup_lt_Some. }
      rewrite HPoses. simpl.
      destruct (Hinner i Poses HPoses) as (c & Hc & Hlen). congruence.
    + intros j Poses pose Hj Hin.
      apply (vecFrames_srcFrame_tag _ _ _ _ _ _ _ _ _ Hvec j Poses pose Hj Hin).
  - rewrite Hperm. apply length_concat_sum.
    apply Forall2_same_length_lookup. split; [done |].
    intros i Poses c HPoses Hc.
    destruct (Hinner i Poses HPoses) as (c' & Hc' & Hlen). congruence.
Qed.

Lemma generateShuffledPoses_counts_witness :
  let rules := [(Fixture.highway, Fixture.perturbParams1);
                (Fixture.local, Fixture.perturbParams2)] in
  exists poses g',
    @generateShuffledPoses Fixture.engine Fixture.files rules Fixture.oneSensor 5
      [2; 0; 1]%N "labels.csv" (Fixture.book 1) = Ok poses g' /\
    N.of_nat (length (filter (fun pose => Pose.srcFrame pose = 0%N) poses)) = 2%N /\
    N.of_nat (length (filter (fun pose => Pose.srcFrame pose = 2%N) poses)) = 1%N /\
    N.of_nat (length poses) = 3%N.
Proof.
  intros rules.
  destruct (returns_Ok
    (@generateShuffledPoses Fixture.engine Fixture.files rules Fixture.oneSensor 5
       [2; 0; 1]%N "labels.csv" (Fixture.book 1)) ltac:(vm_compute; reflexivity))
    as (poses & g' & Hrun).
  destruct (@generateShuffledPoses_counts Fixture.engine Fixture.files rules
              Fixture.oneSensor 5 [2; 0; 1]%N "labels.csv" (Fixture.book 1) poses g'
              (fun l g0 => StandIn_rotate_shuffle_Permutation Scripted.next Pose.t l g0)
              ltac:(reflexivity) Hrun) as (Hframes & Htotal).
  exists poses, g'. split; [exact Hrun |].
  split; [exact (Hframes 0%nat 2%N eq_refl) |].
  split; [exact (Hframes 2%nat 1%N eq_refl) | exact Htotal].
Defined.

(** X25. Given that [std::shuffle] rearranges its input: when no rule
    enables flip, [generateShuffledPoses] shuffles exactly once.  The
    reshuffle loop finds an unflipped first pose at once, so the result
    is the first shuffle of the flattened poses and no redraw budget is
    needed for the loop. *)
Theorem generateShuffledPoses_one_shuffle `{StdRandom}
    (files : TraceFiles) (rules : list Rule) (sensorNames : list string) (fuel : nat)
    (vecUseCounts : list N) (labelsFileName : string) (g : mt19937_64)
    (vecVecPoses : list (list Pose.t)) (g1 : mt19937_64) :
  (forall (l : list Pose.t) (g0 : mt19937_64), (shuffle l g0).1 ≡ₚ l) ->
  Forall (fun rule : Rule => perturbParams.flip rule.2 = false) rules ->
  generatePoses4vecFrames files rules sensorNames fuel vecUseCounts labelsFileName g
    = Ok vecVecPoses g1 ->
  concat vecVecPoses <> [] ->
  generateShuffledPoses files rules sensorNames fuel vecUseCounts labelsFileName g
    = Ok (shuffle (concat vecVecPoses) g1).1 (shuffle (concat vecVecPoses) g1).2.
Proof.
  intros Hshuffle Hrules Hvec Hne.
  pose proof (generatePoses4vecFrames_unflipped _ _ _ _ _ _ _ _ _ Hrules Hvec) as Hall.
  unfold generateShuffledPoses, bind. rewrite Hvec.
  destruct (N.eqb_spec (N.of_nat (length (concat vecVecPoses))) 0) as [Hempty | _].
  { destruct (concat vecVecPoses); [done | simpl in Hempty; lia]. }
  pose proof (Hshuffle (concat vecVecPoses) g1) as Hperm.
  destruct (shuffle (concat vecVecPoses) g1) as [l g2]. simpl in *.
  rewrite <- Hperm in Hall.
  destruct l as [| first rest].
  { apply Permutation_nil in Hperm. done. }
  apply Forall_cons_1 in Hall as [Hfirst _].
  destruct fuel; simpl; by rewrite Hfirst.
Qed.

Lemma generateShuffledPoses_one_shuffle_witness :
  exists vecVecPoses g1,
    @generatePoses4vecFrames Fixture.engine Fixture.files [Cases.anyFrame]
      Fixture.oneSensor 0 [1; 1; 1]%N "labels.csv" (Fixture.book 1) = Ok vecVecPoses g1 /\
    @generateShuffledPoses Fixture.engine Fixture.files [Cases.anyFrame]
      Fixture.oneSensor 0 [1; 1; 1]%N "labels.csv" (Fixture.book 1)
    = Ok (@shuffle Fixture.engine _ (concat vecVecPoses) g1).1
         (@shuffle Fixture.engine _ (concat vecVecPoses) g1).2.
Proof.
  destruct (returns_Ok
    (@generatePoses4vecFrames Fixture.engine Fixture.files [Cases.anyFrame]
       Fixture.oneSensor 0 [1; 1; 1]%N "labels.csv" (Fixture.book 1))
    ltac:(vm_compute; reflexivity)) as (vecVecPoses & g1 & Hvec).
  evaluate Hlen
    (match @generatePoses4vecFrames Fixture.engine Fixture.files [Cases.anyFrame]
             Fixture.oneSensor 0 [1; 1; 1]%N "labels.csv" (Fixture.book 1) with
     | Ok vv _ => length (concat vv)
     | _ => 0%nat
     end).
  rewrite Hvec in Hlen.
  exists vecVecPoses, g1. split; [exact Hvec |].
  apply (@generateShuffledPoses_one_shuffle Fixture.engine Fixture.files [Cases.anyFrame]
           Fixture.oneSensor 0 [1; 1; 1]%N "labels.csv" (Fixture.book 1) vecVecPoses g1
           (fun l g0 => StandIn_rotate_shuffle_Permutation Scripted.next Pose.t l g0)
           ltac:(repeat constructor) Hvec).
  intros Hnil. rewrite Hnil in Hlen. discriminate Hlen.
Defined.

(** X26. Given that [std::shuffle] rearranges its input, the shuffle
    stage adds no failure of its own: whatever [generateShuffledPoses]
    throws was thrown by [generatePoses4vecFrames], with the engine in
    the state of that throw; in particular [flattenedPoses.at(0)] never
    throws. *)
Theorem generateShuffledPoses_Throw `{StdRandom}
    (files : TraceFiles) (rules : list Rule) (sensorNames : list string) (fuel : nat)
    (vecUseCounts : list N) (labelsFileName : string) (g : mt19937_64)
    (e : Error) (g' : mt19937_64) :
  (forall (l : list Pose.t) (g0 : mt19937_64), (shuffle l g0).1 ≡ₚ l) ->
  generateShuffledPoses files rules sensorNames fuel vecUseCounts labelsFileName g
    = Throw e g' ->
  generatePoses4vecFrames files rules sensorNames fuel vecUseCounts labelsFileName g
    = Throw e g'.
Proof.
  intros Hshuffle. unfold generateShuffledPoses. rewrite bind_Throw.
  intros [Hvec | (vv & g1 & Hvec & Hrest)]; [done |].
  destruct (N.eqb_spec (N.of_nat (length (concat vv))) 0) as [Hempty | Hne];
    [discriminate |].
  pose proof (Hshuffle (concat vv) g1) as Hperm.
  destruct (shuffle (concat vv) g1) as [l g2]. simpl in Hperm.
  apply reshuffle_loop_no_throw in Hrest; [done | done |].
  intros ->. apply Permutation_nil in Hperm. rewrite Hperm in Hne. done.
Qed.

Lemma generateShuffledPoses_Throw_witness :
  exists e g',
    @generateShuffledPoses Fixture.engine Fixture.files Cases.highwayOnly
      Fixture.oneSensor 5 [1; 1; 1]%N "labels.csv" (Fixture.book 1) = Throw e g' /\
    @generatePoses4vecFrames Fixture.engine Fixture.files Cases.highwayOnly
      Fixture.oneSensor 5 [1; 1; 1]%N "labels.csv" (Fixture.book 1) = Throw e g'.
Proof.
  evaluate Hrun
    (@generateShuffledPoses Fixture.engine Fixture.files Cases.highwayOnly
       Fixture.oneSensor 5 [1; 1; 1]%N "labels.csv" (Fixture.book 1)).
  eexists _, _. split; [exact Hrun |].
  exact (@generateShuffledPoses_Throw Fixture.engine Fixture.files Cases.highwayOnly
           Fixture.oneSensor 5 [1; 1; 1]%N "labels.csv" (Fixture.book 1) _ _
           (fun l g0 => StandIn_rotate_shuffle_Permutation Scripted.next Pose.t l g0)
           Hrun).
Defined.

Section ReshuffleFacts.
Context `{StdRandom}.

Lemma reshuffle_loop_first fuel (l : list Pose.t) g poses g' :
  reshuffle_loop fuel l g = Ok poses g' ->
  (Pose.flip <$> head l = Some false /\ poses = l /\ g' = g) \/
  (Pose.flip <$> head l = Some true /\
   exists k, (k < fuel)%nat /\ shuffle_at k l g = (poses, g') /\
     Pose.flip <$> head poses = Some false /\
     forall j, (j < k)%nat -> Pose.flip <$> head (shuffle_at j l g).1 = Some true).
Proof.
  revert l g. induction fuel as [| fuel IH]; intros [| first rest] g; simpl;
    try discriminate.
  - destruct (Pose.flip first) eqn:Hflip; [discriminate |]. intros [= <- <-]. by left.
  - destruct (Pose.flip first) eqn:Hflip; [| intros [= <- <-]; by left].
    destruct (shuffle (first :: rest) g) as [l1 g1] eqn:Hshuffle.
    intros Hloop. right. split; [done |].
    apply IH in Hloop as [(Hhead & -> & ->) | (Hhead & k & Hk & Hat & Hexit & Hbefore)].
    + exists 0%nat. split_and!; [lia | by simpl; rewrite Hshuffle | done |].
      intros j Hj. lia.
    + exists (S k). split_and!; [lia | by simpl; rewrite Hshuffle | done |].
      intros [| j] Hj; simpl; rewrite Hshuffle; [done |]. apply Hbefore. lia.
Qed.

Lemma reshuffle_loop_complete fuel (l : list Pose.t) g k poses g' :
  Pose.flip <$> head l = Some true ->
  (k < fuel)%nat ->
  shuffle_at k l g = (poses, g') ->
  Pose.flip <$> head poses = Some false ->
  (forall j, (j < k)%nat -> Pose.flip <$> head (shuffle_at j l g).1 = Some true) ->
  reshuffle_loop fuel l g = Ok poses g'.
Proof.
  revert l g k. induction fuel as [| fuel IH]; intros l g k Hhead Hk Hat Hexit Hbefore;
    [lia |].
  destruct l as [| first rest]; [done |]. simpl in Hhead. injection Hhead as Hflip.
  simpl. rewrite Hflip.
  destruct (shuffle (first :: rest) g) as [l1 g1] eqn:Hshuffle.
  destruct k as [| k].
  - simpl in Hat. rewrite Hshuffle in Hat. injection Hat as -> ->.
    destruct poses as [| p ps]; [done |]. simpl in Hexit. injection Hexit as Hp.
    destruct fuel; simpl; by rewrite Hp.
  - simpl in Hat. rewrite Hshuffle in Hat.
    apply (IH l1 g1 k); [| lia | done | done |].
    + specialize (Hbefore 0%nat ltac:(lia)). simpl in Hbefore. by rewrite Hshuffle in Hbefore.
    + intros j Hj. specialize (Hbefore (S j) ltac:(lia)). simpl in Hbefore.
      by rewrite Hshuffle in Hbefore.
Qed.

Lemma reshuffle_loop_unflipped fuel (l : list Pose.t) g :
  Pose.flip <$> head l = Some false -> reshuffle_loop fuel l g = Ok l g.
Proof.
  destruct l as [| first rest]; [done |]. simpl. intros [= Hflip].
  destruct fuel; simpl; by rewrite Hflip.
Qed.

End ReshuffleFacts.

(** X27. When the flattened poses are not empty, what
    [generateShuffledPoses] returns is the first of the successive
    shuffles, each applied to the result of the one before, that starts
    with an unflipped pose; every shuffle before it starts with a flipped
    pose, and the engine is left where that shuffle left it.  With a
    budget of [fuel] reshuffles the call returns exactly when such a
    shuffle is among the first [fuel + 1]. *)
Theorem generateShuffledPoses_first_unflipped_shuffle `{StdRandom}
    (files : TraceFiles) (rules : list Rule) (sensorNames : list string) (fuel : nat)
    (vecUseCounts : list N) (labelsFileName : string) (g : mt19937_64)
    (vecVecPoses : list (list Pose.t)) (g1 : mt19937_64)
    (poses : list Pose.t) (g' : mt19937_64) :
  generatePoses4vecFrames files rules sensorNames fuel vecUseCounts labelsFileName g
    = Ok vecVecPoses g1 ->
  concat vecVecPoses <> [] ->
  generateShuffledPoses files rules sensorNames fuel vecUseCounts labelsFileName g
    = Ok poses g' <->
  exists k,
    (k <= fuel)%nat /\
    shuffle_at k (concat vecVecPoses) g1 = (poses, g') /\
    Pose.flip <$> head poses = Some false /\
    forall j, (j < k)%nat ->
      Pose.flip <$> head (shuffle_at j (concat vecVecPoses) g1).1 = Some true.
Proof.
  intros Hvec Hne. unfold generateShuffledPoses, bind. rewrite Hvec.
  destruct (N.eqb_spec (N.of_nat (length (concat vecVecPoses))) 0) as [Hempty | _].
  { destruct (concat vecVecPoses); [done | simpl in Hempty; lia]. }
  destruct (shuffle (concat vecVecPoses) g1) as [l0 g2] eqn:Hshuffle.
  split.
  - intros Hloop.
    apply reshuffle_loop_first in Hloop
      as [(Hhead & -> & ->) | (Hhead & k & Hk & Hat & Hexit & Hbefore)].
    + exists 0%nat. split_and!; [lia | by simpl; rewrite Hshuffle | done |].
      intros j Hj. lia.
    + exists (S k). split_and!; [lia | by simpl; rewrite Hshuffle | done |].
      intros [| j] Hj; simpl; rewrite Hshuffle; [done |]. apply Hbefore. lia.
  - intros (k & Hk & Hat & Hexit & Hbefore). destruct k as [| k].
    + simpl in Hat. rewrite Hshuffle in Hat. injection Hat as -> ->.
      by apply reshuffle_loop_unflipped.
    + simpl in Hat. rewrite Hshuffle in Hat.
      apply (reshuffle_loop_complete _ _ _ k); [| lia | done | done |].
      * specialize (Hbefore 0%nat ltac:(lia)). simpl in Hbefore.
        by rewrite Hshuffle in Hbefore.
      * intros j Hj. specialize (Hbefore (S j) ltac:(lia)). simpl in Hbefore.
        by rewrite Hshuffle in Hbefore.
Qed.

Lemma generateShuffledPoses_first_unflipped_shuffle_witness :
  let rules := [(Fixture.highway, Fixture.perturbParams1);
                (Fixture.local, Fixture.perturbParams2)] in
  exists vecVecPoses g1 poses g' k,
    @generatePoses4vecFrames Fixture.engine Fixture.files rules Fixture.oneSensor 5
      [2; 0; 0]%N "labels.csv" (Fixture.book 2) = Ok vecVecPoses g1 /\
    @generateShuffledPoses Fixture.engine Fixture.files rules Fixture.oneSensor 5
      [2; 0; 0]%N "labels.csv" (Fixture.book 2) = Ok poses g' /\
    (k <= 5)%nat /\
    @shuffle_at Fixture.engine _ k (concat vecVecPoses) g1 = (poses, g') /\
    Pose.flip <$> head poses = Some false.
Proof.
  intros rules.
  destruct (returns_Ok
    (@generatePoses4vecFrames Fixture.engine Fixture.files rules Fixture.oneSensor 5
       [2; 0; 0]%N "labels.csv" (Fixture.book 2)) ltac:(vm_compute; reflexivity))
    as (vecVecPoses & g1 & Hvec).
  destruct (returns_Ok
    (@generateShuffledPoses Fixture.engine Fixture.files rules Fixture.oneSensor 5
       [2; 0; 0]%N "labels.csv" (Fixture.book 2)) ltac:(vm_compute; reflexivity))
    as (poses & g' & Hrun).
  evaluate Hlen
    (match @generatePoses4vecFrames Fixture.engine Fixture.files rules Fixture.oneSensor 5
             [2; 0; 0]%N "labels.csv" (Fixture.book 2) with
     | Ok vv _ => length (concat vv)
     | _ => 0%nat
     end).
  rewrite Hvec in Hlen.
  assert (Hne : concat vecVecPoses <> []).
  { intros Hnil. rewrite Hnil in Hlen. discriminate Hlen. }
  destruct (proj1 (@generateShuffledPoses_first_unflipped_shuffle Fixture.engine
                     Fixture.files rules Fixture.oneSensor 5 [2; 0; 0]%N "labels.csv"
                     (Fixture.book 2) vecVecPoses g1 poses g' Hvec Hne) Hrun)
    as (k & Hk & Hat & Hexit & _).
  exists vecVecPoses, g1, poses, g', k. by split_and!.
Defined.

(** ** The message of [NoMatchingRule] *)

Lemma substring_all (s : string) : String.substring 0 (String.length s) s = s.
Proof. induction s as [| c s IH]; [done |]. simpl. by rewrite IH. Qed.

Lemma substring_split (s : string) (n : nat) :
  (n <= String.length s)%nat ->
  String.substring 0 n s +:+ String.substring n (String.length s - n) s = s.
Proof.
  revert n. induction s as [| c s IH]; intros n Hn.
  - simpl in Hn. assert (n = 0%nat) as -> by lia. reflexivity.
  - destruct n as [| n].
    + rewrite Nat.sub_0_r, substring_all. reflexivity.
    + change (String c (String.substring 0 n s +:+
                        String.substring n (String.length s - n) s) = String c s).
      f_equal. apply IH. simpl in Hn. lia.
Qed.

Lemma length_substring (s : string) (n m : nat) :
  (n + m <= String.length s)%nat -> String.length (String.substring n m s) = m.
Proof.
  revert n m. induction s as [| c s IH]; intros n m Hlen.
  - simpl in Hlen. assert (n = 0%nat) as -> by lia. assert (m = 0%nat) as -> by lia. done.
  - destruct n as [| n].
    + destruct m as [| m]; [done |]. cbn [String.substring String.length]. f_equal.
      apply IH. simpl in Hlen. lia.
    + cbn [String.substring]. apply IH. simpl in Hlen. lia.
Qed.

Lemma length_append (s t : string) :
  String.length (s +:+ t) = (String.length s + String.length t)%nat.
Proof.
  induction s as [| c s IH]; [done |].
  change (S (String.length (s +:+ t)) = S (String.length s + String.length t)).
  by rewrite IH.
Qed.

Lemma length_to_string (n : N) : (1 <= String.length (to_string n))%nat.
Proof.
  unfold to_string.
  assert (Hd : N.to_uint n <> Decimal.Nil).
  { destruct n as [| p]; [discriminate |]. apply Unsigned.to_uint_nonnil. }
  destruct (N.to_uint n); [done | simpl; lia ..].
Qed.

(** X28. The message of the [std::runtime_error] thrown for a frame
    without a matching rule never shows the frame: the source adds the
    index to the string literal, which moves the address of the literal
    instead of appending digits.  For an index up to 37 the message is
    the literal with its first [index] characters cut off, and for a
    larger index the address lies outside the literal, so the message is
    undefined.  For no index is it the literal followed by the index. *)
Theorem what_NoMatchingRule (index : N) :
  let literal := "no perturbation rule found for frame " in
  (forall s, what (NoMatchingRule index) = text s ->
     (index <= 37)%N /\
     String.substring 0 (N.to_nat index) literal +:+ s = literal /\
     String.length s = (37 - N.to_nat index)%nat) /\
  ((37 < index)%N -> what (NoMatchingRule index) = undefined_text) /\
  what (NoMatchingRule index) <> text (literal +:+ to_string index).
Proof.
  intros literal.
  assert (Hlen : String.length literal = 37%nat) by reflexivity.
  assert (Hwhat : what (NoMatchingRule index) =
            if (index <=? 37)%N then
              text (String.substring (N.to_nat index) (37 - N.to_nat index) literal)
            else undefined_text).
  { unfold what, literal_plus. fold literal. rewrite Hlen.
    change (N.of_nat 37) with 37%N. by destruct (index <=? 37)%N. }
  rewrite Hwhat. clear Hwhat.
  set (rest := String.substring (N.to_nat index) (37 - N.to_nat index) literal).
  assert (Hrest : (index <= 37)%N ->
            String.substring 0 (N.to_nat index) literal +:+ rest = literal /\
            String.length rest = (37 - N.to_nat index)%nat).
  { intros Hle. unfold rest. split.
    - rewrite <- Hlen at 1. apply substring_split. rewrite Hlen. lia.
    - apply length_substring. rewrite Hlen. lia. }
  clearbody rest.
  destruct (N.leb_spec index 37) as [Hle | Hgt].
  - destruct (Hrest Hle) as [Hsplit Hlength]. split_and!.
    + intros s [= <-]. by split_and!.
    + intros Hgt. lia.
    + intros [= Heq]. rewrite Heq, length_append, Hlen in Hlength.
      pose proof (length_to_string index). lia.
  - split_and!; [done | done | done].
Qed.

(** ** The test *)

Section TestFacts.
Import TestPoseGenerator.
Context `{StdRandom} `{ProjMetaData}.

Lemma and_then_forward_only v rest :
  forward_only v -> forward_only rest -> forward_only (and_then v rest).
Proof.
  intros [-> | (i & j & ->)] Hrest; [exact Hrest |]. right. eauto.
Qed.

Lemma assert_in_bound_passed i j field val rParams :
  Qabs val <= randParams.max rParams ->
  assert_in_bound i j field val rParams = passed.
Proof.
  intros Hle. unfold assert_in_bound, valueInBound.
  by rewrite (proj2 (Qle_bool_iff _ _) Hle).
Qed.

Lemma assert_in_bound_index i j field (m : gmap string float) key rParams :
  limit_representable rParams ->
  (forall name v, m !! name = Some v -> Qabs v <= randParams.max rParams) ->
  assert_in_bound i j field (map_index m key) rParams = passed.
Proof.
  intros [Hmax _] Hall. apply assert_in_bound_passed. unfold map_index.
  destruct (m !! key) as [v |] eqn:Hv; simpl; [by eapply Hall | done].
Qed.

Lemma check_sensors_passed testSensorNames i j expectedParams pose :
  limit_representable (perturbParams.sensor_yaw expectedParams) ->
  limit_representable (perturbParams.sensor_pitch expectedParams) ->
  limit_representable (perturbParams.sensor_roll expectedParams) ->
  pose_within_representable expectedParams pose ->
  check_sensors testSensorNames i j expectedParams pose = passed.
Proof.
  intros Hy Hp Hr (_ & _ & _ & Hyaw & Hpitch & Hroll).
  induction testSensorNames as [| sensorName rest IH]; [done |].
  cbn [check_sensors].
  rewrite (assert_in_bound_index i j (on_sensor_yaw sensorName))
    by first [exact Hy | exact (Hyaw Hy)].
  rewrite (assert_in_bound_index i j (on_sensor_roll sensorName))
    by first [exact Hr | exact (Hroll Hr)].
  rewrite (assert_in_bound_index i j (on_sensor_pitch sensorName))
    by first [exact Hp | exact (Hpitch Hp)].
  exact IH.
Qed.

Lemma check_pose_forward_only i j pose :
  ((i <? 2)%N = true -> (j mod 2 =? 0)%N = false -> Pose.flip pose = true) ->
  pose_within_representable
    (if (i <? 2)%N then Fixture.perturbParams1 else Fixture.perturbParams2) pose ->
  forward_only (check_pose i j pose).
Proof.
  intros Hflip Hwithin. unfold check_pose.
  set (expectedParams :=
         if (i <? 2)%N then Fixture.perturbParams1 else Fixture.perturbParams2) in *.
  assert (Hrep : limit_representable (perturbParams.shift expectedParams) /\
                 limit_representable (perturbParams.rotation expectedParams) /\
                 limit_representable (perturbParams.sensor_yaw expectedParams) /\
                 limit_representable (perturbParams.sensor_pitch expectedParams) /\
                 limit_representable (perturbParams.sensor_roll expectedParams)).
  { unfold expectedParams. destruct (i <? 2)%N; split_and!; split; done. }
  destruct Hrep as (Hs & Hr & Hy & Hp & Hro).
  assert (Hfirst : (if (i <? 2)%N && negb (j mod 2 =? 0)%N && negb (Pose.flip pose)
                    then failed (flip_is_set i j) else passed) = passed).
  { destruct (i <? 2)%N eqn:Hi; [| done]. destruct (j mod 2 =? 0)%N eqn:Hj; [done |].
    by rewrite Hflip. }
  rewrite Hfirst. cbn [and_then].
  pose proof Hwithin as (Hshift & Hrot & _).
  rewrite (assert_in_bound_passed i j on_shift) by auto.
  rewrite (assert_in_bound_passed i j on_rotation) by auto.
  cbn [and_then].
  rewrite check_sensors_passed; [| done | done | done | exact Hwithin].
  unfold assert_in_bound. destruct (valueInBound _ _); [by left | right; eauto].
Qed.

End TestFacts.

Section TestRun.
Import TestPoseGenerator.
Context `{StdRandom} `{ProjMetaData}.

Lemma generatePoses4oneFrame_odd_flipped rules sensorNames fuel useCount index trace rule g
    poses g' (j : nat) pose :
  first_rule rules index trace = Some rule ->
  perturbParams.flip rule.2 = true ->
  generatePoses4oneFrame rules sensorNames fuel useCount index trace g = Ok poses g' ->
  poses !! j = Some pose ->
  (N.of_nat j mod 2 =? 0)%N = false ->
  Pose.flip pose = true.
Proof.
  intros Hrule Hflip Hrun Hj Hodd.
  destruct (N.eq_dec useCount 0%N) as [-> | Hcount].
  - injection Hrun as <- _. done.
  - rewrite (generatePoses4oneFrame_matched _ _ _ _ _ _ rule) in Hrun by done.
    apply poses_loop_Ok in Hrun as (synth & _ & ->).
    rewrite app_nil_l, lookup_emit_all in Hj.
    destruct (synth !! j) as [s |]; [| done]. injection Hj as <-.
    unfold emit. by rewrite N.add_0_l, Hflip, Hodd.
Qed.

Variable files : TraceFiles.
Variable trace : projMetaTrace.
Variable labelFileName : string.
Variable testObject : PoseGenerator mt19937_64.

Hypothesis SetUp_Ok :
  PoseGenerator_new Fixture.configRules Fixture.testSensorNames 1 = inr testObject.
Hypothesis trace_loads : files labelFileName = Some trace.
Hypothesis trace_small : (getNumDatapoints trace < 2 ^ 32)%N.
Hypothesis trace_labels :
  forall i, (i < getNumDatapoints trace)%N ->
    doLabelsMatch trace i (stringMapFromSplitString Fixture.string1) = (i <? 2)%N /\
    ((i <? 2)%N = false ->
     doLabelsMatch trace i (stringMapFromSplitString Fixture.string2) = true).

Variable vecUseCounts : list N.
Hypothesis vecUseCounts_filled :
  vecUseCounts = replicate (N.to_nat (getNumDatapoints trace)) 2%N.

Lemma testObject_rules :
  m_perturbRules testObject =
    [(stringMapFromSplitString Fixture.string1, Fixture.perturbParams1);
     (stringMapFromSplitString Fixture.string2, Fixture.perturbParams2)] /\
  m_sensorNames testObject = Fixture.testSensorNames.
Proof.
  unfold PoseGenerator_new in SetUp_Ok.
  destruct (build_rules Fixture.configRules []) as [| rules] eqn:Hbuild; [discriminate |].
  injection SetUp_Ok as <-. apply build_rules_inr in Hbuild as ->. done.
Qed.

Lemma test_first_rule i :
  (i < getNumDatapoints trace)%N ->
  exists labelConditions,
    first_rule (m_perturbRules testObject) i trace =
    Some (labelConditions,
          if (i <? 2)%N then Fixture.perturbParams1 else Fixture.perturbParams2).
Proof.
  intros Hi. destruct testObject_rules as [-> _].
  destruct (trace_labels i Hi) as [H1 H2]. unfold first_rule. simpl. rewrite H1.
  destruct (i <? 2)%N; [eauto |]. rewrite H2 by done. eauto.
Qed.

Lemma vecUseCounts_length : N.of_nat (length vecUseCounts) = getNumDatapoints trace.
Proof. by rewrite vecUseCounts_filled, length_replicate, N2Nat.id. Qed.

Lemma test_call_no_throw fuel g e g' :
  generatePoses4vecFrames files (m_perturbRules testObject) (m_sensorNames testObject)
    fuel vecUseCounts labelFileName g <> Throw e g'.
Proof.
  unfold generatePoses4vecFrames. rewrite trace_loads, vecUseCounts_length.
  unfold to_uint32. rewrite N.mod_small by done. rewrite N.eqb_refl. simpl.
  rewrite bind_Throw. intros [Hloop | (vv & g1 & Hloop & Hsize)].
  - pose proof Hloop as Hkind. apply frames_loop_no_OutOfRange in Hkind.
    2:{ rewrite vecUseCounts_filled, length_replicate. simpl. lia. }
    destruct Hkind as [[k ->] | He].
    + apply frames_loop_NoMatchingRule in Hloop as (Hk & (c & _ & _ & Hnone) & _).
      destruct (test_first_rule k ltac:(lia)) as [lc Hrule]. congruence.
    + destruct (frames_loop_Throw_unknown _ _ _ _ _ _ _ _ _ _ _ Hloop He)
        as (k & c & rule & g0 & Hk & _ & _ & Hrule & Hone).
      destruct (test_first_rule k ltac:(lia)) as [lc Hrule']. rewrite Hrule' in Hrule.
      injection Hrule as <-.
      apply generateOnePose_Throw_unknown in Hone as (rParams & Hin & _ & Hunknown).
      destruct testObject_rules as [_ Hnames]. rewrite Hnames in Hin.
      simpl in Hin. destruct (k <? 2)%N; simpl in Hin;
        repeat (apply elem_of_cons in Hin as [-> | Hin]; [discriminate Hunknown |]);
        by apply elem_of_nil in Hin.
  - apply frames_loop_Ok in Hloop as (new & -> & Hlen & _).
    rewrite app_nil_l, Hlen, N2Nat.id, N.eqb_refl in Hsize. discriminate.
Qed.

Lemma test_call_defined fuel g :
  generatePoses4vecFrames files (m_perturbRules testObject) (m_sensorNames testObject)
    fuel vecUseCounts labelFileName g <> Undefined.
Proof.
  intros (trace' & k & c & Hfile & Hk & _ & _ & _ & Hnone)%generatePoses4vecFrames_Undefined.
  rewrite trace_loads in Hfile. injection Hfile as <-.
  destruct (test_first_rule k Hk) as [lc Hrule]. congruence.
Qed.

Lemma check_poses_forward_only Poses i n j :
  (N.to_nat j + n <= length Poses)%nat ->
  (forall (k : nat) pose, Poses !! k = Some pose ->
     forward_only (check_pose i (N.of_nat k) pose)) ->
  forward_only (check_poses Poses i n j).
Proof.
  intros Hlen Hall. revert j Hlen. induction n as [| n IH]; intros j Hlen; [by left |].
  cbn [check_poses].
  destruct (lookup_lt_is_Some_2 Poses (N.to_nat j) ltac:(lia)) as [pose Hpose].
  rewrite Hpose. apply and_then_forward_only.
  - specialize (Hall _ _ Hpose). by rewrite N2Nat.id in Hall.
  - apply IH. lia.
Qed.

Lemma test_trial_forward_only fuel g framePoses g' :
  generatePoses4vecFrames files (m_perturbRules testObject) (m_sensorNames testObject)
    fuel vecUseCounts labelFileName g = Ok framePoses g' ->
  forward_only (check_trial trace vecUseCounts framePoses).
Proof.
  intros (trace' & Hfile & _ & Hloop)%generatePoses4vecFrames_Ok.
  rewrite trace_loads in Hfile. injection Hfile as <-.
  rewrite vecUseCounts_length in Hloop. unfold to_uint32 in Hloop.
  rewrite N.mod_small in Hloop by done.
  apply frames_loop_Ok in Hloop as (new & -> & Hlen & Hnew). rewrite app_nil_l.
  assert (Hframe : forall (i : nat) Poses, new !! i = Some Poses ->
            (N.of_nat i < getNumDatapoints trace)%N /\
            length Poses = 2%nat /\
            forall (k : nat) pose, Poses !! k = Some pose ->
              forward_only (check_pose (N.of_nat i) (N.of_nat k) pose)).
  { intros i Poses Hi.
    assert (Hrange : (N.of_nat i < getNumDatapoints trace)%N).
    { apply lookup_lt_Some in Hi. lia. }
    destruct (Hnew i Poses Hi) as (useCount & ga & gb & Hat & Hone).
    rewrite N.add_0_l in Hone. simpl in Hat. rewrite vecUseCounts_filled in Hat.
    apply lookup_replicate in Hat as [-> _].
    destruct (test_first_rule (N.of_nat i) Hrange) as [lc Hrule].
    split; [done |]. split; [by apply generatePoses4oneFrame_length in Hone |].
    intros k pose Hk. apply check_pose_forward_only.
    - intros Hlow Hodd.
      eapply (generatePoses4oneFrame_odd_flipped _ _ _ _ _ _ _ _ _ _ k pose Hrule);
        [by rewrite Hlow | exact Hone | done | done].
    - pose proof (generatePoses4oneFrame_within_fields _ _ _ _ _ _ _ _ _ _ Hrule Hone)
        as Hall.
      rewrite Forall_lookup in Hall. exact (Hall k pose Hk). }
  unfold check_trial. rewrite Hlen, N2Nat.id, N.eqb_refl.
  assert (Hsizes : forall n i, (N.to_nat i + n = length new)%nat ->
            check_sizes vecUseCounts new n i = passed).
  { induction n as [| n IH]; intros i Hin; [done |]. cbn [check_sizes].
    assert (Hat : vecUseCounts !! N.to_nat i = Some 2%N).
    { rewrite vecUseCounts_filled. apply lookup_replicate. split; [done | lia]. }
    rewrite Hat.
    destruct (lookup_lt_is_Some_2 new (N.to_nat i) ltac:(lia)) as [Poses HPoses].
    rewrite HPoses. destruct (Hframe _ _ HPoses) as (_ & -> & _).
    change (N.of_nat 2 =? 2)%N with true. cbn iota. apply IH. lia. }
  rewrite Hsizes by lia. cbn [and_then].
  assert (Hframes : forall n i, (N.to_nat i + n = length new)%nat ->
            forward_only (check_frames vecUseCounts new n i)).
  { induction n as [| n IH]; intros i Hin; [by left |]. cbn [check_frames].
    assert (Hat : vecUseCounts !! N.to_nat i = Some 2%N).
    { rewrite vecUseCounts_filled. apply lookup_replicate. split; [done | lia]. }
    rewrite Hat.
    destruct (lookup_lt_is_Some_2 new (N.to_nat i) ltac:(lia)) as [Poses HPoses].
    rewrite HPoses. destruct (Hframe _ _ HPoses) as (_ & HlenP & Hposes).
    rewrite N2Nat.id in Hposes.
    apply and_then_forward_only; [| apply IH; lia].
    apply check_poses_forward_only; [rewrite HlenP; simpl; lia | done]. }
  apply Hframes. lia.
Qed.

Lemma test_trials fuel n g :
  match trials files testObject fuel trace vecUseCounts labelFileName n g with
  | Ok v _ => forward_only v
  | Throw _ _ => False
  | OutOfFuel => True
  | Undefined => False
  end.
Proof.
  revert g. induction n as [| n IH]; intros g; [by left |].
  cbn [trials]. unfold bind.
  destruct (generatePoses4vecFrames _ _ _ _ _ _ g) as [framePoses g1 | e g1 | |] eqn:Hcall.
  - pose proof (test_trial_forward_only _ _ _ _ Hcall) as [Hpass | (i & j & Hfail)].
    + rewrite Hpass. apply IH.
    + rewrite Hfail. right. eauto.
  - by apply test_call_no_throw in Hcall.
  - done.
  - by apply test_call_defined in Hcall.
Qed.

End TestRun.

(** X29. The test [TestGeneratePoses4vecFrame_L0] cannot fail on its
    size assertions, on its flip assertion or on the bounds of shift,
    rotation and the sensor fields.  Suppose that the fixture is set up,
    that the label file loads with fewer than 2^32 frames, and that it
    labels its first two frames for the first rule of the fixture and
    every later frame for the second rule and not for the first (the
    layout that the test assumes).  Then, on every engine, the test
    passes, or a call never returns, or the assertion that fails is a
    bound on [forward], the one field whose hard limit (0.8) is not a
    binary32 number; no exception leaves the test, no vector is read
    past its end and no call has undefined behaviour. *)
Theorem TestGeneratePoses4vecFrame_L0_forward_only `{StdRandom} `{ProjMetaData}
    (files : TraceFiles) (fuel : nat) (labelFileName : string)
    (trace : projMetaTrace) (testObject : PoseGenerator mt19937_64) :
  PoseGenerator_new Fixture.configRules Fixture.testSensorNames 1 = inr testObject ->
  files labelFileName = Some trace ->
  (getNumDatapoints trace < 2 ^ 32)%N ->
  (forall i, (i < getNumDatapoints trace)%N ->
     doLabelsMatch trace i (stringMapFromSplitString Fixture.string1) = (i <? 2)%N /\
     ((i <? 2)%N = false ->
      doLabelsMatch trace i (stringMapFromSplitString Fixture.string2) = true)) ->
  let verdict := TestPoseGenerator.TestGeneratePoses4vecFrame_L0 files fuel labelFileName in
  verdict = TestPoseGenerator.passed \/
  verdict = TestPoseGenerator.hung \/
  exists i j,
    verdict = TestPoseGenerator.failed
                (TestPoseGenerator.value_in_bound i j TestPoseGenerator.on_forward).
Proof.
  intros HSetUp Hfile Hsmall Hlabels verdict. unfold verdict.
  unfold TestPoseGenerator.TestGeneratePoses4vecFrame_L0. rewrite HSetUp, Hfile.
  pose proof (test_trials files trace labelFileName testObject HSetUp Hfile Hsmall Hlabels
                _ eq_refl fuel 100 (m_generator testObject)) as Hrun.
  cbv zeta.
  destruct (TestPoseGenerator.trials _ _ _ _ _ _ _ _) as [v g' | e g' | |];
    [| done | by right; left | done].
  destruct Hrun as [-> | Hfail]; [by left | by right; right].
Qed.

Lemma TestGeneratePoses4vecFrame_L0_forward_only_witness :
  let verdict :=
    @TestPoseGenerator.TestGeneratePoses4vecFrame_L0 Fixture.engine Fixture.parser
      Fixture.files 5 "labels.csv" in
  verdict = TestPoseGenerator.passed \/
  verdict = TestPoseGenerator.hung \/
  exists i j,
    verdict = TestPoseGenerator.failed
                (TestPoseGenerator.value_in_bound i j TestPoseGenerator.on_forward).
Proof.
  evaluate HSetUp
    (@PoseGenerator_new Fixture.engine Fixture.parser Fixture.configRules
       Fixture.testSensorNames 1).
  apply (@TestGeneratePoses4vecFrame_L0_forward_only Fixture.engine Fixture.parser
           Fixture.files 5 "labels.csv" Fixture.trace _ HSetUp eq_refl ltac:(reflexivity)).
  intros i Hi.
  assert (H1 : @stringMapFromSplitString Fixture.parser Fixture.string1 !! "road_type"
               = Some "highway") by (vm_compute; reflexivity).
  assert (H2 : @stringMapFromSplitString Fixture.parser Fixture.string2 !! "road_type"
               = Some "local") by (vm_compute; reflexivity).
  unfold Fixture.trace. cbn [doLabelsMatch]. rewrite H1, H2.
  destruct (i <? 2)%N; split; try reflexivity; discriminate.
Defined.
